(** * A Neural Turing Machine with a manual backward pass (ntm/ntm.py)

    Shallow embedding of [NTM.lossFun] and of its three local functions
    [fprop], [manual_grads] and [bprop], and of the constructor.

    Conventions of the embedding.
    - A numpy array is a list of rows over the real numbers ([matrix]);
      a float is idealised as a real.  A column vector of length [n] is
      an [n x 1] matrix, exactly as the code shapes its parameters.
    - The Python dictionaries keyed by the timestep (with the key [-1] for
      the initial conditions) are [gmap Z matrix]; the parameter and the
      gradient collections are [gmap string matrix].
    - A [KeyError] or [IndexError] is [None] in the option monad.  numpy
      raises on operands whose shapes do not conform; the array operations
      below are total and agree with numpy on conformant operands, and the
      theorems that depend on shapes state them as hypotheses. *)

From Stdlib Require Import Reals Lra Lia ZArith.
From stdpp Require Import gmap strings list fin_maps.

Open Scope R_scope.

(** ** Arrays *)

Abbreviation vector := (list R).
Abbreviation matrix := (list (list R)).

Module Np.

Definition rows (a : matrix) : nat := length a.
Definition cols (a : matrix) : nat := length (hd [] a).

(** Every row of [a] has [c] entries and there are [r] of them. *)
Definition has_shape (r c : nat) (a : matrix) : Prop :=
  length a = r ∧ Forall (λ row, length row = c) a.

Definition vsum (v : vector) : R := foldr Rplus 0 v.

(** [np.sum] of a two-dimensional array. *)
Definition sum (a : matrix) : R := vsum (map vsum a).

Definition map1 (f : R → R) (a : matrix) : matrix := map (map f) a.

(** Element-wise binary operation on two arrays of one shape. *)
Definition map2 (f : R → R → R) (a b : matrix) : matrix :=
  zip_with (zip_with f) a b.

Definition add : matrix → matrix → matrix := map2 Rplus.
Definition sub : matrix → matrix → matrix := map2 Rminus.
Definition multiply : matrix → matrix → matrix := map2 Rmult.
Definition neg : matrix → matrix := map1 Ropp.

(** [c - a] and [c + a] for a Python scalar [c]. *)
Definition rsub (c : R) : matrix → matrix := map1 (λ x, c - x).
Definition radd (c : R) : matrix → matrix := map1 (λ x, c + x).

(** [a + c] for a Python scalar [c]. *)
Definition adds (a : matrix) (c : R) : matrix := map1 (λ x, x + c) a.

Definition zeros_like : matrix → matrix := map1 (λ _, 0).
Definition ones_like : matrix → matrix := map1 (λ _, 1).

(** In-place update [a op= b]: the result has the shape of [a].  On
    operands of one shape this is the element-wise operation; where [b]
    has no entry numpy raises, and the entry of [a] is kept here. *)
Fixpoint inplace_row (f : R → R → R) (a b : vector) : vector :=
  match a, b with
  | x :: a', y :: b' => f x y :: inplace_row f a' b'
  | _, _ => a
  end.

Fixpoint inplace (f : R → R → R) (a b : matrix) : matrix :=
  match a, b with
  | r :: a', s :: b' => inplace_row f r s :: inplace f a' b'
  | _, _ => a
  end.

Definition iadd : matrix → matrix → matrix := inplace Rplus.
Definition isub : matrix → matrix → matrix := inplace Rminus.

Definition vdot (u v : vector) : R := vsum (zip_with Rmult u v).

Definition column (j : nat) (a : matrix) : vector :=
  map (λ row, nth j row 0) a.

(** [a.T] *)
Definition transpose (a : matrix) : matrix :=
  map (λ j, column j a) (seq 0 (cols a)).

(** [np.dot] of two two-dimensional arrays. *)
Definition dot (a b : matrix) : matrix :=
  map (λ row, map (λ col, vdot row col) (transpose b)) a.

(** [np.reshape(a, (r, c))]: the entries in row-major order, cut into
    [r] rows of [c] entries. *)
Definition reshape (r c : nat) (a : matrix) : matrix :=
  map (λ i, take c (drop (i * c) (concat a))) (seq 0 r).

(** [np.reshape(a, a.shape[::-1])] *)
Definition reshape_rev (a : matrix) : matrix := reshape (cols a) (rows a) a.

End Np.

(** ** The helpers of [util.util] *)

Module Util.

(** Modelled from the spec: [util.util] is not part of the sources.  The
    spec names the nonlinearities as the pure functions sigmoid, softmax
    and softplus (sections 1 and 4.3); they are taken with their usual
    definitions over the reals, applied entry by entry. *)
Definition sigmoid1 (x : R) : R := / (1 + exp (- x)).
Definition softplus1 (x : R) : R := ln (1 + exp x).

Definition sigmoid : matrix → matrix := Np.map1 sigmoid1.
Definition softplus : matrix → matrix := Np.map1 softplus1.

(** Modelled from the spec: softmax over all the entries of the array
    (section 4.1: "apply a softmax across all N rows"). *)
Definition softmax (a : matrix) : matrix :=
  let e := Np.map1 exp a in Np.map1 (λ x, x / Np.sum e) e.

End Util.

(** ** The memory bank ([memory]) *)

Module Memory.

(** Modelled from the spec: the module [memory] is not part of the
    sources.  Section 4.2: [read] "returns the weighting-weighted sum of
    memory rows", here as an [M x 1] column for an [N x M] memory and an
    [N x 1] weighting. *)
Definition read (memory w : matrix) : matrix :=
  Np.dot (Np.transpose memory) w.

(** Modelled from the spec: section 4.2, "for each location n,
    memory'[n] = memory[n] * (1 - weighting[n] * erase)
                 + weighting[n] * add". *)
Definition write (memory w erase add : matrix) : matrix :=
  zip_with
    (λ row wn,
       zip_with (λ x ea, x * (1 - wn * ea.1) + wn * ea.2)
                row (zip (concat erase) (concat add)))
    memory (concat w).

End Memory.

(** ** The addressing engine ([addressing]) *)

Module Addressing.

Definition norm (v : vector) : R := sqrt (Np.vdot v v).

(** Modelled from the spec: section 4.1, step 1, "compute cosine
    similarity between the row and key ... zero-norm memory row or
    zero-norm key ... define similarity as 0 in that case". *)
Definition cosine_similarity (u v : vector) : R :=
  if Req_dec_T (norm u * norm v) 0 then 0
  else Np.vdot u v / (norm u * norm v).

(** Modelled from the spec: step 1, the similarities scaled by the
    sharpness, then a softmax across the N rows. *)
Definition content_focus (key : vector) (beta : R) (memory : matrix) : vector :=
  concat (Util.softmax (map (λ row, [beta * cosine_similarity row key]) memory)).

(** Modelled from the spec: step 2,
    "gated = gate * content_weighting + (1 - gate) * prev_weighting". *)
Definition interpolate (g : R) (w_c w_prev : vector) : vector :=
  zip_with (λ c p, g * c + (1 - g) * p) w_c w_prev.

Definition vadd : vector → vector → vector := zip_with Rplus.
Definition vscale (c : R) : vector → vector := map (Rmult c).

(** Modelled from the spec: step 3, the circular convolution of the
    gated weighting with the shift distribution.  Entry [j] of the
    distribution stands for the offset [j - 1], so that location [i]
    receives [s[j] * gated[(i - j + 1) mod N]]: every term is the gated
    weighting rotated around the N locations.  With [N = 1] every
    rotation is the identity. *)
Definition shift_term (w_g : vector) (j : nat) (sj : R) : vector :=
  vscale sj (rotate (length w_g + 1 - j) w_g).

Definition shift (w_g s : vector) : vector :=
  foldr vadd (map (λ _, 0) w_g) (imap (shift_term w_g) s).

(** Modelled from the spec: the power of step 4 on a non-negative base,
    with [0 ** gamma = 0] for the exponents [gamma >= 1] of the spec. *)
Definition power (x gamma : R) : R :=
  if Req_dec_T x 0 then 0 else Rpower x gamma.

(** Modelled from the spec: step 4, "raise each element of the shifted
    weighting to the power sharpen_exp and renormalize by the sum". *)
Definition sharpen (w : vector) (gamma : R) : vector :=
  let p := map (λ x, power x gamma) w in
  map (λ x, x / Np.vsum p) p.

(** The only entry of a [1 x 1] array. *)
Definition item (a : matrix) : R := nth 0 (concat a) 0.

(** Modelled from the spec: section 4.1, the contract
    [create_weighting(key, sharpness, gate, shift, sharpen_exp,
    prev_weighting, memory)]; the result is an [N x 1] column. *)
Definition create_weights (k_t b_t g_t s_t gamma_t w_old mem : matrix) : matrix :=
  let w_c := content_focus (concat k_t) (item b_t) mem in
  let w_g := interpolate (item g_t) w_c (concat w_old) in
  let w_tilde := shift w_g (concat s_t) in
  map (λ x, [x]) (sharpen w_tilde (item gamma_t)).

End Addressing.

(** ** The model object *)

(** [self.stats]: the trace that [fprop] leaves for [manual_grads], in the
    order of the Python list.  [st_loss] is the array of the per-bit
    losses summed over the timesteps, before [np.sum]. *)
Inductive ndarray :=
| Scalar (x : R)
| Array (a : matrix).

Record stats := Stats {
  st_loss : ndarray;
  st_mems : gmap Z matrix;
  st_ps : gmap Z matrix;
  st_ys : gmap Z matrix;
  st_os : gmap Z matrix;
  st_zos : gmap Z matrix;
  st_hs : gmap Z matrix;
  st_zhs : gmap Z matrix;
  st_xs : gmap Z matrix;
  st_rs : gmap Z matrix;
  st_w_rs : gmap Z matrix;
  st_w_ws : gmap Z matrix;
  st_adds : gmap Z matrix;
  st_erases : gmap Z matrix
}.

(** The fields of an [NTM] instance that [lossFun] uses. *)
Record NTM := Ntm {
  N : nat;
  M : nat;
  out_size : nat;
  vec_size : nat;
  self_stats : option stats;
  W : gmap string matrix
}.

(** [shift_width = min(3, self.N)] of the constructor. *)
Definition shift_width (n : nat) : nat := Nat.min 3 n.

(** ** The forward pass *)

(** [loss - m] where [loss] starts as the Python integer [0]. *)
Definition loss_sub (loss : ndarray) (m : matrix) : ndarray :=
  match loss with
  | Scalar x => Array (Np.rsub x m)
  | Array a => Array (Np.sub a m)
  end.

(** [np.sum(loss)] *)
Definition np_sum (loss : ndarray) : R :=
  match loss with
  | Scalar x => x
  | Array a => Np.sum a
  end.

(** [epsilon = 2**-23] *)
Definition epsilon : R := / 2 ^ 23.

(** The parameters of one head, computed from the interface layer. *)
Record head := Head {
  h_k : matrix;
  h_beta : matrix;
  h_g : matrix;
  h_s : matrix;
  h_gamma : matrix
}.

(** Lines 134-141, "parameters to the read head". *)
Definition read_head (W : gmap string matrix) (o : matrix) : option head :=
  ok ← W !! "ok_r"; bk ← W !! "bk_r";
  let zk := Np.add (Np.dot ok o) bk in
  let k := Np.map1 tanh zk in
  obeta ← W !! "obeta_r"; bbeta ← W !! "bbeta_r";
  let beta := Util.softplus (Np.add (Np.dot obeta o) bbeta) in
  og ← W !! "og_r"; bg ← W !! "bg_r";
  let g := Util.sigmoid (Np.add (Np.dot og o) bg) in
  os ← W !! "os_r"; bs ← W !! "bs_r";
  let s := Util.softmax (Np.add (Np.dot os o) bs) in
  ogamma ← W !! "ogamma_r"; bgamma ← W !! "bgamma_r";
  let gamma := Np.radd 1 (Util.sigmoid (Np.add (Np.dot ogamma o) bgamma)) in
  Some (Head k beta g s gamma).

(** Lines 144-150, "parameters to the write head". *)
Definition write_head (W : gmap string matrix) (o : matrix) : option head :=
  ok ← W !! "ok_w"; bk ← W !! "bk_w";
  let k := Np.map1 tanh (Np.add (Np.dot ok o) bk) in
  obeta ← W !! "obeta_w"; bbeta ← W !! "bbeta_w";
  let beta := Util.softplus (Np.add (Np.dot obeta o) bbeta) in
  og ← W !! "og_w"; bg ← W !! "bg_w";
  let g := Util.sigmoid (Np.add (Np.dot og o) bg) in
  os ← W !! "os_w"; bs ← W !! "bs_w";
  let s := Util.softmax (Np.add (Np.dot os o) bs) in
  ogamma ← W !! "ogamma_w"; bgamma ← W !! "bgamma_w";
  let gamma := Np.radd 1 (Util.sigmoid (Np.add (Np.dot ogamma o) bgamma)) in
  Some (Head k beta g s gamma).

(** [addressing.create_weights] on the parameters of a head. *)
Definition address (h : head) (w_old mem : matrix) : matrix :=
  Addressing.create_weights (h_k h) (h_beta h) (h_g h) (h_s h) (h_gamma h)
                            w_old mem.

(** The hidden pre-activation of line 127. *)
Definition hidden_pre (xh rh bh x r_prev : matrix) (m : nat) : matrix :=
  let rsum := Np.dot rh (Np.reshape m 1 r_prev) in
  Np.add (Np.add (Np.dot xh x) rsum) bh.

(** The loss term of lines 177-183 at one timestep: [a + b]. *)
Definition bce_terms (p tgt : matrix) : matrix :=
  let one := Np.ones_like p in
  let a := Np.multiply tgt (Np.map1 ln (Np.adds p epsilon)) in
  let b := Np.multiply (Np.sub one tgt)
                       (Np.map1 ln (Np.adds (Np.sub one p) epsilon)) in
  Np.add a b.

(** What one iteration of the loop of [fprop] computes (lines 124-189),
    in the order of the code.  The dictionaries of the head parameters are
    written and read within one iteration only; they are the two [head]
    fields here. *)
Record frame := Frame {
  f_x : matrix;
  f_zh : matrix;
  f_h : matrix;
  f_zo : matrix;
  f_o : matrix;
  f_read_head : head;
  f_write_head : head;
  f_add : matrix;
  f_erase : matrix;
  f_w_w : matrix;
  f_w_r : matrix;
  f_y : matrix;
  f_p : matrix;
  f_ts : matrix;
  f_bce : matrix;
  f_r : matrix;
  f_mem : matrix
}.

Definition fprop_frame (self : NTM) (inputs targets : list matrix)
    (W : gmap string matrix) (t : nat) (st : stats) : option frame :=
  let tz := Z.of_nat t in
  inp ← inputs !! t;
  let x := Np.reshape_rev inp in
  rh ← W !! "rh"; r_prev ← st_rs st !! (tz - 1)%Z;
  xh ← W !! "xh"; bh ← W !! "bh";
  let zh := hidden_pre xh rh bh x r_prev (M self) in
  let h := Np.map1 tanh zh in
  ho ← W !! "ho"; bo ← W !! "bo";
  let zo := Np.add (Np.dot ho h) bo in
  let o := Np.map1 tanh zo in
  hr ← read_head W o;
  hw ← write_head W o;
  oadds ← W !! "oadds"; badds ← W !! "badds";
  let add := Np.map1 tanh (Np.add (Np.dot oadds o) badds) in
  oerases ← W !! "oerases"; berases ← W !! "berases";
  let erase := Util.sigmoid (Np.add (Np.dot oerases o) berases) in
  w_w_prev ← st_w_ws st !! (tz - 1)%Z;
  mem_prev ← st_mems st !! (tz - 1)%Z;
  let w_w := address hw w_w_prev mem_prev in
  w_r_prev ← st_w_rs st !! (tz - 1)%Z;
  let w_r := address hr w_r_prev mem_prev in
  oy ← W !! "oy"; by_ ← W !! "by";
  let y := Np.add (Np.dot oy o) by_ in
  let p := Util.sigmoid y in
  tgt ← targets !! t;
  let ts := Np.reshape (out_size self) 1 tgt in
  let r := Memory.read mem_prev w_r in
  let mem := Memory.write mem_prev w_w erase add in
  Some {| f_x := x; f_zh := zh; f_h := h; f_zo := zo; f_o := o;
          f_read_head := hr; f_write_head := hw;
          f_add := add; f_erase := erase; f_w_w := w_w; f_w_r := w_r;
          f_y := y; f_p := p; f_ts := ts; f_bce := bce_terms p ts;
          f_r := r; f_mem := mem |}.

(** The dictionary writes of the iteration and [loss = loss - (a + b)]. *)
Definition record_frame (t : nat) (f : frame) (st : stats) : stats :=
  let tz := Z.of_nat t in
  {| st_loss := loss_sub (st_loss st) (f_bce f);
     st_mems := <[tz := f_mem f]> (st_mems st);
     st_ps := <[tz := f_p f]> (st_ps st);
     st_ys := <[tz := f_y f]> (st_ys st);
     st_os := <[tz := f_o f]> (st_os st);
     st_zos := <[tz := f_zo f]> (st_zos st);
     st_hs := <[tz := f_h f]> (st_hs st);
     st_zhs := <[tz := f_zh f]> (st_zhs st);
     st_xs := <[tz := f_x f]> (st_xs st);
     st_rs := <[tz := f_r f]> (st_rs st);
     st_w_rs := <[tz := f_w_r f]> (st_w_rs st);
     st_w_ws := <[tz := f_w_w f]> (st_w_ws st);
     st_adds := <[tz := f_add f]> (st_adds st);
     st_erases := <[tz := f_erase f]> (st_erases st) |}.

(** The body of the loop of [fprop] at timestep [t]. *)
Definition fprop_step (self : NTM) (inputs targets : list matrix)
    (W : gmap string matrix) (t : nat) (st : stats) : option stats :=
  f ← fprop_frame self inputs targets W t st;
  Some (record_frame t f st).

(** The trace before the loop (lines 100-120): the initial conditions
    come from [self.W], not from the argument [params]. *)
Definition fprop_init (self : NTM) : option stats :=
  rsInit ← W self !! "rsInit";
  w_wsInit ← W self !! "w_wsInit";
  w_rsInit ← W self !! "w_rsInit";
  memsInit ← W self !! "memsInit";
  Some {| st_loss := Scalar 0;
          st_mems := {[ (-1)%Z := memsInit ]};
          st_ps := ∅; st_ys := ∅; st_os := ∅; st_zos := ∅;
          st_hs := ∅; st_zhs := ∅; st_xs := ∅;
          st_rs := {[ (-1)%Z := rsInit ]};
          st_w_rs := {[ (-1)%Z := Util.softmax w_rsInit ]};
          st_w_ws := {[ (-1)%Z := Util.softmax w_wsInit ]};
          st_adds := ∅; st_erases := ∅ |}.

(** [for t in xrange(len(inputs))], over the timesteps still to run. *)
Fixpoint fprop_loop (self : NTM) (inputs targets : list matrix)
    (W : gmap string matrix) (steps : list nat) (st : stats) : option stats :=
  match steps with
  | [] => Some st
  | t :: steps' =>
      st' ← fprop_step self inputs targets W t st;
      fprop_loop self inputs targets W steps' st'
  end.

(** [fprop(params)]: the trace stored in [self.stats] and the returned
    [np.sum(loss)]. *)
Definition fprop (self : NTM) (inputs targets : list matrix)
    (params : gmap string matrix) : option (R * stats) :=
  st0 ← fprop_init self;
  st ← fprop_loop self inputs targets params (seq 0 (length inputs)) st0;
  Some (np_sum (st_loss st), st).

(** ** The manual backward pass *)

(** The gradient collection and the four dictionaries of [manual_grads]. *)
Record grads := Grads {
  deltas : gmap string matrix;
  drs : gmap Z matrix;
  dzh : gmap Z matrix;
  dmem : gmap Z matrix;
  dmemtilde : gmap Z matrix
}.

(** [deltas[k] += v] *)
Definition accum (k : string) (v : matrix) (d : gmap string matrix)
    : option (gmap string matrix) :=
  old ← d !! k; Some (<[k := Np.iadd old v]> d).

(** Lines 199-201: a zero array for every key of [params]. *)
Definition zero_deltas (params : gmap string matrix) : gmap string matrix :=
  Np.zeros_like <$> params.

(** [t < len(targets) - 1] *)
Definition not_last (targets : list matrix) (t : nat) : Prop :=
  (Z.of_nat t < Z.of_nat (length targets) - 1)%Z.

#[global] Instance not_last_dec targets t : Decision (not_last targets t).
Proof. unfold not_last. apply _. Defined.

(** The memory gradient of lines 222-228. *)
Definition dmem_next (self : NTM) (w_r_next drs_next w_w_next e_next
    mem0 dmemtilde_next : matrix) : matrix :=
  let dmem_t :=
    Np.dot w_r_next (Np.transpose (Np.reshape (M self) 1 drs_next)) in
  let W := Np.reshape (Np.rows w_w_next) 1 w_w_next in
  let E := Np.reshape (Np.rows e_next) 1 e_next in
  let WTE := Np.dot W (Np.transpose E) in
  let KEEP := Np.sub (Np.ones_like mem0) WTE in
  Np.iadd dmem_t (Np.multiply dmemtilde_next KEEP).

(** The branch [if t < len(targets) - 1: ... else: ...] of lines 217-256.
    It returns the new gradient state and, from the first arm only, the
    local variables [dzadd] and [dzerase]. *)
Definition manual_future (self : NTM) (targets : list matrix) (st : stats)
    (t : nat) (o : matrix) (g : grads)
    : option (grads * option (matrix * matrix)) :=
  let tz := Z.of_nat t in
  if decide (not_last targets t) then
    rh ← W self !! "rh"; dzh_next ← dzh g !! (tz + 1)%Z;
    let drs' := <[tz := Np.dot (Np.transpose rh) dzh_next]> (drs g) in
    w_r_next ← st_w_rs st !! (tz + 1)%Z;
    drs_next ← drs' !! (tz + 1)%Z;
    w_w_next ← st_w_ws st !! (tz + 1)%Z;
    e_next ← st_erases st !! (tz + 1)%Z;
    mem0 ← st_mems st !! 0%Z;
    dmemtilde_next ← dmemtilde g !! (tz + 1)%Z;
    let dmem_t :=
      dmem_next self w_r_next drs_next w_w_next e_next mem0 dmemtilde_next in
    let dmem' := <[tz := dmem_t]> (dmem g) in
    let dmemtilde' := <[tz := dmem_t]> (dmemtilde g) in
    mem_prev ← st_mems st !! (tz - 1)%Z;
    w_w ← st_w_ws st !! tz;
    let derase :=
      Np.dot (Np.transpose (Np.multiply dmem_t (Np.neg mem_prev))) w_w in
    e ← st_erases st !! tz;
    let dzerase := Np.multiply derase (Np.multiply e (Np.rsub 1 e)) in
    let dadd := Np.dot (Np.transpose dmem_t) w_w in
    a ← st_adds st !! tz;
    let dzadd := Np.multiply dadd (Np.rsub 1 (Np.multiply a a)) in
    d ← accum "badds" dzadd (deltas g);
    d ← accum "oadds" (Np.dot dzadd (Np.transpose o)) d;
    d ← accum "berases" dzerase d;
    d ← accum "oerases" (Np.dot dzerase (Np.transpose o)) d;
    Some ({| deltas := d; drs := drs'; dzh := dzh g;
             dmem := dmem'; dmemtilde := dmemtilde' |},
          Some (dzadd, dzerase))
  else
    r0 ← st_rs st !! 0%Z;
    mem0 ← st_mems st !! 0%Z;
    Some ({| deltas := deltas g;
             drs := <[tz := Np.zeros_like r0]> (drs g);
             dzh := dzh g;
             dmem := dmem g;
             dmemtilde := <[tz := Np.zeros_like mem0]> (dmemtilde g) |},
          None).

(** Lines 259-263: [do], with the two extra terms of the first arm.  The
    locals [dzadd] and [dzerase] exist only after that arm. *)
Definition interface_grad (targets : list matrix)
    (params : gmap string matrix) (t : nat) (dy : matrix)
    (dz : option (matrix * matrix)) : option matrix :=
  oy ← params !! "oy";
  let do := Np.dot (Np.transpose oy) dy in
  if decide (not_last targets t) then
    '(dzadd, dzerase) ← dz;
    oadds ← params !! "oadds";
    let do := Np.iadd do (Np.dot (Np.transpose oadds) dzadd) in
    oerases ← params !! "oerases";
    Some (Np.iadd do (Np.dot (Np.transpose oerases) dzerase))
  else Some do.

(** The body of the loop of [manual_grads] at timestep [t]
    (lines 211-281). *)
Definition manual_step (self : NTM) (targets : list matrix)
    (params : gmap string matrix) (st : stats) (t : nat) (g : grads)
    : option grads :=
  let tz := Z.of_nat t in
  p ← st_ps st !! tz;
  tgt ← targets !! t;
  let dy := Np.isub p (Np.transpose tgt) in
  o ← st_os st !! tz;
  d ← accum "oy" (Np.dot dy (Np.transpose o)) (deltas g);
  d ← accum "by" dy d;
  '(g1, dz) ← manual_future self targets st t o
                 {| deltas := d; drs := drs g; dzh := dzh g;
                    dmem := dmem g; dmemtilde := dmemtilde g |};
  do ← interface_grad targets params t dy dz;
  let dzo := Np.multiply do (Np.rsub 1 (Np.multiply o o)) in
  h ← st_hs st !! tz;
  d ← accum "ho" (Np.dot dzo (Np.transpose h)) (deltas g1);
  d ← accum "bo" dzo d;
  ho ← params !! "ho";
  let dh := Np.dot (Np.transpose ho) dzo in
  let dzh_t := Np.multiply dh (Np.rsub 1 (Np.multiply h h)) in
  x ← st_xs st !! tz;
  d ← accum "xh" (Np.dot dzh_t (Np.transpose x)) d;
  d ← accum "bh" dzh_t d;
  r_prev ← st_rs st !! (tz - 1)%Z;
  d ← accum "rh" (Np.dot dzh_t (Np.transpose (Np.reshape (M self) 1 r_prev))) d;
  Some {| deltas := d; drs := drs g1; dzh := <[tz := dzh_t]> (dzh g1);
          dmem := dmem g1; dmemtilde := dmemtilde g1 |}.

(** [for t in reversed(xrange(len(targets)))], over the timesteps still to
    run. *)
Fixpoint manual_loop (self : NTM) (targets : list matrix)
    (params : gmap string matrix) (st : stats) (steps : list nat) (g : grads)
    : option grads :=
  match steps with
  | [] => Some g
  | t :: steps' =>
      g' ← manual_step self targets params st t g;
      manual_loop self targets params st steps' g'
  end.

(** [manual_grads] with its local dictionaries still in hand. *)
Definition manual_grads_state (self : NTM) (targets : list matrix)
    (params : gmap string matrix) : option grads :=
  st ← self_stats self;
  manual_loop self targets params st (reverse (seq 0 (length targets)))
    {| deltas := zero_deltas params;
       drs := ∅; dzh := ∅; dmem := ∅; dmemtilde := ∅ |}.

(** [manual_grads(params)] *)
Definition manual_grads (self : NTM) (targets : list matrix)
    (params : gmap string matrix) : option (gmap string matrix) :=
  deltas <$> manual_grads_state self targets params.

(** ** Gradient verification and [lossFun] *)

(** What a [print] statement writes: its items, in order. *)
Inductive pitem :=
| PStr (s : string)
| PArr (a : matrix).

(** A call either returns or leaves through [sys.exit]. *)
Inductive outcome (A : Type) :=
| Return (a : A)
| SysExit (code : Z).
Arguments Return {A} a.
Arguments SysExit {A} code.

(** The tuple returned by [lossFun]. *)
Record result := Result {
  r_loss : ndarray;
  r_deltas : gmap string matrix;
  r_ps : gmap Z matrix;
  r_w_rs : gmap Z matrix;
  r_w_ws : gmap Z matrix;
  r_adds : gmap Z matrix;
  r_erases : gmap Z matrix
}.

Definition set_stats (self : NTM) (st : stats) : NTM :=
  {| N := N self; M := M self; out_size := out_size self;
     vec_size := vec_size self; self_stats := Some st; W := W self |}.

Section Verifier.

(** [autograd.grad]: the oracle, which maps a scalar function of the
    parameter collection to its gradient collection. *)
Variable grad : (gmap string matrix → option R) →
                gmap string matrix → option (gmap string matrix).

(** [util.compare_deltas(baseline, candidate)]: the tolerance test. *)
Variable compare_deltas : matrix → matrix → bool.

(** What the verification loop has printed and collected so far. *)
Record report := Report {
  printed : list (list pitem);
  failed_keys : list string;
  passed_keys : list string
}.

(** The body of [for k in auto_deltas.keys()] (lines 299-308). *)
Definition compare_key (deltas : gmap string matrix)
    (kv : string * matrix) (r : report) : option report :=
  let k := kv.1 in
  let baseline := kv.2 in
  candidate ← deltas !! k;
  if compare_deltas baseline candidate then
    Some {| printed := printed r;
            failed_keys := failed_keys r;
            passed_keys := passed_keys r ++ [k] |}
  else
    Some {| printed := printed r ++
              [ [PStr "compare deltas FAILED for key:"; PStr k];
                [PStr "baseline"]; [PArr baseline];
                [PStr "candidate"]; [PArr candidate] ];
            failed_keys := failed_keys r ++ [k];
            passed_keys := passed_keys r |}.

Fixpoint compare_loop (deltas : gmap string matrix)
    (kvs : list (string * matrix)) (r : report) : option report :=
  match kvs with
  | [] => Some r
  | kv :: kvs' =>
      r' ← compare_key deltas kv r;
      compare_loop deltas kvs' r'
  end.

(** Lines 309-315: the summary printed before [sys.exit(1)]. *)
Definition summary (r : report) : list (list pitem) :=
  [PStr "FAILED KEYS:"] :: map (λ k, [PStr k]) (failed_keys r) ++
  [PStr "PASSED KEYS:"] :: map (λ k, [PStr k]) (passed_keys r).

(** [f = grad(fprop); f(params)]: the oracle differentiates [fprop]; its
    run of [fprop] leaves the trace in [self.stats]. *)
Definition auto_grads (self : NTM) (inputs targets : list matrix)
    (params : gmap string matrix) : option (NTM * gmap string matrix) :=
  '(_, st) ← fprop self inputs targets params;
  auto_deltas ← grad (λ p, fst <$> fprop self inputs targets p) params;
  Some (set_stats self st, auto_deltas).

(** [bprop(params, manual_grad)]: the object after the call, the lines
    printed, and the gradient collection returned unless the call left
    through [sys.exit(1)]. *)
Definition bprop (self : NTM) (inputs targets : list matrix)
    (params : gmap string matrix) (manual_grad : bool)
    : option (NTM * list (list pitem) * outcome (gmap string matrix)) :=
  if manual_grad then
    '(_, st) ← fprop self inputs targets params;
    let self1 := set_stats self st in
    deltas ← manual_grads self1 targets params;
    '(self2, auto_deltas) ← auto_grads self1 inputs targets params;
    r ← compare_loop deltas (map_to_list auto_deltas) (Report [] [] []);
    if decide (0 < length (failed_keys r))%nat then
      Some (self2, printed r ++ summary r, SysExit 1)
    else
      Some (self2, printed r, Return deltas)
  else
    '(self1, deltas) ← auto_grads self inputs targets params;
    Some (self1, [], Return deltas).

(** [lossFun(inputs, targets, manual_grad)] *)
Definition lossFun (self : NTM) (inputs targets : list matrix)
    (manual_grad : bool)
    : option (NTM * list (list pitem) * outcome result) :=
  '(self', out, r) ← bprop self inputs targets (W self) manual_grad;
  match r with
  | SysExit code => Some (self', out, SysExit code)
  | Return deltas =>
      st ← self_stats self';
      Some (self', out,
            Return {| r_loss := st_loss st; r_deltas := deltas;
                      r_ps := st_ps st; r_w_rs := st_w_rs st;
                      r_w_ws := st_w_ws st; r_adds := st_adds st;
                      r_erases := st_erases st |})
  end.

End Verifier.

(** ** Well-formed calls *)

(** The keys that the loop of [fprop] reads from its argument. *)
Definition step_keys : list string :=
  [ "rh"; "xh"; "bh"; "ho"; "bo";
    "ok_r"; "bk_r"; "obeta_r"; "bbeta_r"; "og_r"; "bg_r"; "os_r"; "bs_r";
    "ogamma_r"; "bgamma_r";
    "ok_w"; "bk_w"; "obeta_w"; "bbeta_w"; "og_w"; "bg_w"; "os_w"; "bs_w";
    "ogamma_w"; "bgamma_w";
    "oadds"; "badds"; "oerases"; "berases"; "oy"; "by" ].

(** The keys of the initial conditions, read from [self.W]. *)
Definition init_keys : list string :=
  [ "rsInit"; "w_wsInit"; "w_rsInit"; "memsInit" ].

(** Every key of [keys] is bound in the collection. *)
Definition has_keys (keys : list string) (params : gmap string matrix) : Prop :=
  Forall (λ k, is_Some (params !! k)) keys.

#[global] Instance has_keys_dec keys params : Decision (has_keys keys params).
Proof. unfold has_keys. apply _. Defined.

(** ** Traces *)

(** Two traces that agree on every key below [z]. *)
Definition agree_below (z : Z) (s1 s2 : stats) : Prop :=
  ∀ k : Z, (k < z)%Z →
    st_mems s1 !! k = st_mems s2 !! k ∧ st_ps s1 !! k = st_ps s2 !! k ∧
    st_ys s1 !! k = st_ys s2 !! k ∧ st_os s1 !! k = st_os s2 !! k ∧
    st_zos s1 !! k = st_zos s2 !! k ∧ st_hs s1 !! k = st_hs s2 !! k ∧
    st_zhs s1 !! k = st_zhs s2 !! k ∧ st_xs s1 !! k = st_xs s2 !! k ∧
    st_rs s1 !! k = st_rs s2 !! k ∧ st_w_rs s1 !! k = st_w_rs s2 !! k ∧
    st_w_ws s1 !! k = st_w_ws s2 !! k ∧ st_adds s1 !! k = st_adds s2 !! k ∧
    st_erases s1 !! k = st_erases s2 !! k.

(** The trace holds, at key [t], what the frame [f] computed. *)
Definition recorded (t : nat) (f : frame) (st : stats) : Prop :=
  let tz := Z.of_nat t in
  st_mems st !! tz = Some (f_mem f) ∧ st_ps st !! tz = Some (f_p f) ∧
  st_ys st !! tz = Some (f_y f) ∧ st_os st !! tz = Some (f_o f) ∧
  st_zos st !! tz = Some (f_zo f) ∧ st_hs st !! tz = Some (f_h f) ∧
  st_zhs st !! tz = Some (f_zh f) ∧ st_xs st !! tz = Some (f_x f) ∧
  st_rs st !! tz = Some (f_r f) ∧ st_w_rs st !! tz = Some (f_w_r f) ∧
  st_w_ws st !! tz = Some (f_w_w f) ∧ st_adds st !! tz = Some (f_add f) ∧
  st_erases st !! tz = Some (f_erase f).

(** The four dictionaries with initial conditions are bound at [z]. *)
Definition bound_at (z : Z) (st : stats) : Prop :=
  is_Some (st_rs st !! z) ∧ is_Some (st_w_ws st !! z) ∧
  is_Some (st_w_rs st !! z) ∧ is_Some (st_mems st !! z).

(** ** The probability simplex *)

(** The entries are non-negative and sum to one. *)
Definition distribution (v : vector) : Prop :=
  Forall (λ x, 0 <= x) v ∧ Np.vsum v = 1.

(** A weighting over [n] locations: an [n x 1] column on the simplex. *)
Definition simplex (n : nat) (w : matrix) : Prop :=
  Np.has_shape n 1 w ∧ Forall (Forall (λ x, 0 <= x)) w ∧ Np.sum w = 1.

(** ** Shapes of a well-formed call *)

(** The shapes that the constructor gives to the parameters
    (lines 30-86), for the sizes [in_size] and [hidden_size] of its
    arguments. *)
Definition init_shapes (in_size hidden_size out_size N M : nat)
    : list (string * (nat * nat)) :=
  [ ("xh", (hidden_size, in_size)); ("ho", (hidden_size, hidden_size));
    ("oy", (out_size, hidden_size)); ("bh", (hidden_size, 1%nat));
    ("by", (out_size, 1%nat)); ("bo", (hidden_size, 1%nat));
    ("rh", (hidden_size, M));
    ("ok_r", (M, hidden_size)); ("ok_w", (M, hidden_size));
    ("obeta_r", (1%nat, hidden_size)); ("obeta_w", (1%nat, hidden_size));
    ("og_r", (1%nat, hidden_size)); ("og_w", (1%nat, hidden_size));
    ("os_r", (shift_width N, hidden_size));
    ("os_w", (shift_width N, hidden_size));
    ("ogamma_r", (1%nat, hidden_size)); ("ogamma_w", (1%nat, hidden_size));
    ("oadds", (M, hidden_size)); ("oerases", (M, hidden_size));
    ("bk_r", (M, 1%nat)); ("bk_w", (M, 1%nat));
    ("bbeta_r", (1%nat, 1%nat)); ("bbeta_w", (1%nat, 1%nat));
    ("bg_r", (1%nat, 1%nat)); ("bg_w", (1%nat, 1%nat));
    ("bs_r", (shift_width N, 1%nat)); ("bs_w", (shift_width N, 1%nat));
    ("bgamma_r", (1%nat, 1%nat)); ("bgamma_w", (1%nat, 1%nat));
    ("badds", (M, 1%nat)); ("berases", (M, 1%nat));
    ("rsInit", (M, 1%nat)); ("w_wsInit", (N, 1%nat));
    ("w_rsInit", (N, 1%nat)); ("memsInit", (N, M)) ].

(** The collection binds the key to an array of the given shape. *)
Definition shaped_key (params : gmap string matrix)
    (ks : string * (nat * nat)) : Prop :=
  from_option (Np.has_shape ks.2.1 ks.2.2) False (params !! ks.1).

#[global] Instance has_shape_dec r c a : Decision (Np.has_shape r c a).
Proof. unfold Np.has_shape. apply _. Defined.

#[global] Instance shaped_key_dec params ks : Decision (shaped_key params ks).
Proof. unfold shaped_key. destruct (params !! ks.1); simpl; apply _. Defined.

(** A parameter collection as the constructor builds it. *)
Definition shaped (self : NTM) (in_size hidden_size : nat)
    (params : gmap string matrix) : Prop :=
  Forall (shaped_key params)
    (init_shapes in_size hidden_size (out_size self) (N self) (M self)).

(** A call of [lossFun] on a model and sequences of conformant shapes:
    one input row and one target row per timestep, and no size is zero. *)
Record well_formed (self : NTM) (in_size hidden_size : nat)
    (inputs targets : list matrix) (params : gmap string matrix) : Prop := {
  wf_in_size : (0 < in_size)%nat;
  wf_hidden_size : (0 < hidden_size)%nat;
  wf_out_size : (0 < out_size self)%nat;
  wf_N : (0 < N self)%nat;
  wf_M : (0 < M self)%nat;
  wf_self : shaped self in_size hidden_size (W self);
  wf_params : shaped self in_size hidden_size params;
  wf_inputs : Forall (Np.has_shape 1 in_size) inputs;
  wf_targets : Forall (Np.has_shape 1 (out_size self)) targets;
  wf_length : length inputs = length targets
}.

(** The entries of the trace at the key [z] that the next iteration
    reads: the read vector, the two weightings and the memory. *)
Definition shaped_at (self : NTM) (z : Z) (st : stats) : Prop :=
  from_option (Np.has_shape (M self) 1) False (st_rs st !! z) ∧
  from_option (simplex (N self)) False (st_w_ws st !! z) ∧
  from_option (simplex (N self)) False (st_w_rs st !! z) ∧
  from_option (Np.has_shape (N self) (M self)) False (st_mems st !! z).

(** The shapes of what one iteration computes. *)
Definition frame_shaped (self : NTM) (hidden_size : nat) (f : frame) : Prop :=
  Np.has_shape hidden_size 1 (f_o f) ∧
  Np.has_shape (out_size self) 1 (f_y f) ∧
  Np.has_shape (out_size self) 1 (f_ts f) ∧
  Np.has_shape (M self) 1 (f_add f) ∧
  Np.has_shape (M self) 1 (f_erase f) ∧
  Np.has_shape (M self) 1 (f_r f) ∧
  simplex (N self) (f_w_w f) ∧
  simplex (N self) (f_w_r f) ∧
  Np.has_shape (N self) (M self) (f_mem f).

(** ** The loss of the spec *)

(** The binary cross-entropy of one output bit with the target [target]
    and the probability [p] (section 4.3, step 6). *)
Definition bce (target p : R) : R :=
  - (target * ln (p + epsilon) + (1 - target) * ln (1 - p + epsilon)).


(** ** A small model *)

(** A model with one input, one hidden unit, one output, two memory
    locations of width one, and the parameters of the constructor's
    shapes. *)
Definition ex_W : gmap string matrix :=
  list_to_map
    [ ("xh", [[1]]); ("ho", [[1]]); ("oy", [[1]]);
      ("bh", [[0]]); ("by", [[0]]); ("bo", [[0]]);
      ("rh", [[1]]);
      ("ok_r", [[1]]); ("ok_w", [[1]]);
      ("obeta_r", [[1]]); ("obeta_w", [[1]]);
      ("og_r", [[1]]); ("og_w", [[1]]);
      ("os_r", [[1]; [0]]); ("os_w", [[0]; [1]]);
      ("ogamma_r", [[1]]); ("ogamma_w", [[1]]);
      ("oadds", [[1]]); ("oerases", [[1]]);
      ("bk_r", [[0]]); ("bk_w", [[0]]);
      ("bbeta_r", [[0]]); ("bbeta_w", [[0]]);
      ("bg_r", [[0]]); ("bg_w", [[0]]);
      ("bs_r", [[0]; [0]]); ("bs_w", [[0]; [0]]);
      ("bgamma_r", [[0]]); ("bgamma_w", [[0]]);
      ("badds", [[0]]); ("berases", [[0]]);
      ("rsInit", [[1]]); ("w_wsInit", [[0]; [0]]);
      ("w_rsInit", [[0]; [0]]); ("memsInit", [[1]; [-1]]) ].

Definition ex_self : NTM :=
  {| N := 2; M := 1; out_size := 1; vec_size := 1;
     self_stats := None; W := ex_W |}.

(** Two timesteps. *)
Definition ex_inputs : list matrix := [ [[1]]; [[0]] ].
Definition ex_targets : list matrix := [ [[1]]; [[0]] ].

(** The trace [st] with another dictionary of read vectors. *)
Definition with_rs (rs : gmap Z matrix) (st : stats) : stats :=
  {| st_loss := st_loss st; st_mems := st_mems st; st_ps := st_ps st;
     st_ys := st_ys st; st_os := st_os st; st_zos := st_zos st;
     st_hs := st_hs st; st_zhs := st_zhs st; st_xs := st_xs st;
     st_rs := rs; st_w_rs := st_w_rs st; st_w_ws := st_w_ws st;
     st_adds := st_adds st; st_erases := st_erases st |}.

(** ** The keys of the backward pass *)

(** The keys into which [manual_grads] accumulates at every timestep. *)
Definition every_step_keys : list string :=
  [ "oy"; "by"; "ho"; "bo"; "xh"; "bh"; "rh" ].

(** The keys into which it accumulates in the arm [t < len(targets) - 1]. *)
Definition erase_add_keys : list string :=
  [ "badds"; "oadds"; "berases"; "oerases" ].

(** The trace binds every dictionary at the timesteps below [T] and the
    initial conditions at [-1], as [fprop] leaves it. *)
Definition traced (T : nat) (st : stats) : Prop :=
  bound_at (-1) st ∧ ∀ t, (t < T)%nat → ∃ f, recorded t f st.

(** Two gradient states that agree on the dictionaries above [z]. *)
Definition agree_above (z : Z) (g1 g2 : grads) : Prop :=
  ∀ k : Z, (z < k)%Z →
    drs g1 !! k = drs g2 !! k ∧ dzh g1 !! k = dzh g2 !! k ∧
    dmem g1 !! k = dmem g2 !! k ∧ dmemtilde g1 !! k = dmemtilde g2 !! k.

(** The dictionaries read by the arm [t < len(targets) - 1] are bound
    at [z]. *)
Definition grads_bound_at (z : Z) (g : grads) : Prop :=
  is_Some (drs g !! z) ∧ is_Some (dzh g !! z) ∧ is_Some (dmemtilde g !! z).

(** The collection [d'] binds the keys of [d], to arrays of the same
    shapes. *)
Definition same_shapes (d d' : gmap string matrix) : Prop :=
  ∀ k, match d !! k, d' !! k with
       | Some a, Some a' => ∀ r c, Np.has_shape r c a → Np.has_shape r c a'
       | None, None => True
       | _, _ => False
       end.

(** The boundary condition of the backward pass at timestep [t]: zeros of
    the shapes of [rs[0]] and [mems[0]]. *)
Definition terminal_zeros (st : stats) (g : grads) (t : nat) : Prop :=
  ∃ r0 mem0,
    st_rs st !! 0%Z = Some r0 ∧ st_mems st !! 0%Z = Some mem0 ∧
    drs g !! Z.of_nat t = Some (Np.zeros_like r0) ∧
    dmemtilde g !! Z.of_nat t = Some (Np.zeros_like mem0).

(** The recurrence of the memory gradient at timestep [t], on the entries
    of the trace and of the gradient state at [t + 1]. *)
Definition memory_recurrence (self : NTM) (st : stats) (g : grads) (t : nat)
    : Prop :=
  ∃ w_r_next drs_next w_w_next e_next mem0 dmemtilde_next,
    st_w_rs st !! (Z.of_nat t + 1)%Z = Some w_r_next ∧
    drs g !! (Z.of_nat t + 1)%Z = Some drs_next ∧
    st_w_ws st !! (Z.of_nat t + 1)%Z = Some w_w_next ∧
    st_erases st !! (Z.of_nat t + 1)%Z = Some e_next ∧
    st_mems st !! 0%Z = Some mem0 ∧
    dmemtilde g !! (Z.of_nat t + 1)%Z = Some dmemtilde_next ∧
    dmem g !! Z.of_nat t =
      Some (dmem_next self w_r_next drs_next w_w_next e_next mem0
              dmemtilde_next) ∧
    dmemtilde g !! Z.of_nat t = dmem g !! Z.of_nat t.

(** ** The verifier's verdict *)

(** Lines 301-305: what is printed for a key whose comparison fails. *)
Definition key_report (k : string) (baseline candidate : matrix)
    : list (list pitem) :=
  [ [PStr "compare deltas FAILED for key:"; PStr k];
    [PStr "baseline"]; [PArr baseline];
    [PStr "candidate"]; [PArr candidate] ].

(** The comparison of the loop fails for the key of [kv]. *)
Definition mismatch (compare_deltas : matrix → matrix → bool)
    (deltas : gmap string matrix) (kv : string * matrix) : bool :=
  match deltas !! kv.1 with
  | Some candidate => negb (compare_deltas kv.2 candidate)
  | None => false
  end.

(** What the loop prints for the key of [kv]. *)
Definition report_of (compare_deltas : matrix → matrix → bool)
    (deltas : gmap string matrix) (kv : string * matrix)
    : list (list pitem) :=
  match deltas !! kv.1 with
  | Some candidate =>
      if compare_deltas kv.2 candidate then []
      else key_report kv.1 kv.2 candidate
  | None => []
  end.

(** The oracle answers every query, with one array per key. *)
Definition oracle_total
    (grad : (gmap string matrix → option R) →
            gmap string matrix → option (gmap string matrix)) : Prop :=
  ∀ f params, ∃ G, grad f params = Some G ∧ dom G = dom params.

(** ** A reference oracle *)

From Stdlib Require Epsilon.

Module Autograd.

(** Modelled from the spec: the automatic-differentiation oracle is not
    part of the sources; section 1: "given a scalar-valued function of a
    parameter collection, it returns the gradient of that function with
    respect to each parameter".  The gradient is taken entry by entry, as
    the derivative of the function in that entry. *)
Definition derivative (f : R → R) (x : R) : R :=
  Epsilon.epsilon (inhabits 0) (λ l, derivable_pt_lim f x l).

Definition entry (a : matrix) (i j : nat) : R := nth j (nth i a []) 0.

Definition set_entry (a : matrix) (i j : nat) (x : R) : matrix :=
  <[i := <[j := x]> (nth i a [])]> a.

(** Modelled from the spec: the partial derivative of [f] in the entry
    [(i, j)] of the array bound to [k]. *)
Definition partial (f : gmap string matrix → option R)
    (params : gmap string matrix) (k : string) (a : matrix) (i j : nat) : R :=
  derivative (λ x, default 0 (f (<[k := set_entry a i j x]> params)))
             (entry a i j).

(** Modelled from the spec: [grad(f)(params)]. *)
Definition grad (f : gmap string matrix → option R)
    (params : gmap string matrix) : option (gmap string matrix) :=
  Some (map_imap
          (λ k a, Some (imap (λ i row, imap (λ j _, partial f params k a i j) row) a))
          params).

End Autograd.

(** Modelled from the spec: [util.compare_deltas] is not part of the
    sources; section 4.5: "an element-wise/near-equality tolerance test".
    Two arrays pass when they have one shape and every pair of entries
    differs by at most [tol]. *)
Definition close (tol x y : R) : bool :=
  if Rle_dec (Rabs (x - y)) tol then true else false.

Fixpoint all2 {A} (p : A → A → bool) (u v : list A) : bool :=
  match u, v with
  | [], [] => true
  | x :: u', y :: v' => p x y && all2 p u' v'
  | _, _ => false
  end.

Definition compare_deltas_tol (tol : R) (baseline candidate : matrix) : bool :=
  all2 (all2 (close tol)) baseline candidate.

(** ** A model on which the two gradients differ *)

(** One input, one hidden unit, one output, one memory location of width
    one; every parameter is zero but the output bias ['by'], so that the
    output logit is that bias. *)
Definition cx_W : gmap string matrix :=
  list_to_map
    [ ("xh", [[0]]); ("ho", [[0]]); ("oy", [[0]]);
      ("bh", [[0]]); ("by", [[-32]]); ("bo", [[0]]);
      ("rh", [[0]]);
      ("ok_r", [[0]]); ("ok_w", [[0]]);
      ("obeta_r", [[0]]); ("obeta_w", [[0]]);
      ("og_r", [[0]]); ("og_w", [[0]]);
      ("os_r", [[0]]); ("os_w", [[0]]);
      ("ogamma_r", [[0]]); ("ogamma_w", [[0]]);
      ("oadds", [[0]]); ("oerases", [[0]]);
      ("bk_r", [[0]]); ("bk_w", [[0]]);
      ("bbeta_r", [[0]]); ("bbeta_w", [[0]]);
      ("bg_r", [[0]]); ("bg_w", [[0]]);
      ("bs_r", [[0]]); ("bs_w", [[0]]);
      ("bgamma_r", [[0]]); ("bgamma_w", [[0]]);
      ("badds", [[0]]); ("berases", [[0]]);
      ("rsInit", [[0]]); ("w_wsInit", [[0]]);
      ("w_rsInit", [[0]]); ("memsInit", [[0]]) ].

Definition cx_self : NTM :=
  {| N := 1; M := 1; out_size := 1; vec_size := 1;
     self_stats := None; W := cx_W |}.

(** One timestep, with the target bit one. *)
Definition cx_inputs : list matrix := [ [[0]] ].
Definition cx_targets : list matrix := [ [[1]] ].

(** ** Further definitions for the properties of the whole call *)

(** The keys of the parameters of the two addressing heads. *)
Definition head_keys : list string :=
  [ "ok_r"; "bk_r"; "obeta_r"; "bbeta_r"; "og_r"; "bg_r"; "os_r"; "bs_r";
    "ogamma_r"; "bgamma_r";
    "ok_w"; "bk_w"; "obeta_w"; "bbeta_w"; "og_w"; "bg_w"; "os_w"; "bs_w";
    "ogamma_w"; "bgamma_w" ].

(** The dictionary binds exactly the keys [lo .. T - 1]. *)
Definition keys_between (lo : Z) (T : nat) (m : gmap Z matrix) : Prop :=
  ∀ z : Z, is_Some (m !! z) ↔ (lo <= z < Z.of_nat T)%Z.

(** The keys of the trace after [T] iterations: the four dictionaries with
    an initial condition start at [-1], the others at [0]. *)
Definition trace_keys (T : nat) (st : stats) : Prop :=
  keys_between (-1) T (st_mems st) ∧ keys_between (-1) T (st_rs st) ∧
  keys_between (-1) T (st_w_rs st) ∧ keys_between (-1) T (st_w_ws st) ∧
  keys_between 0 T (st_ps st) ∧ keys_between 0 T (st_ys st) ∧
  keys_between 0 T (st_os st) ∧ keys_between 0 T (st_zos st) ∧
  keys_between 0 T (st_hs st) ∧ keys_between 0 T (st_zhs st) ∧
  keys_between 0 T (st_xs st) ∧ keys_between 0 T (st_adds st) ∧
  keys_between 0 T (st_erases st).


(** Two traces with the same thirteen dictionaries; the accumulated
    losses may differ. *)
Definition same_dictionaries (s1 s2 : stats) : Prop :=
  st_mems s1 = st_mems s2 ∧ st_ps s1 = st_ps s2 ∧ st_ys s1 = st_ys s2 ∧
  st_os s1 = st_os s2 ∧ st_zos s1 = st_zos s2 ∧ st_hs s1 = st_hs s2 ∧
  st_zhs s1 = st_zhs s2 ∧ st_xs s1 = st_xs s2 ∧ st_rs s1 = st_rs s2 ∧
  st_w_rs s1 = st_w_rs s2 ∧ st_w_ws s1 = st_w_ws s2 ∧
  st_adds s1 = st_adds s2 ∧ st_erases s1 = st_erases s2.

(** The dictionary binds exactly the keys [lo .. hi - 1]. *)
Definition keys_from (lo hi : nat) (m : gmap Z matrix) : Prop :=
  ∀ z : Z, is_Some (m !! z) ↔ (Z.of_nat lo <= z < Z.of_nat hi)%Z.



(** ** The constructor *)

Section Constructor.

(** The random draws of the constructor.  [rando i rows cols] is what the
    [i]-th call of [rando] returns for the sizes [rows] and [cols];
    [uniform rows cols] is the draw of [np.random.uniform(-1, 1, ...)]
    and [randn i rows cols] that of the [i]-th call of
    [np.random.randn]. *)
Variable rando : nat → nat → nat → matrix.
Variable uniform : nat → nat → matrix.
Variable randn : nat → nat → nat → matrix.

(** The assignments [self.W[key] = value] of lines 30-86, in the order of
    the code. *)
Definition init_assignments (in_size out_size hidden_size N M : nat)
    : list (string * matrix) :=
  let shift_width := Nat.min 3 N in
  [ ("xh", rando 0 hidden_size in_size);
    ("ho", rando 1 hidden_size hidden_size);
    ("oy", rando 2 out_size hidden_size);
    ("bh", rando 3 hidden_size 1);
    ("by", rando 4 out_size 1);
    ("bo", rando 5 hidden_size 1);
    ("rh", rando 6 hidden_size M);
    ("ok_r", rando 7 M hidden_size);
    ("ok_w", rando 8 M hidden_size);
    ("obeta_r", rando 9 1 hidden_size);
    ("obeta_w", rando 10 1 hidden_size);
    ("og_r", rando 11 1 hidden_size);
    ("og_w", rando 12 1 hidden_size);
    ("os_r", rando 13 shift_width hidden_size);
    ("os_w", rando 14 shift_width hidden_size);
    ("ogamma_r", rando 15 1 hidden_size);
    ("ogamma_w", rando 16 1 hidden_size);
    ("oadds", rando 17 M hidden_size);
    ("oerases", rando 18 M hidden_size);
    ("bk_r", rando 19 M 1);
    ("bk_w", rando 20 M 1);
    ("bbeta_r", rando 21 1 1);
    ("bbeta_w", rando 22 1 1);
    ("bg_r", rando 23 1 1);
    ("bg_w", rando 24 1 1);
    ("bs_r", rando 25 shift_width 1);
    ("bs_w", rando 26 shift_width 1);
    ("bgamma_r", rando 27 1 1);
    ("bgamma_w", rando 28 1 1);
    ("badds", rando 29 M 1);
    ("berases", rando 30 M 1);
    ("rsInit", uniform M 1);
    ("w_wsInit", Np.map1 (λ x, x * / 100) (randn 0 N 1));
    ("w_rsInit", Np.map1 (λ x, x * / 100) (randn 1 N 1));
    ("memsInit", Np.map1 (λ x, x * / 100) (randn 2 N M)) ].

(** [self.W[key] = value] *)
Definition assign (W : gmap string matrix) (kv : string * matrix)
    : gmap string matrix :=
  <[kv.1 := kv.2]> W.

(** [NTM.__init__] (lines 17-86): the sizes are stored, [self.stats] is
    [None], and [self.W] starts empty and takes the assignments. *)
Definition init (in_size out_size hidden_size N M vec_size : nat) : NTM :=
  {| N := N; M := M; out_size := out_size; vec_size := vec_size;
     self_stats := None;
     W := foldl assign ∅ (init_assignments in_size out_size hidden_size N M) |}.

End Constructor.

(** Every draw has the shape that was asked for. *)
Definition draws_shaped (rando : nat → nat → nat → matrix)
    (uniform : nat → nat → matrix) (randn : nat → nat → nat → matrix)
    : Prop :=
  (∀ i r c, Np.has_shape r c (rando i r c)) ∧
  (∀ r c, Np.has_shape r c (uniform r c)) ∧
  (∀ i r c, Np.has_shape r c (randn i r c)).

(** The draws that are all zero. *)
Definition zero_draw (r c : nat) : matrix := replicate r (replicate c 0).

(** ** A longer sequence for the small model *)

(** Three timesteps, so that the first one has a successor that is not
    the last. *)
Definition ex_inputs3 : list matrix := [ [[1]]; [[0]]; [[1]] ].
Definition ex_targets3 : list matrix := [ [[1]]; [[0]]; [[1]] ].

(** [a[i, j]], the entry of a two-dimensional array. *)
Definition item_at (a : matrix) (i j : nat) : R := nth j (nth i a []) 0.

(** The entries of the dictionaries [drs], [dzh] and [dmemtilde] at the
    key [k] have the shapes of a read vector, of the hidden layer and of
    the memory. *)
Definition grads_shaped (self : NTM) (hidden_size : nat) (g : grads) (k : nat)
    : Prop :=
  (∀ a, drs g !! Z.of_nat k = Some a → Np.has_shape (M self) 1 a) ∧
  (∀ a, dzh g !! Z.of_nat k = Some a → Np.has_shape hidden_size 1 a) ∧
  (∀ a, dmemtilde g !! Z.of_nat k = Some a →
     Np.has_shape (N self) (M self) a).

(** The keys of the constructor's assignments, in the order of the
    code. *)
Definition step_keys_of_init : list string :=
  [ "xh"; "ho"; "oy"; "bh"; "by"; "bo"; "rh"; "ok_r"; "ok_w";
    "obeta_r"; "obeta_w"; "og_r"; "og_w"; "os_r"; "os_w";
    "ogamma_r"; "ogamma_w"; "oadds"; "oerases"; "bk_r"; "bk_w";
    "bbeta_r"; "bbeta_w"; "bg_r"; "bg_w"; "bs_r"; "bs_w";
    "bgamma_r"; "bgamma_w"; "badds"; "berases";
    "rsInit"; "w_wsInit"; "w_rsInit"; "memsInit" ].


(** * Shapes *)

Section Shapes.
Import Np.

Lemma has_shape_rows r c a : has_shape r c a → length a = r.
Proof. by intros [? _]. Qed.

Lemma has_shape_cols r c a : has_shape r c a → (0 < r)%nat → cols a = c.
Proof.
  intros [Hr Hc] Hpos. unfold cols. destruct a as [|row a]; simpl in *; [lia|].
  by inversion Hc.
Qed.

Lemma has_shape_map1 f r c a : has_shape r c a → has_shape r c (map1 f a).
Proof.
  intros [Hr Hc]. split; unfold map1; [by rewrite length_map|].
  rewrite Forall_map. eapply Forall_impl; [exact Hc|].
  intros row Hrow; simpl. by rewrite length_map.
Qed.

Lemma has_shape_map2 f r c a b :
  has_shape r c a → has_shape r c b → has_shape r c (map2 f a b).
Proof.
  intros [Hra Hca] [Hrb Hcb]. unfold map2. split.
  - rewrite length_zip_with. lia.
  - clear Hra Hrb. revert b Hcb.
    induction Hca as [|x a Hx Ha IH]; intros [|y b] Hb; simpl; try constructor.
    + inversion Hb; subst. rewrite length_zip_with. lia.
    + inversion Hb; subst. by apply IH.
Qed.

Lemma has_shape_inplace f r c a b :
  has_shape r c a → has_shape r c (inplace f a b).
Proof.
  intros [Hr Hc]. split.
  - rewrite <- Hr. clear. revert b.
    induction a as [|x a IH]; intros [|y b]; simpl; auto.
  - clear Hr. revert b.
    induction Hc as [|x a Hx Ha IH]; intros [|y b]; simpl; try by constructor.
    constructor; [|apply IH].
    rewrite <- Hx. clear. revert y.
    induction x as [|u x IH]; intros [|v y]; simpl; auto.
Qed.

Lemma length_transpose a : length (transpose a) = cols a.
Proof. unfold transpose. by rewrite length_map, length_seq. Qed.

Lemma has_shape_transpose r c a :
  has_shape r c a → (0 < r)%nat → has_shape c r (transpose a).
Proof.
  intros Ha Hpos. split.
  - rewrite length_transpose. by eapply has_shape_cols.
  - unfold transpose. rewrite Forall_map. apply Forall_forall.
    intros j _. unfold column. rewrite length_map. by destruct Ha.
Qed.

Lemma has_shape_dot r k c a b :
  length a = r → has_shape k c b → (0 < k)%nat → has_shape r c (dot a b).
Proof.
  intros Hr Hb Hk. unfold dot. split; [by rewrite length_map|].
  rewrite Forall_map. apply Forall_forall. intros row _.
  rewrite length_map, length_transpose. by eapply has_shape_cols.
Qed.

Lemma length_concat_shape r c (a : matrix) :
  has_shape r c a → length (concat a) = (r * c)%nat.
Proof.
  intros [Hr Hc]. subst r.
  induction Hc as [|x a Hx Ha IH]; simpl; [done|].
  rewrite length_app. lia.
Qed.

Lemma has_shape_reshape r c (a : matrix) :
  length (concat a) = (r * c)%nat → has_shape r c (reshape r c a).
Proof.
  intros Hlen. unfold reshape. split; [by rewrite length_map, length_seq|].
  rewrite Forall_map. apply Forall_forall. intros i Hi.
  apply elem_of_seq in Hi. rewrite length_take, length_drop. nia.
Qed.

Lemma has_shape_reshape_rev n (a : matrix) :
  has_shape 1 n a → has_shape n 1 (reshape_rev a).
Proof.
  intros Ha. unfold reshape_rev.
  rewrite (has_shape_cols 1 n a Ha ltac:(lia)).
  unfold rows. rewrite (has_shape_rows _ _ _ Ha).
  apply has_shape_reshape. rewrite (length_concat_shape _ _ _ Ha). lia.
Qed.

Lemma has_shape_read n m mem w :
  has_shape n m mem → has_shape n 1 w → (0 < n)%nat →
  has_shape m 1 (Memory.read mem w).
Proof.
  intros Hm Hw Hn. unfold Memory.read.
  eapply has_shape_dot; [|exact Hw|exact Hn].
  rewrite length_transpose. by eapply has_shape_cols.
Qed.

Lemma has_shape_write n m mem w e a :
  has_shape n m mem → has_shape n 1 w →
  has_shape m 1 e → has_shape m 1 a →
  has_shape n m (Memory.write mem w e a).
Proof.
  intros [Hr Hc] Hw He Ha. unfold Memory.write.
  apply length_concat_shape in Hw, He, Ha.
  split.
  - rewrite length_zip_with. lia.
  - apply Forall_forall. intros row Hrow.
    apply elem_of_lookup_zip_with in Hrow as (i & x & y & -> & Hx & Hy).
    rewrite length_zip_with, length_zip.
    eapply Forall_lookup_1 in Hc; [|exact Hx]. simpl in Hc. lia.
Qed.

End Shapes.

(** * The simplex and the addressing engine *)

Section Simplex.
Import Np Addressing.

Lemma vsum_app u v : vsum (u ++ v) = vsum u + vsum v.
Proof. induction u as [|x u IH]; simpl; [lra|]. rewrite IH. lra. Qed.

Lemma sum_concat (a : matrix) : Np.sum a = vsum (concat a).
Proof.
  unfold Np.sum. induction a as [|r a IH]; simpl; [done|].
  rewrite vsum_app, IH. done.
Qed.

Lemma vsum_scale c v : vsum (map (Rmult c) v) = c * vsum v.
Proof. induction v as [|x v IH]; simpl; [lra|]. rewrite IH. lra. Qed.

Lemma vsum_div c v : vsum (map (λ x, x / c) v) = vsum v / c.
Proof.
  induction v as [|x v IH]; simpl; [unfold Rdiv; lra|].
  rewrite IH. unfold Rdiv. lra.
Qed.

Lemma vsum_nonneg v : Forall (λ x, 0 <= x) v → 0 <= vsum v.
Proof. induction 1; simpl; lra. Qed.

Lemma vsum_pos v : Forall (λ x, 0 < x) v → v ≠ [] → 0 < vsum v.
Proof.
  intros H Hne. destruct H as [|x v Hx Hv]; [done|]. simpl.
  assert (0 <= vsum v); [|lra].
  apply vsum_nonneg. eapply Forall_impl; [exact Hv|]. simpl. intros; lra.
Qed.

Lemma vsum_vadd u v :
  length u = length v → vsum (vadd u v) = vsum u + vsum v.
Proof.
  revert v. induction u as [|x u IH]; intros [|y v] Hl; simpl in *;
    try lia; [lra|].
  rewrite IH by lia. lra.
Qed.

Lemma vsum_rotate k v : vsum (rotate k v) = vsum v.
Proof.
  unfold rotate. set (n := (k `mod` length v)%nat).
  transitivity (vsum (take n v ++ drop n v)); [|by rewrite take_drop].
  rewrite !vsum_app. lra.
Qed.

Lemma concat_map1 f (a : matrix) : concat (map1 f a) = map f (concat a).
Proof.
  unfold map1. induction a as [|r a IH]; simpl; [done|].
  by rewrite IH, map_app.
Qed.

(** The softmax of an array with at least one entry is a distribution. *)
Lemma softmax_distribution (a : matrix) :
  concat a ≠ [] → distribution (concat (Util.softmax a)).
Proof.
  intros Hne. unfold Util.softmax.
  rewrite concat_map1, sum_concat, concat_map1.
  set (e := map exp (concat a)).
  assert (Hpos : Forall (λ x, 0 < x) e).
  { subst e. rewrite Forall_map. apply Forall_forall. intros; apply exp_pos. }
  assert (HS : 0 < vsum e).
  { apply vsum_pos; [done|]. subst e. by destruct (concat a). }
  split.
  - rewrite Forall_map. eapply Forall_impl; [exact Hpos|]. simpl.
    intros x Hx. apply Rlt_le, Rdiv_lt_0_compat; lra.
  - rewrite vsum_div. field. lra.
Qed.

Lemma has_shape_softmax r c a :
  has_shape r c a → has_shape r c (Util.softmax a).
Proof. intros. unfold Util.softmax. by do 2 apply has_shape_map1. Qed.

Lemma length_content_focus key beta mem :
  length (content_focus key beta mem) = length mem.
Proof.
  unfold content_focus, Util.softmax.
  rewrite !concat_map1, !length_map.
  induction mem as [|r m IH]; simpl; [done|]. by rewrite IH.
Qed.

Lemma content_focus_distribution key beta mem :
  mem ≠ [] → distribution (content_focus key beta mem).
Proof.
  intros Hne. apply softmax_distribution. by destruct mem.
Qed.

Lemma interpolate_distribution g w_c w_prev :
  0 <= g <= 1 → length w_c = length w_prev →
  distribution w_c → distribution w_prev →
  distribution (interpolate g w_c w_prev).
Proof.
  intros Hg Hlen [Hc Sc] [Hp Sp]. unfold interpolate. split.
  - apply Forall_forall. intros x Hx.
    apply elem_of_lookup_zip_with in Hx as (i & c & p & -> & Hci & Hpi).
    eapply Forall_lookup_1 in Hc; [|exact Hci].
    eapply Forall_lookup_1 in Hp; [|exact Hpi]. simpl in Hc, Hp.
    destruct Hg. apply Rplus_le_le_0_compat; apply Rmult_le_pos; lra.
  - transitivity (g * vsum w_c + (1 - g) * vsum w_prev); [|rewrite Sc, Sp; lra].
    clear -Hlen. revert w_prev Hlen.
    induction w_c as [|c w_c IH]; intros [|p w_prev] Hl; simpl in *;
      try lia; [lra|].
    rewrite IH by lia. lra.
Qed.

Lemma length_interpolate g w_c w_prev :
  length w_c = length w_prev → length (interpolate g w_c w_prev) = length w_prev.
Proof. intros. unfold interpolate. rewrite length_zip_with. lia. Qed.

(** A sum of vectors of one length. *)
Lemma foldr_vadd_spec n (terms : list vector) :
  Forall (λ u, length u = n) terms →
  length (foldr vadd (replicate n 0) terms) = n ∧
  vsum (foldr vadd (replicate n 0) terms) = vsum (map vsum terms) ∧
  (Forall (Forall (λ x, 0 <= x)) terms →
   Forall (λ x, 0 <= x) (foldr vadd (replicate n 0) terms)).
Proof.
  induction 1 as [|u terms Hu Ht (IH1 & IH2 & IH3)]; simpl.
  - split; [by rewrite length_replicate|]. split.
    + induction n; simpl; lra.
    + intros _. apply Forall_replicate. lra.
  - split; [unfold vadd in *; rewrite length_zip_with; lia|]. split.
    + rewrite vsum_vadd by lia. lra.
    + intros Hnn. inversion Hnn as [|? ? Hu0 Ht0]; subst.
      specialize (IH3 Ht0). apply Forall_forall. intros x Hx.
      apply elem_of_lookup_zip_with in Hx as (i & a & b & -> & Ha & Hb).
      eapply Forall_lookup_1 in Hu0; [|exact Ha].
      eapply Forall_lookup_1 in IH3; [|exact Hb]. simpl in *. lra.
Qed.

Lemma map_const_replicate (v : vector) : map (λ _, 0) v = replicate (length v) 0.
Proof. induction v; simpl; congruence. Qed.

Lemma shift_distribution w_g s :
  distribution w_g → distribution s →
  length (shift w_g s) = length w_g ∧ distribution (shift w_g s).
Proof.
  intros [Hg Sg] [Hs Ss]. unfold shift. rewrite map_const_replicate.
  set (terms := imap (shift_term w_g) s).
  assert (Hlen : Forall (λ u, length u = length w_g) terms).
  { apply Forall_forall. intros u Hu.
    apply elem_of_lookup_imap in Hu as (j & sj & -> & _).
    unfold shift_term, vscale. by rewrite length_map, length_rotate. }
  destruct (foldr_vadd_spec _ _ Hlen) as (H1 & H2 & H3).
  split; [exact H1|]. split.
  - apply H3. apply Forall_forall. intros u Hu.
    apply elem_of_lookup_imap in Hu as (j & sj & -> & Hj).
    eapply Forall_lookup_1 in Hs; [|exact Hj]. simpl in Hs.
    unfold shift_term, vscale. rewrite Forall_map.
    apply Forall_forall. intros x Hx. apply elem_of_rotate in Hx.
    eapply Forall_forall in Hg; [|exact Hx]. simpl in *. nra.
  - rewrite H2. subst terms. rewrite fmap_imap.
    rewrite (imap_ext _ (λ _ sj, sj)).
    + rewrite (imap_const (λ sj : R, sj)), list_fmap_id. exact Ss.
    + intros j sj _. simpl. unfold shift_term, vscale.
      rewrite vsum_scale, vsum_rotate, Sg. lra.
Qed.

Lemma power_nonneg x gamma : 0 <= power x gamma.
Proof.
  unfold power. destruct (Req_dec_T x 0); [lra|].
  unfold Rpower. apply Rlt_le, exp_pos.
Qed.

Lemma power_pos x gamma : 0 < x → 0 < power x gamma.
Proof.
  intros Hx. unfold power. destruct (Req_dec_T x 0); [lra|].
  unfold Rpower. apply exp_pos.
Qed.

Lemma vsum_pos_elem v x :
  Forall (λ y, 0 <= y) v → x ∈ v → 0 < x → 0 < vsum v.
Proof.
  intros Hv Hx Hpos. induction Hv as [|y v Hy Hv IH]; [by inversion Hx|].
  simpl. apply vsum_nonneg in Hv as Hs.
  inversion Hx; subst; [lra|]. specialize (IH ltac:(done)). lra.
Qed.

Lemma distribution_has_pos v : distribution v → ∃ x, x ∈ v ∧ 0 < x.
Proof.
  intros [Hv Hs]. induction Hv as [|y v Hy Hv IH]; simpl in Hs; [lra|].
  destruct (Rle_lt_dec y 0) as [Hle|Hlt].
  - destruct IH as (x & Hx & Hpos); [lra|]. exists x. split; [by right|done].
  - exists y. split; [by left|done].
Qed.

Lemma sharpen_distribution w gamma :
  distribution w →
  length (sharpen w gamma) = length w ∧ distribution (sharpen w gamma).
Proof.
  intros Hw. unfold sharpen. split; [by rewrite !length_map|].
  set (p := map (λ x, power x gamma) w).
  assert (Hp : Forall (λ y, 0 <= y) p).
  { subst p. rewrite Forall_map. apply Forall_forall.
    intros; apply power_nonneg. }
  assert (HS : 0 < vsum p).
  { destruct (distribution_has_pos w Hw) as (x & Hx & Hpos).
    apply (vsum_pos_elem p (power x gamma)); [done| |by apply power_pos].
    subst p. apply list_elem_of_fmap. eauto. }
  split.
  - rewrite Forall_map. eapply Forall_impl; [exact Hp|]. simpl.
    intros y Hy. apply Rmult_le_pos; [done|]. apply Rlt_le, Rinv_0_lt_compat, HS.
  - rewrite vsum_div. field. lra.
Qed.

Lemma item_sigmoid_range a : 0 <= item (Util.sigmoid a) <= 1.
Proof.
  unfold item, Util.sigmoid. rewrite concat_map1.
  destruct (concat a) as [|x l]; simpl; [lra|].
  unfold Util.sigmoid1. pose proof (exp_pos (- x)) as He.
  split.
  - apply Rlt_le, Rinv_0_lt_compat. lra.
  - rewrite <- Rinv_1 at 2. apply Rinv_le_contravar; lra.
Qed.

Lemma simplex_column n (v : vector) :
  length v = n → distribution v → simplex n (map (λ x, [x]) v).
Proof.
  intros Hlen [Hv Hs]. split; [split|split].
  - by rewrite length_map.
  - rewrite Forall_map. by apply Forall_forall.
  - rewrite Forall_map. eapply Forall_impl; [exact Hv|]. simpl.
    intros x Hx. constructor; [exact Hx | constructor].
  - rewrite sum_concat. rewrite <- Hs. f_equal. clear.
    induction v as [|x v IH]; simpl; congruence.
Qed.

Lemma simplex_distribution n w :
  simplex n w → length (concat w) = n ∧ distribution (concat w).
Proof.
  intros (Hsh & Hnn & Hs). split; [|split].
  - rewrite (length_concat_shape _ _ _ Hsh). lia.
  - clear -Hnn. induction Hnn as [|r w Hr Hw IH]; simpl; [done|].
    by apply Forall_app.
  - by rewrite <- sum_concat.
Qed.

Lemma Forall_of_concat (P : R → Prop) (a : matrix) :
  Forall P (concat a) → Forall (Forall P) a.
Proof.
  induction a as [|r a IH]; simpl; [constructor|].
  rewrite Forall_app. intros [Hr Ha]. constructor; auto.
Qed.

Lemma simplex_of_distribution n a :
  has_shape n 1 a → distribution (concat a) → simplex n a.
Proof.
  intros Hsh [Hnn Hs]. split; [done|]. split.
  - by apply Forall_of_concat.
  - by rewrite sum_concat.
Qed.

Lemma softmax_simplex n a :
  has_shape n 1 a → (0 < n)%nat → simplex n (Util.softmax a).
Proof.
  intros Hsh Hn. apply simplex_of_distribution.
  - by apply has_shape_softmax.
  - apply softmax_distribution. intros Hnil.
    apply length_concat_shape in Hsh. rewrite Hnil in Hsh. simpl in Hsh. lia.
Qed.

(** The addressing engine maps a weighting on the simplex to a weighting
    on the simplex, for every key, sharpness and sharpening exponent. *)
Lemma create_weights_simplex n k_t b_t g_t s_t gamma_t w_old mem :
  (0 < n)%nat → length mem = n → simplex n w_old →
  0 <= item g_t <= 1 → distribution (concat s_t) →
  simplex n (create_weights k_t b_t g_t s_t gamma_t w_old mem).
Proof.
  intros Hn Hmem Hold Hg Hs. unfold create_weights.
  apply simplex_distribution in Hold as [Hlen Hold].
  assert (Hc : distribution (content_focus (concat k_t) (item b_t) mem)).
  { apply content_focus_distribution. intros ->. simpl in Hmem. lia. }
  pose proof (length_content_focus (concat k_t) (item b_t) mem) as Hlc.
  assert (Hi : distribution
            (interpolate (item g_t)
               (content_focus (concat k_t) (item b_t) mem) (concat w_old))).
  { apply interpolate_distribution; [done|lia|done|done]. }
  pose proof (length_interpolate (item g_t)
                (content_focus (concat k_t) (item b_t) mem) (concat w_old)
                ltac:(lia)) as Hli.
  destruct (shift_distribution _ (concat s_t) Hi Hs) as [Hlsh Hsh].
  destruct (sharpen_distribution _ (item gamma_t) Hsh) as [Hlp Hp].
  apply simplex_column; [lia|done].
Qed.

End Simplex.

(** * Properties of the forward pass *)

Section Forward.

Context (self : NTM) (inputs targets : list matrix)
        (params : gmap string matrix).

Lemma agree_below_refl z s : agree_below z s s.
Proof. intros k _. repeat split. Qed.

Lemma agree_below_trans z1 z2 s1 s2 s3 :
  (z1 <= z2)%Z → agree_below z1 s1 s2 → agree_below z2 s2 s3 →
  agree_below z1 s1 s3.
Proof.
  intros Hz H12 H23 k Hk.
  specialize (H12 k Hk). specialize (H23 k ltac:(lia)).
  destruct_and!. repeat split; congruence.
Qed.

Lemma record_frame_agree t f st :
  agree_below (Z.of_nat t) st (record_frame t f st).
Proof.
  intros k Hk. unfold record_frame; simpl.
  rewrite !lookup_insert_ne by lia. repeat split.
Qed.

Lemma record_frame_recorded t f st : recorded t f (record_frame t f st).
Proof.
  unfold recorded, record_frame; simpl.
  rewrite !lookup_insert_eq. repeat split.
Qed.

(** An iteration reads the trace at the key [t - 1] only. *)
Lemma fprop_frame_agree t s1 s2 :
  agree_below (Z.of_nat t) s1 s2 →
  fprop_frame self inputs targets params t s1 =
  fprop_frame self inputs targets params t s2.
Proof.
  intros H. specialize (H (Z.of_nat t - 1)%Z ltac:(lia)).
  destruct_and!. unfold fprop_frame.
  repeat match goal with E : _ !! _ = _ !! _ |- _ => rewrite E; clear E end.
  reflexivity.
Qed.

Lemma recorded_agree t f s1 s2 :
  agree_below (Z.of_nat t + 1) s1 s2 → recorded t f s1 → recorded t f s2.
Proof.
  intros H. specialize (H (Z.of_nat t) ltac:(lia)).
  unfold recorded. intros ?. destruct_and!. repeat split; congruence.
Qed.

(** The trace after the loop is a fixed point of every iteration: the
    entries at [t] are the frame computed from the entries at [t - 1]. *)
Lemma fprop_loop_frames n : ∀ a st st',
  fprop_loop self inputs targets params (seq a n) st = Some st' →
  agree_below (Z.of_nat a) st st' ∧
  ∀ t, (a <= t < a + n)%nat →
    ∃ f, fprop_frame self inputs targets params t st' = Some f ∧
         recorded t f st'.
Proof.
  induction n as [|n IH]; intros a st st' Hloop; simpl in Hloop.
  - injection Hloop as <-. split; [apply agree_below_refl | lia].
  - unfold fprop_step in Hloop.
    destruct (fprop_frame self inputs targets params a st) as [f|] eqn:Hf;
      [simpl in Hloop | discriminate].
    destruct (IH _ _ _ Hloop) as [Hag Hfr].
    assert (Hag0 : agree_below (Z.of_nat a) st st').
    { eapply agree_below_trans; [| apply record_frame_agree | exact Hag]. lia. }
    split; [exact Hag0|].
    intros t Ht. destruct (decide (t = a)) as [->|Hne].
    + exists f. split.
      * rewrite <- (fprop_frame_agree a st st' Hag0). exact Hf.
      * eapply recorded_agree; [| apply record_frame_recorded].
        replace (Z.of_nat a + 1)%Z with (Z.of_nat (S a)) by lia. exact Hag.
    + apply Hfr. lia.
Qed.

Lemma fprop_frame_total t st :
  has_keys step_keys params →
  (t < length inputs)%nat → (t < length targets)%nat →
  bound_at (Z.of_nat t - 1) st →
  is_Some (fprop_frame self inputs targets params t st).
Proof.
  intros Hk Hi Ht (Hrs & Hww & Hwr & Hm).
  apply lookup_lt_is_Some_2 in Hi, Ht.
  unfold has_keys, step_keys in Hk. rewrite !Forall_cons in Hk.
  destruct_and!.
  repeat match goal with H : is_Some _ |- _ => destruct H as [? H] end.
  unfold fprop_frame, read_head, write_head.
  simplify_option_eq. eauto.
Qed.

Lemma record_frame_bound t f st : bound_at (Z.of_nat t) (record_frame t f st).
Proof.
  unfold bound_at, record_frame; simpl. rewrite !lookup_insert_eq. eauto.
Qed.

Lemma fprop_loop_total n : ∀ a st,
  has_keys step_keys params →
  (a + n <= length inputs)%nat → (a + n <= length targets)%nat →
  bound_at (Z.of_nat a - 1) st →
  is_Some (fprop_loop self inputs targets params (seq a n) st).
Proof.
  induction n as [|n IH]; intros a st Hk Hi Ht Hb; simpl; [eauto|].
  destruct (fprop_frame_total a st Hk ltac:(lia) ltac:(lia) Hb) as [f Hf].
  unfold fprop_step. rewrite Hf. simpl.
  apply IH; [done | lia | lia |].
  replace (Z.of_nat (S a) - 1)%Z with (Z.of_nat a) by lia.
  apply record_frame_bound.
Qed.

End Forward.

(** * Shapes along the forward pass *)

(** Bring the binding and the shape of every parameter in scope. *)
Ltac open_shaped H :=
  let H' := fresh "Hsh" in
  pose proof H as H';
  unfold shaped, init_shapes in H'; rewrite !Forall_cons in H';
  destruct_and!;
  repeat match goal with
    | Hk : shaped_key ?P (?k, _) |- _ =>
        unfold shaped_key in Hk; simpl in Hk;
        destruct (P !! k) eqn:?; simpl in Hk; [|done]
    end.

Section FrameShapes.
Import Np.

Context (self : NTM) (in_size hidden_size : nat)
        (inputs targets : list matrix) (params : gmap string matrix).
Context (Hwf : well_formed self in_size hidden_size inputs targets params).

Lemma has_shape_affine r k (o_ b x : matrix) :
  (0 < k)%nat → length o_ = r → has_shape r 1 b → has_shape k 1 x →
  has_shape r 1 (add (dot o_ x) b).
Proof.
  intros Hk Ho Hb Hx. apply has_shape_map2; [|done].
  by eapply has_shape_dot.
Qed.

Lemma shape_nonempty r c (a : matrix) :
  has_shape r c a → (0 < r)%nat → (0 < c)%nat → concat a ≠ [].
Proof.
  intros Ha Hr Hc Hnil. apply length_concat_shape in Ha.
  rewrite Hnil in Ha. simpl in Ha. nia.
Qed.

Lemma shift_width_pos : (0 < shift_width (N self))%nat.
Proof. unfold shift_width. destruct Hwf as [_ _ _ HN _ _ _ _ _ _]. lia. Qed.

Lemma read_head_shaped o :
  has_shape hidden_size 1 o →
  ∃ hr, read_head params o = Some hr ∧
    0 <= Addressing.item (h_g hr) <= 1 ∧ distribution (concat (h_s hr)).
Proof.
  intros Ho. pose proof (wf_hidden_size _ _ _ _ _ _ Hwf) as Hh.
  open_shaped (wf_params _ _ _ _ _ _ Hwf).
  unfold read_head. simplify_option_eq. eexists; split; [done|]. simpl.
  split; [apply item_sigmoid_range|].
  apply softmax_distribution.
  eapply (shape_nonempty (shift_width (N self)) 1); [|apply shift_width_pos|lia].
  eapply has_shape_affine; [exact Hh| |done|done].
  by eapply has_shape_rows.
Qed.

Lemma write_head_shaped o :
  has_shape hidden_size 1 o →
  ∃ hw, write_head params o = Some hw ∧
    0 <= Addressing.item (h_g hw) <= 1 ∧ distribution (concat (h_s hw)).
Proof.
  intros Ho. pose proof (wf_hidden_size _ _ _ _ _ _ Hwf) as Hh.
  open_shaped (wf_params _ _ _ _ _ _ Hwf).
  unfold write_head. simplify_option_eq. eexists; split; [done|]. simpl.
  split; [apply item_sigmoid_range|].
  apply softmax_distribution.
  eapply (shape_nonempty (shift_width (N self)) 1); [|apply shift_width_pos|lia].
  eapply has_shape_affine; [exact Hh| |done|done].
  by eapply has_shape_rows.
Qed.

Lemma has_shape_column_reshape n (a : matrix) :
  has_shape n 1 a → has_shape n 1 (reshape n 1 a).
Proof.
  intros Ha. apply has_shape_reshape.
  rewrite (length_concat_shape _ _ _ Ha). lia.
Qed.

Lemma has_shape_row_reshape n (a : matrix) :
  has_shape 1 n a → has_shape n 1 (reshape n 1 a).
Proof.
  intros Ha. apply has_shape_reshape.
  rewrite (length_concat_shape _ _ _ Ha). lia.
Qed.

Lemma fprop_frame_shaped t st :
  (t < length inputs)%nat → shaped_at self (Z.of_nat t - 1) st →
  ∃ f, fprop_frame self inputs targets params t st = Some f ∧
       frame_shaped self hidden_size f.
Proof.
  intros Ht (Hrs & Hww & Hwr & Hm).
  destruct Hwf as [Hi Hh Ho HN HM Hself Hpar Hin Htg Hlen].
  destruct (lookup_lt_is_Some_2 inputs t Ht) as [inp Hinp].
  destruct (lookup_lt_is_Some_2 targets t ltac:(lia)) as [tgt Htgt].
  eapply Forall_lookup_1 in Hin; [|exact Hinp].
  eapply Forall_lookup_1 in Htg; [|exact Htgt].
  destruct (st_rs st !! _) as [r_prev|] eqn:Er; [simpl in Hrs|done].
  destruct (st_w_ws st !! _) as [w_w_prev|] eqn:Eww; [simpl in Hww|done].
  destruct (st_w_rs st !! _) as [w_r_prev|] eqn:Ewr; [simpl in Hwr|done].
  destruct (st_mems st !! _) as [mem_prev|] eqn:Em; [simpl in Hm|done].
  open_shaped Hpar.
  unfold fprop_frame. rewrite Hinp. simpl.
  repeat match goal with E : params !! _ = Some _ |- _ => rewrite E; clear E end.
  rewrite Er, Eww, Ewr, Em, Htgt. simpl.
  match goal with |- context [read_head params ?o] => set (o_ := o) end.
  assert (Hx : has_shape in_size 1 (reshape_rev inp))
    by by apply has_shape_reshape_rev.
  assert (Hzh : has_shape hidden_size 1 o_).
  { subst o_. apply has_shape_map1.
    eapply has_shape_affine; [exact Hh|by eapply has_shape_rows|done|].
    apply has_shape_map1. unfold hidden_pre.
    repeat apply has_shape_map2; [| |done].
    - eapply has_shape_dot; [by eapply has_shape_rows|exact Hx|done].
    - eapply has_shape_dot; [by eapply has_shape_rows| |exact HM].
      by apply has_shape_column_reshape. }
  destruct (read_head_shaped o_ Hzh) as (hr & -> & Hgr & Hsr).
  destruct (write_head_shaped o_ Hzh) as (hw & -> & Hgw & Hsw).
  simpl. eexists; split; [done|]. unfold frame_shaped; simpl.
  assert (Hw_w : simplex (N self) (address hw w_w_prev mem_prev)).
  { apply create_weights_simplex; [done|by eapply has_shape_rows|done..]. }
  assert (Hw_r : simplex (N self) (address hr w_r_prev mem_prev)).
  { apply create_weights_simplex; [done|by eapply has_shape_rows|done..]. }
  assert (Hadd : ∀ o1 b1, has_shape (M self) hidden_size o1 →
            has_shape (M self) 1 b1 → has_shape (M self) 1 (add (dot o1 o_) b1)).
  { intros. eapply has_shape_affine; [exact Hh|by eapply has_shape_rows|done..]. }
  split; [done|]. split.
  { eapply has_shape_affine; [exact Hh|by eapply has_shape_rows|done..]. }
  split; [by apply has_shape_row_reshape|].
  split; [by apply has_shape_map1, Hadd|].
  split; [by apply has_shape_map1, Hadd|].
  split; [eapply has_shape_read; [done|apply Hw_r|done]|].
  split; [done|]. split; [done|].
  apply has_shape_write; [done|apply Hw_w|..]; by apply has_shape_map1, Hadd.
Qed.

End FrameShapes.

Section ForwardTrace.
Import Np.

Context (self : NTM) (in_size hidden_size : nat)
        (inputs targets : list matrix) (params : gmap string matrix).
Context (Hwf : well_formed self in_size hidden_size inputs targets params).

Lemma record_frame_shaped t f st :
  frame_shaped self hidden_size f →
  shaped_at self (Z.of_nat t) (record_frame t f st).
Proof.
  intros (_ & _ & _ & _ & _ & Hr & Hww & Hwr & Hm).
  unfold shaped_at, record_frame; simpl.
  rewrite !lookup_insert_eq. simpl. done.
Qed.

Lemma shaped_at_agree z z' s1 s2 :
  (z < z')%Z → agree_below z' s1 s2 → shaped_at self z s1 → shaped_at self z s2.
Proof.
  intros Hz Hag. specialize (Hag z Hz). destruct_and!.
  unfold shaped_at.
  repeat match goal with E : _ !! _ = _ !! _ |- _ => rewrite <- E; clear E end.
  done.
Qed.

(** The loop runs to its end on a well-formed call; [fs] are the frames
    of its iterations. *)
Lemma fprop_loop_shaped n : ∀ a st,
  (a + n <= length inputs)%nat → shaped_at self (Z.of_nat a - 1) st →
  ∃ st' fs,
    fprop_loop self inputs targets params (seq a n) st = Some st' ∧
    length fs = n ∧
    agree_below (Z.of_nat a) st st' ∧
    (∀ i f, fs !! i = Some f →
       fprop_frame self inputs targets params (a + i) st' = Some f ∧
       recorded (a + i) f st' ∧ frame_shaped self hidden_size f) ∧
    st_loss st' = foldl (λ l f, loss_sub l (f_bce f)) (st_loss st) fs.
Proof.
  induction n as [|n IH]; intros a st Hlen Hsh; simpl.
  - exists st, []. split; [done|]. split; [done|].
    split; [apply agree_below_refl|]. split; [|done].
    intros i f Hi. by rewrite lookup_nil in Hi.
  - destruct (fprop_frame_shaped self in_size hidden_size inputs targets
                params Hwf a st ltac:(lia) Hsh) as (f & Hf & Hfs).
    unfold fprop_step. rewrite Hf. simpl.
    destruct (IH (S a) (record_frame a f st) ltac:(lia)) as
      (st' & fs & Hloop & Hl & Hag & Hfr & Hloss).
    { replace (Z.of_nat (S a) - 1)%Z with (Z.of_nat a) by lia.
      by apply record_frame_shaped. }
    assert (Hag0 : agree_below (Z.of_nat a) st st').
    { eapply agree_below_trans; [| apply record_frame_agree | exact Hag]. lia. }
    exists st', (f :: fs). split; [done|]. split; [simpl; lia|].
    split; [done|]. split; [|done].
    intros [|i] f' Hi; simpl in Hi.
    + injection Hi as <-. rewrite Nat.add_0_r. split; [|split; [|done]].
      * rewrite <- (fprop_frame_agree self inputs targets params a st st' Hag0).
        exact Hf.
      * eapply recorded_agree; [| apply record_frame_recorded].
        replace (Z.of_nat a + 1)%Z with (Z.of_nat (S a)) by lia. exact Hag.
    + replace (a + S i)%nat with (S a + i)%nat by lia. by apply Hfr.
Qed.

Lemma fprop_init_shaped :
  ∃ st0, fprop_init self = Some st0 ∧ shaped_at self (-1) st0 ∧
         st_loss st0 = Scalar 0 ∧
         st_w_rs st0 !! (-1)%Z = Util.softmax <$> W self !! "w_rsInit" ∧
         st_w_ws st0 !! (-1)%Z = Util.softmax <$> W self !! "w_wsInit" ∧
         st_rs st0 !! (-1)%Z = W self !! "rsInit" ∧
         st_mems st0 !! (-1)%Z = W self !! "memsInit".
Proof.
  destruct Hwf as [Hi Hh Ho HN HM Hself Hpar Hin Htg Hlen].
  open_shaped Hself.
  unfold fprop_init. simplify_option_eq. eexists; split; [done|]. simpl.
  unfold shaped_at; simpl. rewrite !lookup_singleton_eq. simpl.
  split; [|done].
  split; [done|]. split; [by apply softmax_simplex|].
  split; [by apply softmax_simplex|done].
Qed.

(** The forward pass returns, and its trace is the list of the frames of
    its iterations on top of the initial conditions. *)
Lemma fprop_trace :
  ∃ st fs,
    fprop self inputs targets params = Some (np_sum (st_loss st), st) ∧
    length fs = length inputs ∧
    shaped_at self (-1) st ∧
    st_w_rs st !! (-1)%Z = Util.softmax <$> W self !! "w_rsInit" ∧
    st_w_ws st !! (-1)%Z = Util.softmax <$> W self !! "w_wsInit" ∧
    (∀ t f, fs !! t = Some f →
       fprop_frame self inputs targets params t st = Some f ∧
       recorded t f st ∧ frame_shaped self hidden_size f) ∧
    st_loss st = foldl (λ l f, loss_sub l (f_bce f)) (Scalar 0) fs.
Proof.
  destruct fprop_init_shaped as (st0 & Hinit & Hsh0 & Hl0 & Hwr & Hww & _ & _).
  destruct (fprop_loop_shaped (length inputs) 0 st0 ltac:(lia) Hsh0) as
    (st & fs & Hloop & Hlen & Hag & Hfr & Hloss).
  exists st, fs. unfold fprop. rewrite Hinit. simpl. rewrite Hloop. simpl.
  split; [done|]. split; [done|].
  split; [by eapply (shaped_at_agree (-1) 0); [lia|exact Hag|]|].
  destruct (Hag (-1)%Z ltac:(lia)) as
    (_ & _ & _ & _ & _ & _ & _ & _ & _ & Ewr & Eww & _).
  split; [by rewrite <- Ewr|]. split; [by rewrite <- Eww|].
  split; [exact Hfr|]. by rewrite Hloss, Hl0.
Qed.

End ForwardTrace.

(** * The loss *)

Section Loss.
Import Np.



Lemma concat_map2 f r c (a b : matrix) :
  has_shape r c a → has_shape r c b →
  concat (map2 f a b) = zip_with f (concat a) (concat b).
Proof.
  intros [Hra Hca] [Hrb Hcb]. unfold map2. clear Hra Hrb. revert b Hcb.
  induction Hca as [|x a Hx Ha IH]; intros [|y b] Hb; simpl; try done.
  - by rewrite zip_with_nil_r.
  - inversion Hb; subst. rewrite IH by done.
    rewrite zip_with_app by lia. done.
Qed.

Lemma sum_rsub (b : matrix) : Np.sum (rsub 0 b) = - Np.sum b.
Proof.
  unfold rsub. rewrite !sum_concat, concat_map1.
  induction (concat b) as [|x v IH]; simpl; [lra|]. rewrite IH. lra.
Qed.



Lemma concat_reshape_all r c (a : matrix) :
  length (concat a) = (r * c)%nat → concat (reshape r c a) = concat a.
Proof.
  unfold reshape. generalize (concat a) as v. clear a.
  intros v Hlen.
  assert (∀ k, (k <= r)%nat →
     concat (map (λ i, take c (drop (i * c) v)) (seq 0 k)) = take (k * c) v) as H.
  { induction k as [|k IH]; intros Hk; [done|].
    rewrite seq_S, map_app, concat_app, IH by lia. simpl.
    rewrite app_nil_r.
    replace (c + k * c)%nat with (k * c + c)%nat by lia.
    by rewrite <- take_take_drop. }
  rewrite H by lia. apply take_ge. lia.
Qed.

(** The loss terms of one timestep, bit by bit. *)
Lemma sum_bce_terms n (p ts : matrix) :
  has_shape n 1 p → has_shape n 1 ts →
  - Np.sum (bce_terms p ts) = vsum (zip_with bce (concat ts) (concat p)).
Proof.
  intros Hp Hts. unfold bce_terms, add, multiply, sub, adds, ones_like.
  assert (Hone : has_shape n 1 (map1 (λ _, 1) p)) by by apply has_shape_map1.
  rewrite sum_concat.
  rewrite (concat_map2 _ n 1);
    [|repeat first [apply has_shape_map2 | apply has_shape_map1]; done..].
  rewrite !(concat_map2 _ n 1);
    try (repeat first [apply has_shape_map2 | apply has_shape_map1]; done).
  rewrite !concat_map1.
  rewrite !(concat_map2 _ n 1);
    try (repeat first [apply has_shape_map2 | apply has_shape_map1]; done).
  rewrite !concat_map1.
  apply length_concat_shape in Hp, Hts.
  assert (Hl : length (concat ts) = length (concat p)) by lia.
  clear -Hl. revert Hl. generalize (concat p) as P, (concat ts) as T.
  intros P T. revert P. induction T as [|tg T IH]; intros [|pi P] Hl;
    simpl in *; try lia; [lra|].
  rewrite <- IH by lia. unfold bce. lra.
Qed.

End Loss.

Section FrameInversion.

Context (self : NTM) (inputs targets : list matrix)
        (params : gmap string matrix).

(** What a frame is made of, read off the code of the iteration. *)
Lemma fprop_frame_inv t st f :
  fprop_frame self inputs targets params t st = Some f →
  ∃ inp tgt r_prev w_w_prev w_r_prev mem_prev rh xh bh ho bo
    oadds badds oerases berases oy by_,
    inputs !! t = Some inp ∧ targets !! t = Some tgt ∧
    st_rs st !! (Z.of_nat t - 1)%Z = Some r_prev ∧
    st_w_ws st !! (Z.of_nat t - 1)%Z = Some w_w_prev ∧
    st_w_rs st !! (Z.of_nat t - 1)%Z = Some w_r_prev ∧
    st_mems st !! (Z.of_nat t - 1)%Z = Some mem_prev ∧
    params !! "rh" = Some rh ∧ params !! "xh" = Some xh ∧
    params !! "bh" = Some bh ∧ params !! "ho" = Some ho ∧
    params !! "bo" = Some bo ∧ params !! "oadds" = Some oadds ∧
    params !! "badds" = Some badds ∧ params !! "oerases" = Some oerases ∧
    params !! "berases" = Some berases ∧ params !! "oy" = Some oy ∧
    params !! "by" = Some by_ ∧
    f_x f = Np.reshape_rev inp ∧
    f_zh f = hidden_pre xh rh bh (f_x f) r_prev (M self) ∧
    f_h f = Np.map1 tanh (f_zh f) ∧
    f_zo f = Np.add (Np.dot ho (f_h f)) bo ∧
    f_o f = Np.map1 tanh (f_zo f) ∧
    read_head params (f_o f) = Some (f_read_head f) ∧
    write_head params (f_o f) = Some (f_write_head f) ∧
    f_add f = Np.map1 tanh (Np.add (Np.dot oadds (f_o f)) badds) ∧
    f_erase f = Util.sigmoid (Np.add (Np.dot oerases (f_o f)) berases) ∧
    f_w_w f = address (f_write_head f) w_w_prev mem_prev ∧
    f_w_r f = address (f_read_head f) w_r_prev mem_prev ∧
    f_y f = Np.add (Np.dot oy (f_o f)) by_ ∧
    f_p f = Util.sigmoid (f_y f) ∧
    f_ts f = Np.reshape (out_size self) 1 tgt ∧
    f_bce f = bce_terms (f_p f) (f_ts f) ∧
    f_r f = Memory.read mem_prev (f_w_r f) ∧
    f_mem f = Memory.write mem_prev (f_w_w f) (f_erase f) (f_add f).
Proof.
  unfold fprop_frame. intros H.
  destruct (inputs !! t) as [inp|]; [simpl in H|done].
  destruct (params !! "rh") as [rh|]; [simpl in H|done].
  destruct (st_rs st !! _) as [r_prev|]; [simpl in H|done].
  destruct (params !! "xh") as [xh|]; [simpl in H|done].
  destruct (params !! "bh") as [bh|]; [simpl in H|done].
  destruct (params !! "ho") as [ho|]; [simpl in H|done].
  destruct (params !! "bo") as [bo|]; [simpl in H|done].
  destruct (read_head params _) as [hr|] eqn:Hr; [simpl in H|done].
  destruct (write_head params _) as [hw|] eqn:Hw; [simpl in H|done].
  destruct (params !! "oadds") as [oadds|]; [simpl in H|done].
  destruct (params !! "badds") as [badds|]; [simpl in H|done].
  destruct (params !! "oerases") as [oerases|]; [simpl in H|done].
  destruct (params !! "berases") as [berases|]; [simpl in H|done].
  destruct (st_w_ws st !! _) as [w_w_prev|]; [simpl in H|done].
  destruct (st_mems st !! _) as [mem_prev|]; [simpl in H|done].
  destruct (st_w_rs st !! _) as [w_r_prev|]; [simpl in H|done].
  destruct (params !! "oy") as [oy|]; [simpl in H|done].
  destruct (params !! "by") as [by_|]; [simpl in H|done].
  destruct (targets !! t) as [tgt|]; [simpl in H|done].
  injection H as <-. simpl.
  exists inp, tgt, r_prev, w_w_prev, w_r_prev, mem_prev, rh, xh, bh, ho, bo,
    oadds, badds, oerases, berases, oy, by_.
  repeat split; done.
Qed.

(** An iteration other than [t + 1] does not read [rs[t]]. *)
Lemma fprop_frame_rs_frame s t r' st :
  s ≠ S t →
  fprop_frame self inputs targets params s
    (with_rs (<[Z.of_nat t := r']> (st_rs st)) st) =
  fprop_frame self inputs targets params s st.
Proof.
  intros Hne. unfold fprop_frame, with_rs; simpl.
  rewrite lookup_insert_ne by lia. reflexivity.
Qed.

End FrameInversion.

Section ForwardKeys.

Context (self : NTM) (inputs targets : list matrix)
        (params : gmap string matrix).

Lemma fprop_init_bound :
  has_keys init_keys (W self) →
  ∃ st0, fprop_init self = Some st0 ∧ bound_at (-1) st0.
Proof.
  intros Hk. unfold has_keys, init_keys in Hk. rewrite !Forall_cons in Hk.
  destruct_and!.
  repeat match goal with H : is_Some _ |- _ => destruct H as [? H] end.
  unfold fprop_init. simplify_option_eq. eexists; split; [done|].
  unfold bound_at; simpl. rewrite !lookup_singleton_eq. eauto.
Qed.

(** With every key bound and a target for every input, the forward pass
    returns, and every iteration left its frame in the trace. *)
Lemma fprop_returns :
  has_keys init_keys (W self) → has_keys step_keys params →
  (length inputs <= length targets)%nat →
  ∃ st, fprop self inputs targets params = Some (np_sum (st_loss st), st) ∧
    ∀ t, (t < length inputs)%nat →
      ∃ f, fprop_frame self inputs targets params t st = Some f ∧
           recorded t f st.
Proof.
  intros Hi Hk Hlen.
  destruct (fprop_init_bound Hi) as (st0 & Hinit & Hb).
  destruct (fprop_loop_total self inputs targets params (length inputs)
              0 st0 Hk ltac:(lia) ltac:(lia) Hb) as [st Hloop].
  exists st. unfold fprop. rewrite Hinit. simpl. rewrite Hloop. simpl.
  split; [done|]. intros t Ht.
  destruct (fprop_loop_frames self inputs targets params _ _ _ _ Hloop)
    as [_ Hfr].
  apply Hfr. lia.
Qed.

End ForwardKeys.

Section LossTheorem.
Import Np.

Context (self : NTM) (in_size hidden_size : nat)
        (inputs targets : list matrix) (params : gmap string matrix).
Context (Hwf : well_formed self in_size hidden_size inputs targets params).

Lemma sigmoid1_range x : 0 < Util.sigmoid1 x < 1.
Proof.
  unfold Util.sigmoid1. pose proof (exp_pos (- x)) as He. split.
  - apply Rinv_0_lt_compat. lra.
  - rewrite <- Rinv_1 at 2. apply Rinv_lt_contravar; lra.
Qed.

Lemma epsilon_pos : 0 < epsilon.
Proof. unfold epsilon. apply Rinv_0_lt_compat. apply pow_lt. lra. Qed.

Lemma frame_loss t st f tgt :
  fprop_frame self inputs targets params t st = Some f →
  frame_shaped self hidden_size f →
  targets !! t = Some tgt →
  - Np.sum (f_bce f) =
  vsum (zip_with (λ tg yi, bce tg (Util.sigmoid1 yi))
                 (concat tgt) (concat (f_y f))).
Proof.
  intros Hf Hsh Htgt.
  destruct (fprop_frame_inv _ _ _ _ _ _ _ Hf) as
    (inp & tgt' & r_prev & w_w_prev & w_r_prev & mem_prev & rh & xh & bh &
     ho & bo & oadds & badds & oerases & berases & oy & by_ & Hfacts).
  destruct_and!.
  assert (tgt' = tgt) as -> by congruence.
  destruct Hsh as (_ & Hy & Hts & _).
  match goal with E : f_bce f = _ |- _ => rewrite E end.
  rewrite (sum_bce_terms (out_size self)); [|by
    match goal with E : f_p f = _ |- _ => rewrite E; apply has_shape_map1 end
    |done].
  repeat match goal with
    | E : f_p f = _ |- _ => rewrite E; clear E
    | E : f_ts f = _ |- _ => rewrite E; clear E
    end.
  unfold Util.sigmoid. rewrite concat_map1, zip_with_fmap_r.
  rewrite concat_reshape_all; [done|].
  destruct Hwf as [_ _ _ _ _ _ _ _ Htg _].
  eapply Forall_lookup_1 in Htg; [|exact Htgt].
  rewrite (length_concat_shape _ _ _ Htg). lia.
Qed.

End LossTheorem.

(** * The manual backward pass *)

Section Backward.

Context (self : NTM) (targets : list matrix)
        (params : gmap string matrix) (st : stats).

Lemma accum_Some k v d d' :
  accum k v d = Some d' →
  ∃ old, d !! k = Some old ∧ d' = <[k := Np.iadd old v]> d.
Proof.
  unfold accum. destruct (d !! k) as [old|]; [|done]. simpl.
  intros [= <-]. eauto.
Qed.

Lemma accum_is_Some k v d : is_Some (d !! k) → is_Some (accum k v d).
Proof. intros [old H]. unfold accum. rewrite H. simpl. eauto. Qed.

Lemma accum_lookup_ne k k' v d d' :
  accum k v d = Some d' → k ≠ k' → d' !! k' = d !! k'.
Proof.
  intros H Hne. apply accum_Some in H as (old & _ & ->).
  by rewrite lookup_insert_ne.
Qed.

Lemma accum_keys k v d d' k' :
  accum k v d = Some d' → is_Some (d' !! k') ↔ is_Some (d !! k').
Proof.
  intros H. apply accum_Some in H as (old & Hold & ->).
  destruct (decide (k = k')) as [->|Hne].
  - rewrite lookup_insert_eq, Hold. split; eauto.
  - by rewrite lookup_insert_ne.
Qed.

(** The terminal arm: zeros for [drs[t]] and [dmemtilde[t]], and no
    accumulation. *)
Lemma manual_future_last t o g g' dz :
  ¬ not_last targets t →
  manual_future self targets st t o g = Some (g', dz) →
  ∃ r0 mem0,
    st_rs st !! 0%Z = Some r0 ∧ st_mems st !! 0%Z = Some mem0 ∧
    dz = None ∧ deltas g' = deltas g ∧ dzh g' = dzh g ∧ dmem g' = dmem g ∧
    drs g' = <[Z.of_nat t := Np.zeros_like r0]> (drs g) ∧
    dmemtilde g' = <[Z.of_nat t := Np.zeros_like mem0]> (dmemtilde g).
Proof.
  intros Hl. unfold manual_future. rewrite decide_False by done.
  destruct (st_rs st !! 0%Z) as [r0|]; [simpl|done].
  destruct (st_mems st !! 0%Z) as [mem0|]; [simpl|done].
  intros [= <- <-]. exists r0, mem0. by repeat split.
Qed.

(** The arm of the earlier timesteps. *)
Lemma manual_future_not_last t o g g' dz :
  not_last targets t →
  manual_future self targets st t o g = Some (g', dz) →
  ∃ rh dzh_next w_r_next drs_next w_w_next e_next mem0 dmemtilde_next
    mem_prev w_w e a d1 d2 d3,
    W self !! "rh" = Some rh ∧
    dzh g !! (Z.of_nat t + 1)%Z = Some dzh_next ∧
    st_w_rs st !! (Z.of_nat t + 1)%Z = Some w_r_next ∧
    drs g !! (Z.of_nat t + 1)%Z = Some drs_next ∧
    st_w_ws st !! (Z.of_nat t + 1)%Z = Some w_w_next ∧
    st_erases st !! (Z.of_nat t + 1)%Z = Some e_next ∧
    st_mems st !! 0%Z = Some mem0 ∧
    dmemtilde g !! (Z.of_nat t + 1)%Z = Some dmemtilde_next ∧
    st_mems st !! (Z.of_nat t - 1)%Z = Some mem_prev ∧
    st_w_ws st !! Z.of_nat t = Some w_w ∧
    st_erases st !! Z.of_nat t = Some e ∧
    st_adds st !! Z.of_nat t = Some a ∧
    let dmem_t := dmem_next self w_r_next drs_next w_w_next e_next mem0
                    dmemtilde_next in
    let derase :=
      Np.dot (Np.transpose (Np.multiply dmem_t (Np.neg mem_prev))) w_w in
    let dzerase := Np.multiply derase (Np.multiply e (Np.rsub 1 e)) in
    let dadd := Np.dot (Np.transpose dmem_t) w_w in
    let dzadd := Np.multiply dadd (Np.rsub 1 (Np.multiply a a)) in
    dz = Some (dzadd, dzerase) ∧
    accum "badds" dzadd (deltas g) = Some d1 ∧
    accum "oadds" (Np.dot dzadd (Np.transpose o)) d1 = Some d2 ∧
    accum "berases" dzerase d2 = Some d3 ∧
    accum "oerases" (Np.dot dzerase (Np.transpose o)) d3 = Some (deltas g') ∧
    dzh g' = dzh g ∧
    drs g' = <[Z.of_nat t := Np.dot (Np.transpose rh) dzh_next]> (drs g) ∧
    dmem g' = <[Z.of_nat t := dmem_t]> (dmem g) ∧
    dmemtilde g' = <[Z.of_nat t := dmem_t]> (dmemtilde g).
Proof.
  intros Hl. unfold manual_future. rewrite decide_True by done.
  destruct (W self !! "rh") as [rh|]; [simpl|done].
  destruct (dzh g !! _) as [dzh_next|]; [simpl|done].
  destruct (st_w_rs st !! _) as [w_r_next|]; [simpl|done].
  rewrite lookup_insert_ne by lia.
  destruct (drs g !! _) as [drs_next|]; [simpl|done].
  destruct (st_w_ws st !! (Z.of_nat t + 1)%Z) as [w_w_next|]; [simpl|done].
  destruct (st_erases st !! (Z.of_nat t + 1)%Z) as [e_next|]; [simpl|done].
  destruct (st_mems st !! 0%Z) as [mem0|]; [simpl|done].
  destruct (dmemtilde g !! _) as [dmemtilde_next|]; [simpl|done].
  destruct (st_mems st !! (Z.of_nat t - 1)%Z) as [mem_prev|]; [simpl|done].
  destruct (st_w_ws st !! Z.of_nat t) as [w_w|]; [simpl|done].
  destruct (st_erases st !! Z.of_nat t) as [e|]; [simpl|done].
  destruct (st_adds st !! Z.of_nat t) as [a|]; [simpl|done].
  destruct (accum "badds" _ _) as [d1|] eqn:E1; [simpl|done].
  destruct (accum "oadds" _ _) as [d2|] eqn:E2; [simpl|done].
  destruct (accum "berases" _ _) as [d3|] eqn:E3; [simpl|done].
  destruct (accum "oerases" _ _) as [d4|] eqn:E4; [simpl|done].
  intros [= <- <-]. simpl.
  exists rh, dzh_next, w_r_next, drs_next, w_w_next, e_next, mem0,
    dmemtilde_next, mem_prev, w_w, e, a, d1, d2, d3.
  by repeat split.
Qed.

Lemma same_shapes_refl d : same_shapes d d.
Proof. intros k. destruct (d !! k); auto. Qed.

Lemma same_shapes_trans d1 d2 d3 :
  same_shapes d1 d2 → same_shapes d2 d3 → same_shapes d1 d3.
Proof.
  intros H12 H23 k. specialize (H12 k). specialize (H23 k).
  destruct (d1 !! k), (d2 !! k), (d3 !! k); try done. auto.
Qed.

Lemma accum_same_shapes k v d d' :
  accum k v d = Some d' → same_shapes d d'.
Proof.
  intros H. apply accum_Some in H as (old & Hold & ->). intros k'.
  destruct (decide (k = k')) as [<-|Hne].
  - rewrite lookup_insert_eq, Hold. intros r c. apply has_shape_inplace.
  - rewrite lookup_insert_ne by done. destruct (d !! k'); auto.
Qed.

Lemma same_shapes_keys d d' k :
  same_shapes d d' → is_Some (d' !! k) ↔ is_Some (d !! k).
Proof.
  intros H. specialize (H k).
  destruct (d !! k), (d' !! k); try done; split; eauto.
  all: intros [? [=]].
Qed.

Lemma accum4_same_shapes k1 k2 k3 k4 v1 v2 v3 v4 d c1 c2 c3 c4 :
  accum k1 v1 d = Some c1 → accum k2 v2 c1 = Some c2 →
  accum k3 v3 c2 = Some c3 → accum k4 v4 c3 = Some c4 →
  same_shapes d c4.
Proof.
  intros H1 H2 H3 H4.
  repeat (eapply same_shapes_trans; [by eapply accum_same_shapes|]).
  apply same_shapes_refl.
Qed.

Lemma accum4_lookup_ne k1 k2 k3 k4 v1 v2 v3 v4 d c1 c2 c3 c4 k :
  accum k1 v1 d = Some c1 → accum k2 v2 c1 = Some c2 →
  accum k3 v3 c2 = Some c3 → accum k4 v4 c3 = Some c4 →
  k ∉ [k1; k2; k3; k4] → c4 !! k = d !! k.
Proof.
  intros H1 H2 H3 H4 Hk. rewrite !not_elem_of_cons in Hk. destruct_and!.
  rewrite (accum_lookup_ne _ _ _ _ _ H4), (accum_lookup_ne _ _ _ _ _ H3),
    (accum_lookup_ne _ _ _ _ _ H2), (accum_lookup_ne _ _ _ _ _ H1); done.
Qed.

(** What one iteration of [manual_grads] does to the gradient state. *)
Lemma manual_step_inv t g g' :
  manual_step self targets params st t g = Some g' →
  (∀ k : Z, k ≠ Z.of_nat t →
     drs g' !! k = drs g !! k ∧ dzh g' !! k = dzh g !! k ∧
     dmem g' !! k = dmem g !! k ∧ dmemtilde g' !! k = dmemtilde g !! k) ∧
  grads_bound_at (Z.of_nat t) g' ∧
  same_shapes (deltas g) (deltas g') ∧
  (∀ k, k ∉ every_step_keys ++ erase_add_keys →
     deltas g' !! k = deltas g !! k) ∧
  (¬ not_last targets t →
     (∀ k, k ∉ every_step_keys → deltas g' !! k = deltas g !! k) ∧
     terminal_zeros st g' t) ∧
  (not_last targets t →
     ∃ w_r_next drs_next w_w_next e_next mem0 dmemtilde_next,
       st_w_rs st !! (Z.of_nat t + 1)%Z = Some w_r_next ∧
       drs g !! (Z.of_nat t + 1)%Z = Some drs_next ∧
       st_w_ws st !! (Z.of_nat t + 1)%Z = Some w_w_next ∧
       st_erases st !! (Z.of_nat t + 1)%Z = Some e_next ∧
       st_mems st !! 0%Z = Some mem0 ∧
       dmemtilde g !! (Z.of_nat t + 1)%Z = Some dmemtilde_next ∧
       dmem g' !! Z.of_nat t =
         Some (dmem_next self w_r_next drs_next w_w_next e_next mem0
                 dmemtilde_next) ∧
       dmemtilde g' !! Z.of_nat t = dmem g' !! Z.of_nat t).
Proof.
  unfold manual_step. intros H.
  destruct (st_ps st !! _) as [p|]; [simpl in H|done].
  destruct (targets !! t) as [tgt|]; [simpl in H|done].
  destruct (st_os st !! _) as [o|]; [simpl in H|done].
  destruct (accum "oy" _ _) as [d1|] eqn:E1; [simpl in H|done].
  destruct (accum "by" _ _) as [d2|] eqn:E2; [simpl in H|done].
  destruct (manual_future _ _ _ _ _ _) as [[g1 dz]|] eqn:Ef; [simpl in H|done].
  destruct (interface_grad _ _ _ _ _) as [do|] eqn:Ei; [simpl in H|done].
  destruct (st_hs st !! _) as [h|]; [simpl in H|done].
  destruct (accum "ho" _ _) as [d3|] eqn:E3; [simpl in H|done].
  destruct (accum "bo" _ _) as [d4|] eqn:E4; [simpl in H|done].
  destruct (params !! "ho") as [ho|]; [simpl in H|done].
  destruct (st_xs st !! _) as [x|]; [simpl in H|done].
  destruct (accum "xh" _ _) as [d5|] eqn:E5; [simpl in H|done].
  destruct (accum "bh" _ _) as [d6|] eqn:E6; [simpl in H|done].
  destruct (st_rs st !! _) as [r_prev|]; [simpl in H|done].
  destruct (accum "rh" _ _) as [d7|] eqn:E7; [simpl in H|done].
  injection H as <-. simpl.
  assert (Hpre : same_shapes (deltas g) d2).
  { eapply same_shapes_trans; by eapply accum_same_shapes. }
  assert (Hpost : same_shapes (deltas g1) d7).
  { repeat (eapply same_shapes_trans; [by eapply accum_same_shapes|]).
    apply same_shapes_refl. }
  assert (Hne_pre : ∀ k, k ∉ every_step_keys → d2 !! k = deltas g !! k).
  { intros k Hk. unfold every_step_keys in Hk.
    rewrite !not_elem_of_cons in Hk. destruct_and!.
    rewrite (accum_lookup_ne _ _ _ _ _ E2), (accum_lookup_ne _ _ _ _ _ E1);
      done. }
  assert (Hne_post : ∀ k, k ∉ every_step_keys → d7 !! k = deltas g1 !! k).
  { intros k Hk. unfold every_step_keys in Hk.
    rewrite !not_elem_of_cons in Hk. destruct_and!.
    rewrite (accum_lookup_ne _ _ _ _ _ E7), (accum_lookup_ne _ _ _ _ _ E6),
      (accum_lookup_ne _ _ _ _ _ E5), (accum_lookup_ne _ _ _ _ _ E4),
      (accum_lookup_ne _ _ _ _ _ E3); done. }
  destruct (decide (not_last targets t)) as [Hl|Hl].
  - destruct (manual_future_not_last _ _ _ _ _ Hl Ef) as
      (rh & dzh_next & w_r_next & drs_next & w_w_next & e_next & mem0 &
       dmemtilde_next & mem_prev & w_w & e & a & c1 & c2 & c3 & Hfacts).
    simpl in Hfacts. destruct_and!.
    repeat match goal with
      | E : drs g1 = _ |- _ => rewrite E; clear E
      | E : dzh g1 = _ |- _ => rewrite E; clear E
      | E : dmem g1 = _ |- _ => rewrite E; clear E
      | E : dmemtilde g1 = _ |- _ => rewrite E; clear E
      end.
    split; [intros k Hk; by rewrite !lookup_insert_ne by done|].
    split; [unfold grads_bound_at; simpl; rewrite !lookup_insert_eq; eauto|].
    split.
    { eapply same_shapes_trans; [exact Hpre|].
      eapply same_shapes_trans; [|exact Hpost]. simpl.
      eapply accum4_same_shapes; eassumption. }
    split.
    { intros k Hk.
      apply (proj1 (not_elem_of_app every_step_keys erase_add_keys k)) in Hk.
      destruct Hk as [Hk1 Hk2].
      rewrite Hne_post by done. rewrite <- (Hne_pre k Hk1).
      eapply accum4_lookup_ne; [eassumption..|exact Hk2]. }
    split; [done|]. intros _.
    exists w_r_next, drs_next, w_w_next, e_next, mem0, dmemtilde_next.
    rewrite !lookup_insert_eq. by repeat split.
  - destruct (manual_future_last _ _ _ _ _ Hl Ef) as
      (r0 & mem0 & Hr0 & Hm0 & -> & Hd & Hz & Hm & Hdrs & Hdt).
    simpl in Hd. rewrite Hdrs, Hz, Hm, Hdt.
    split; [intros k Hk; by rewrite !lookup_insert_ne by done|].
    split; [unfold grads_bound_at; simpl; rewrite !lookup_insert_eq; eauto|].
    split.
    { eapply same_shapes_trans; [exact Hpre|]. by rewrite <- Hd. }
    assert (Hes : ∀ k, k ∉ every_step_keys → d7 !! k = deltas g !! k).
    { intros k Hk. rewrite Hne_post, Hd by done. by apply Hne_pre. }
    split.
    { intros k Hk.
      apply (proj1 (not_elem_of_app every_step_keys erase_add_keys k)) in Hk.
      apply Hes, Hk. }
    split; [|done]. intros _. split; [exact Hes|].
    unfold terminal_zeros; simpl.
    exists r0, mem0. rewrite !lookup_insert_eq. by repeat split.
Qed.

Lemma has_keys_lookup ks (d : gmap string matrix) k :
  has_keys ks d → k ∈ ks → is_Some (d !! k).
Proof. intros H Hk. unfold has_keys in H. by eapply Forall_forall in H. Qed.

Lemma accum_has_keys ks k v d d' :
  accum k v d = Some d' → has_keys ks d → has_keys ks d'.
Proof.
  intros H Hk. unfold has_keys in *. eapply Forall_impl; [exact Hk|].
  intros k' Hk'. simpl in *. by apply (accum_keys _ _ _ _ _ H).
Qed.

Lemma traced_at T t :
  traced T st → (t < T)%nat →
  is_Some (st_mems st !! Z.of_nat t) ∧ is_Some (st_ps st !! Z.of_nat t) ∧
  is_Some (st_os st !! Z.of_nat t) ∧ is_Some (st_hs st !! Z.of_nat t) ∧
  is_Some (st_xs st !! Z.of_nat t) ∧ is_Some (st_rs st !! Z.of_nat t) ∧
  is_Some (st_w_rs st !! Z.of_nat t) ∧ is_Some (st_w_ws st !! Z.of_nat t) ∧
  is_Some (st_adds st !! Z.of_nat t) ∧ is_Some (st_erases st !! Z.of_nat t).
Proof.
  intros [_ H] Ht. destruct (H t Ht) as [f Hf]. unfold recorded in Hf.
  destruct_and!. repeat split; eauto.
Qed.

Lemma traced_before T t :
  traced T st → (t < T)%nat →
  is_Some (st_mems st !! (Z.of_nat t - 1)%Z) ∧
  is_Some (st_rs st !! (Z.of_nat t - 1)%Z).
Proof.
  intros Htr Ht. destruct t as [|t].
  - destruct Htr as [(? & ? & ? & ?) _]. simpl. eauto.
  - destruct (traced_at T t Htr ltac:(lia)). destruct_and!.
    replace (Z.of_nat (S t) - 1)%Z with (Z.of_nat t) by lia. eauto.
Qed.

Ltac key_in := apply (bool_decide_unpack _); vm_compute; exact I.

Ltac run_accum HK :=
  match goal with
  | |- context [accum ?k ?v ?d] =>
      let d' := fresh "d" in let E := fresh "E" in
      destruct (accum_is_Some k v d) as [d' E];
        [apply (has_keys_lookup step_keys); [exact HK|key_in]|];
      rewrite E; simpl;
      apply (accum_has_keys _ _ _ _ _ E) in HK
  end.

Ltac run_lookup H :=
  let x := fresh "x" in let E := fresh "E" in
  destruct H as [x E]; rewrite E; simpl.

(** An iteration of [manual_grads] succeeds on the trace of a forward
    pass over as many timesteps. *)
Lemma manual_step_total t g :
  traced (length targets) st → (t < length targets)%nat →
  has_keys step_keys params → has_keys step_keys (W self) →
  has_keys step_keys (deltas g) →
  (not_last targets t → grads_bound_at (Z.of_nat t + 1) g) →
  is_Some (manual_step self targets params st t g).
Proof.
  intros Htr Ht Hp Hs HK Hb.
  destruct (traced_at _ t Htr Ht) as
    (Hm & Hps & Hos & Hhs & Hxs & Hrs & Hwr & Hww & Ha & He).
  destruct (traced_before _ t Htr Ht) as (Hmp & Hrp).
  destruct (traced_at _ 0 Htr ltac:(lia)) as
    (Hm0 & _ & _ & _ & _ & Hr0 & _).
  change (Z.of_nat 0) with 0%Z in Hm0, Hr0.
  destruct (lookup_lt_is_Some_2 targets t Ht) as [tgt Htgt].
  assert (Hoy := has_keys_lookup _ _ "oy" Hp ltac:(key_in)).
  assert (Hoa := has_keys_lookup _ _ "oadds" Hp ltac:(key_in)).
  assert (Hoe := has_keys_lookup _ _ "oerases" Hp ltac:(key_in)).
  assert (Hho := has_keys_lookup _ _ "ho" Hp ltac:(key_in)).
  assert (Hrh := has_keys_lookup _ _ "rh" Hs ltac:(key_in)).
  unfold manual_step. run_lookup Hps. rewrite Htgt. simpl. run_lookup Hos.
  run_accum HK. run_accum HK.
  unfold manual_future, interface_grad.
  destruct (decide (not_last targets t)) as [Hl|Hl]; simpl.
  - destruct (Hb Hl) as (Hdrs & Hdzh & Hdmt).
    destruct (traced_at _ (S t) Htr ltac:(unfold not_last in Hl; lia)) as
      (_ & _ & _ & _ & _ & _ & Hwr1 & Hww1 & _ & He1).
    replace (Z.of_nat (S t)) with (Z.of_nat t + 1)%Z in * by lia.
    run_lookup Hrh. run_lookup Hdzh. run_lookup Hwr1.
    rewrite lookup_insert_ne by lia. run_lookup Hdrs.
    run_lookup Hww1. run_lookup He1. run_lookup Hm0. run_lookup Hdmt.
    run_lookup Hmp. run_lookup Hww. run_lookup He. run_lookup Ha.
    run_accum HK. run_accum HK. run_accum HK. run_accum HK.
    run_lookup Hoy. run_lookup Hoa. run_lookup Hoe. run_lookup Hhs.
    run_accum HK. run_accum HK. run_lookup Hho. run_lookup Hxs.
    run_accum HK. run_accum HK. run_lookup Hrp. run_accum HK. eauto.
  - run_lookup Hr0. run_lookup Hm0. run_lookup Hoy. run_lookup Hhs.
    run_accum HK. run_accum HK. run_lookup Hho. run_lookup Hxs.
    run_accum HK. run_accum HK. run_lookup Hrp. run_accum HK. eauto.
Qed.

Lemma reverse_seq_S n : reverse (seq 0 (S n)) = n :: reverse (seq 0 n).
Proof. by rewrite seq_S, reverse_app. Qed.

(** The loop of [manual_grads] over the timesteps [n - 1 .. 0]. *)
Lemma manual_loop_spec n : ∀ g,
  traced (length targets) st → (n <= length targets)%nat →
  has_keys step_keys params → has_keys step_keys (W self) →
  has_keys step_keys (deltas g) →
  ((n < length targets)%nat → grads_bound_at (Z.of_nat n) g) →
  ∃ g', manual_loop self targets params st (reverse (seq 0 n)) g = Some g' ∧
    agree_above (Z.of_nat n - 1) g g' ∧
    same_shapes (deltas g) (deltas g') ∧
    (∀ k, k ∉ every_step_keys ++ erase_add_keys →
       deltas g' !! k = deltas g !! k) ∧
    ((∀ t, (t < n)%nat → ¬ not_last targets t) →
       ∀ k, k ∉ every_step_keys → deltas g' !! k = deltas g !! k) ∧
    (∀ t, (t < n)%nat → ¬ not_last targets t → terminal_zeros st g' t) ∧
    (∀ t, (t < n)%nat → not_last targets t → memory_recurrence self st g' t).
Proof.
  induction n as [|n IH]; intros g Htr Hn Hp Hs HK Hb.
  - exists g. simpl. split; [done|].
    split; [intros k _; by repeat split|].
    split; [apply same_shapes_refl|].
    repeat split; intros; try done; lia.
  - rewrite reverse_seq_S. simpl.
    destruct (manual_step_total n g Htr ltac:(lia) Hp Hs HK) as [g1 Hstep].
    { intros Hl. replace (Z.of_nat n + 1)%Z with (Z.of_nat (S n)) by lia.
      apply Hb. unfold not_last in Hl. lia. }
    rewrite Hstep. simpl.
    destruct (manual_step_inv _ _ _ Hstep) as
      (Hne & Hbound & Hsh & Hun & Hlast & Hnl).
    destruct (IH g1 Htr ltac:(lia) Hp Hs) as
      (g' & Hloop & Hag & Hsh' & Hun' & Hun1' & Hz' & Hr').
    { unfold has_keys in *. eapply Forall_impl; [exact HK|].
      intros k Hk. simpl in *. by apply (same_shapes_keys _ _ _ Hsh). }
    { intros _. exact Hbound. }
    exists g'. split; [done|].
    assert (Hag1 : ∀ k : Z, (Z.of_nat n <= k)%Z →
              drs g' !! k = drs g1 !! k ∧ dzh g' !! k = dzh g1 !! k ∧
              dmem g' !! k = dmem g1 !! k ∧
              dmemtilde g' !! k = dmemtilde g1 !! k).
    { intros k Hk. destruct (Hag k ltac:(lia)) as (? & ? & ? & ?).
      by repeat split. }
    split.
    { intros k Hk. destruct (Hag1 k ltac:(lia)) as (-> & -> & -> & ->).
      destruct (Hne k ltac:(lia)) as (-> & -> & -> & ->). by repeat split. }
    split; [by eapply same_shapes_trans|].
    split; [intros k Hk; by rewrite Hun', Hun|].
    split.
    { intros Hall k Hk. rewrite Hun1' by (intros; apply Hall; lia) || done.
      by apply (Hlast (Hall n ltac:(lia))). }
    split.
    + intros t Ht Hl. destruct (decide (t = n)) as [->|Hne'];
        [|apply Hz'; [lia|done]].
      destruct (Hlast Hl) as (_ & r0 & mem0 & ? & ? & Hd & Hm).
      exists r0, mem0. destruct (Hag1 (Z.of_nat n) ltac:(lia)) as (-> & _ & _ & ->).
      by repeat split.
    + intros t Ht Hl. destruct (decide (t = n)) as [->|Hne'];
        [|apply Hr'; [lia|done]].
      destruct (Hnl Hl) as
        (w_r_next & drs_next & w_w_next & e_next & mem0 & dmt & Hfacts).
      destruct_and!.
      exists w_r_next, drs_next, w_w_next, e_next, mem0, dmt.
      destruct (Hag1 (Z.of_nat n) ltac:(lia)) as (_ & _ & -> & ->).
      destruct (Hag1 (Z.of_nat n + 1)%Z ltac:(lia)) as (-> & _ & _ & ->).
      destruct (Hne (Z.of_nat n + 1)%Z ltac:(lia)) as (-> & _ & _ & ->).
      by repeat split.
Qed.

End Backward.

(** * The backward pass after the forward pass *)

Section ForwardBackward.

Context (self : NTM) (inputs targets : list matrix)
        (params : gmap string matrix).

Lemma fprop_traced :
  has_keys init_keys (W self) → has_keys step_keys params →
  (length inputs <= length targets)%nat →
  ∃ st, fprop self inputs targets params = Some (np_sum (st_loss st), st) ∧
        traced (length inputs) st.
Proof.
  intros Hi Hk Hlen.
  destruct (fprop_init_bound self Hi) as (st0 & Hinit & Hb).
  destruct (fprop_loop_total self inputs targets params (length inputs)
              0 st0 Hk ltac:(lia) ltac:(lia) Hb) as [st Hloop].
  exists st. unfold fprop. rewrite Hinit. simpl. rewrite Hloop. simpl.
  split; [done|].
  destruct (fprop_loop_frames self inputs targets params _ _ _ _ Hloop)
    as [Hag Hfr].
  split.
  - destruct (Hag (-1)%Z ltac:(lia)) as
      (Em & _ & _ & _ & _ & _ & _ & _ & Er & Ewr & Eww & _).
    unfold bound_at in *. by rewrite <- Em, <- Er, <- Ewr, <- Eww.
  - intros t Ht. destruct (Hfr t ltac:(lia)) as (f & _ & Hrec). eauto.
Qed.

Lemma zero_deltas_has_keys ks :
  has_keys ks params → has_keys ks (zero_deltas params).
Proof.
  unfold has_keys, zero_deltas. intros H. eapply Forall_impl; [exact H|].
  intros k [a Ha]. simpl. rewrite lookup_fmap, Ha. simpl. eauto.
Qed.

(** After a forward pass over as many inputs as targets, the manual
    backward pass returns; [g] is its final state. *)
Lemma manual_grads_returns :
  has_keys init_keys (W self) → has_keys step_keys (W self) →
  has_keys step_keys params → length inputs = length targets →
  ∃ st g,
    fprop self inputs targets params = Some (np_sum (st_loss st), st) ∧
    traced (length targets) st ∧
    manual_grads_state (set_stats self st) targets params = Some g ∧
    same_shapes (zero_deltas params) (deltas g) ∧
    (∀ k, k ∉ every_step_keys ++ erase_add_keys →
       deltas g !! k = zero_deltas params !! k) ∧
    ((∀ t, (t < length targets)%nat → ¬ not_last targets t) →
       ∀ k, k ∉ every_step_keys → deltas g !! k = zero_deltas params !! k) ∧
    (∀ t, (t < length targets)%nat → ¬ not_last targets t →
       terminal_zeros st g t) ∧
    (∀ t, (t < length targets)%nat → not_last targets t →
       memory_recurrence self st g t).
Proof.
  intros Hi Hs Hp Hlen.
  destruct (fprop_traced Hi Hp ltac:(lia)) as (st & Hf & Htr).
  rewrite Hlen in Htr.
  exists st. unfold manual_grads_state. simpl.
  destruct (manual_loop_spec (set_stats self st) targets params st
              (length targets)
              {| deltas := zero_deltas params; drs := ∅; dzh := ∅;
                 dmem := ∅; dmemtilde := ∅ |}
              Htr ltac:(lia) Hp Hs (zero_deltas_has_keys _ Hp)
              ltac:(lia)) as (g & Hloop & _ & Hrest).
  exists g. split; [done|]. split; [done|]. split; [done|]. exact Hrest.
Qed.

(** The terminal iteration reads none of the dictionaries [drs], [dzh],
    [dmem], [dmemtilde]. *)
Lemma manual_step_last_indep st t g1 g2 :
  ¬ not_last targets t → deltas g1 = deltas g2 →
  deltas <$> manual_step self targets params st t g1 =
  deltas <$> manual_step self targets params st t g2.
Proof.
  intros Hl Hd. unfold manual_step, manual_future, interface_grad.
  destruct (decide (not_last targets t)) as [|_]; [done|]. rewrite Hd.
  destruct (st_ps st !! _); [simpl|done].
  destruct (targets !! t); [simpl|done].
  destruct (st_os st !! _); [simpl|done].
  destruct (accum "oy" _ _); [simpl|done].
  destruct (accum "by" _ _); [simpl|done].
  destruct (st_rs st !! 0%Z); [simpl|done].
  destruct (st_mems st !! 0%Z); [simpl|done].
  destruct (params !! "oy"); [simpl|done].
  destruct (st_hs st !! _); [simpl|done].
  destruct (accum "ho" _ _); [simpl|done].
  destruct (accum "bo" _ _); [simpl|done].
  destruct (params !! "ho"); [simpl|done].
  destruct (st_xs st !! _); [simpl|done].
  destruct (accum "xh" _ _); [simpl|done].
  destruct (accum "bh" _ _); [simpl|done].
  destruct (st_rs st !! _); [simpl|done].
  destruct (accum "rh" _ _); [simpl|done].
  done.
Qed.

Lemma zeros_like_zero (a : matrix) :
  Forall (Forall (λ x, x = 0)) (Np.zeros_like a).
Proof.
  unfold Np.zeros_like, Np.map1. rewrite Forall_map. apply Forall_forall.
  intros row _. simpl. rewrite Forall_map. by apply Forall_forall.
Qed.

End ForwardBackward.

(** * Verification and [lossFun] *)

Section VerifierProofs.

Context (grad : (gmap string matrix → option R) →
                gmap string matrix → option (gmap string matrix))
        (compare_deltas : matrix → matrix → bool).

(** The verification loop prints the reports of the failing keys, in the
    order of the iteration, and sorts the keys into failed and passed. *)
Lemma compare_loop_spec deltas kvs : ∀ r,
  Forall (λ kv : string * matrix, is_Some (deltas !! kv.1)) kvs →
  ∃ r', compare_loop compare_deltas deltas kvs r = Some r' ∧
    printed r' = printed r ++ (kvs ≫= report_of compare_deltas deltas) ∧
    failed_keys r' =
      failed_keys r ++ (fst <$> List.filter (mismatch compare_deltas deltas) kvs).
Proof.
  induction kvs as [|[k baseline] kvs IH]; intros r Hk; simpl.
  - exists r. by rewrite !app_nil_r.
  - inversion Hk as [|? ? [candidate Hc] Hk']; subst. simpl in Hc.
    unfold compare_key, report_of, mismatch at 1. simpl. rewrite Hc. simpl.
    destruct (compare_deltas baseline candidate) eqn:Hcmp; simpl.
    + destruct (IH {| printed := printed r; failed_keys := failed_keys r;
                      passed_keys := passed_keys r ++ [k] |} Hk')
        as (r' & -> & Hp & Hf).
      exists r'. simpl in *. by repeat split.
    + change [[PStr "compare deltas FAILED for key:"; PStr k];
              [PStr "baseline"]; [PArr baseline];
              [PStr "candidate"]; [PArr candidate]]
        with (key_report k baseline candidate).
      destruct (IH {| printed := printed r ++ key_report k baseline candidate;
                      failed_keys := failed_keys r ++ [k];
                      passed_keys := passed_keys r |} Hk')
        as (r' & -> & Hp & Hf).
      exists r'. simpl in *. split; [done|].
      rewrite Hp, Hf, <- !app_assoc. done.
Qed.

(** A failing key has its report, as one block, in what was printed. *)
Lemma report_block deltas kvs k baseline :
  (k, baseline) ∈ List.filter (mismatch compare_deltas deltas) kvs →
  ∃ candidate pre post,
    deltas !! k = Some candidate ∧
    compare_deltas baseline candidate = false ∧
    kvs ≫= report_of compare_deltas deltas =
      pre ++ key_report k baseline candidate ++ post.
Proof.
  intros Hin. apply list_elem_of_In, filter_In in Hin as [Hin Hm].
  apply list_elem_of_In, list_elem_of_split in Hin as (l1 & l2 & ->).
  unfold mismatch in Hm. simpl in Hm.
  destruct (deltas !! k) as [candidate|] eqn:Hc; [|done].
  apply negb_true_iff in Hm.
  exists candidate, (l1 ≫= report_of compare_deltas deltas),
    (l2 ≫= report_of compare_deltas deltas).
  split; [done|]. split; [done|].
  rewrite bind_app, bind_cons. f_equal. f_equal.
  unfold report_of at 1. simpl. by rewrite Hc, Hm.
Qed.

Lemma fprop_set_stats self st inputs targets params :
  fprop (set_stats self st) inputs targets params =
  fprop self inputs targets params.
Proof.
  unfold fprop. change (fprop_init (set_stats self st)) with (fprop_init self).
  destruct (fprop_init self) as [st0|]; [simpl|done].
  assert (∀ steps s,
    fprop_loop (set_stats self st) inputs targets params steps s =
    fprop_loop self inputs targets params steps s) as ->; [|done].
  induction steps as [|t steps IH]; intros s; simpl; [done|].
  change (fprop_step (set_stats self st) inputs targets params t s)
    with (fprop_step self inputs targets params t s).
  destruct (fprop_step self inputs targets params t s); simpl; [apply IH|done].
Qed.

Lemma same_shapes_dom d d' : same_shapes d d' → dom d' = dom d.
Proof.
  intros H. apply set_eq. intros k. rewrite !elem_of_dom.
  by apply same_shapes_keys.
Qed.

(** The call with [manual_grad = True] on a well-keyed model. *)
Lemma lossFun_manual self inputs targets :
  oracle_total grad →
  has_keys init_keys (W self) → has_keys step_keys (W self) →
  length inputs = length targets →
  ∃ st deltas auto_deltas,
    fprop self inputs targets (W self) = Some (np_sum (st_loss st), st) ∧
    manual_grads (set_stats self st) targets (W self) = Some deltas ∧
    same_shapes (zero_deltas (W self)) deltas ∧
    grad (λ p, fst <$> fprop (set_stats self st) inputs targets p) (W self) =
      Some auto_deltas ∧
    dom auto_deltas = dom (W self) ∧
    let kvs := map_to_list auto_deltas in
    let offending := List.filter (mismatch compare_deltas deltas) kvs in
    let lines := kvs ≫= report_of compare_deltas deltas in
    ∃ r,
      failed_keys r = fst <$> offending ∧
      lossFun grad compare_deltas self inputs targets true =
        Some (set_stats (set_stats self st) st,
              if decide (0 < length offending)%nat
              then lines ++ summary r else lines,
              if decide (0 < length offending)%nat then SysExit 1
              else Return {| r_loss := st_loss st; r_deltas := deltas;
                             r_ps := st_ps st; r_w_rs := st_w_rs st;
                             r_w_ws := st_w_ws st; r_adds := st_adds st;
                             r_erases := st_erases st |}).
Proof.
  intros Hor Hi Hs Hlen.
  destruct (manual_grads_returns self inputs targets (W self) Hi Hs Hs Hlen) as
    (st & g & Hf & _ & Hg & Hsh & _).
  destruct (Hor (λ p, fst <$> fprop (set_stats self st) inputs targets p) (W self))
    as (G & HG & Hdom).
  exists st, (deltas g), G.
  split; [done|]. split; [unfold manual_grads; by rewrite Hg|].
  split; [done|]. split; [done|]. split; [done|]. simpl.
  destruct (compare_loop_spec (deltas g) (map_to_list G) (Report [] [] []))
    as (r & Hloop & Hp & Hfk).
  { apply Forall_forall. intros [k v] Hin. simpl.
    apply elem_of_map_to_list in Hin.
    assert (k ∈ dom (deltas g)) as Hk.
    { rewrite (same_shapes_dom _ _ Hsh). unfold zero_deltas.
      rewrite dom_fmap_L, <- Hdom. apply elem_of_dom. eauto. }
    by apply elem_of_dom in Hk. }
  simpl in Hp, Hfk. exists r. split; [done|].
  unfold lossFun, bprop. rewrite Hf. simpl.
  unfold manual_grads. rewrite Hg. simpl.
  unfold auto_grads. rewrite fprop_set_stats, Hf. simpl.
  rewrite HG. simpl. rewrite Hloop. simpl.
  rewrite Hfk, length_fmap, Hp.
  destruct (decide (0 < length _)%nat); simpl; done.
Qed.

(** The call with [manual_grad = False]. *)
Lemma lossFun_auto self inputs targets :
  oracle_total grad →
  has_keys init_keys (W self) → has_keys step_keys (W self) →
  (length inputs <= length targets)%nat →
  ∃ st auto_deltas,
    fprop self inputs targets (W self) = Some (np_sum (st_loss st), st) ∧
    grad (λ p, fst <$> fprop self inputs targets p) (W self) =
      Some auto_deltas ∧
    lossFun grad compare_deltas self inputs targets false =
      Some (set_stats self st, [],
            Return {| r_loss := st_loss st; r_deltas := auto_deltas;
                      r_ps := st_ps st; r_w_rs := st_w_rs st;
                      r_w_ws := st_w_ws st; r_adds := st_adds st;
                      r_erases := st_erases st |}).
Proof.
  intros Hor Hi Hs Hlen.
  destruct (fprop_traced self inputs targets (W self) Hi Hs Hlen) as (st & Hf & _).
  destruct (Hor (λ p, fst <$> fprop self inputs targets p) (W self))
    as (G & HG & _).
  exists st, G. split; [done|]. split; [done|].
  unfold lossFun, bprop, auto_grads. rewrite Hf. simpl. rewrite HG. done.
Qed.

End VerifierProofs.

(** * The oracle and a model on which the gradients differ *)

Section Analysis.

(** The oracle's value at a differentiable point. *)
Lemma derivative_eq f x l :
  derivable_pt_lim f x l → Autograd.derivative f x = l.
Proof.
  intros H. unfold Autograd.derivative.
  eapply uniqueness_limite; [|exact H].
  apply (Epsilon.epsilon_spec (inhabits 0) (λ l, derivable_pt_lim f x l)).
  eauto.
Qed.

Lemma autograd_total : oracle_total Autograd.grad.
Proof.
  intros f params. eexists. split; [reflexivity|].
  apply set_eq. intros k. rewrite !elem_of_dom, map_lookup_imap.
  destruct (params !! k); simpl; split; intros [? ?]; eauto; done.
Qed.

Lemma autograd_lookup f params G k a :
  Autograd.grad f params = Some G → params !! k = Some a →
  G !! k = Some (imap (λ i row, imap (λ j _, Autograd.partial f params k a i j) row) a).
Proof.
  intros [= <-] Ha. by rewrite map_lookup_imap, Ha.
Qed.

Lemma derivable_pt_lim_value f x l l' :
  derivable_pt_lim f x l → l = l' → derivable_pt_lim f x l'.
Proof. by intros H <-. Qed.

Lemma sigmoid1_derivative x :
  derivable_pt_lim Util.sigmoid1 x (Util.sigmoid1 x * (1 - Util.sigmoid1 x)).
Proof.
  pose proof (exp_pos (- x)) as He.
  assert (Hd : derivable_pt_lim (λ t, 1 + exp (- t)) x (0 + exp (- x) * -1)).
  { apply (derivable_pt_lim_plus (λ _, 1) (λ t, exp (- t))).
    - apply derivable_pt_lim_const.
    - apply (derivable_pt_lim_comp Ropp exp).
      + apply (derivable_pt_lim_opp id). apply derivable_pt_lim_id.
      + apply derivable_pt_lim_exp. }
  pose proof (derivable_pt_lim_div (λ _, 1) (λ t, 1 + exp (- t)) x 0 _
                (derivable_pt_lim_const 1 x) Hd ltac:(lra)) as H.
  eapply derivable_pt_lim_value.
  - eapply derivable_pt_lim_ext; [|exact H].
    intros z. unfold div_fct, Util.sigmoid1. unfold Rdiv. apply Rmult_1_l.
  - unfold Util.sigmoid1, Rsqr. field. lra.
Qed.

(** The loss of one output bit with target one, as a function of its
    logit, and its derivative. *)
Lemma logit_loss_derivative y :
  derivable_pt_lim (λ t, - ln (Util.sigmoid1 t + epsilon)) y
    (- (Util.sigmoid1 y * (1 - Util.sigmoid1 y) / (Util.sigmoid1 y + epsilon))).
Proof.
  pose proof (sigmoid1_range y) as Hs. pose proof epsilon_pos as He.
  apply (derivable_pt_lim_opp (λ t, ln (Util.sigmoid1 t + epsilon))).
  eapply derivable_pt_lim_value.
  - apply (derivable_pt_lim_comp (λ t, Util.sigmoid1 t + epsilon) ln).
    + apply (derivable_pt_lim_plus Util.sigmoid1 (λ _, epsilon)).
      * apply sigmoid1_derivative.
      * apply derivable_pt_lim_const.
    + apply derivable_pt_lim_ln. lra.
  - field. lra.
Qed.

Lemma exp_32 : 2 ^ 23 < exp 32.
Proof.
  assert (H1 : 2 < exp 1).
  { pose proof (exp_ineq1 1 ltac:(lra)). lra. }
  assert (Hd : ∀ a b, a = b + b → exp a = exp b * exp b).
  { intros a b ->. apply exp_plus. }
  assert (H2 : 2 ^ 2 < exp 2) by (rewrite (Hd 2 1) by lra; nra).
  assert (H4 : 2 ^ 4 < exp 4) by (rewrite (Hd 4 2) by lra; nra).
  assert (H8 : 2 ^ 8 < exp 8) by (rewrite (Hd 8 4) by lra; nra).
  assert (H16 : 2 ^ 16 < exp 16) by (rewrite (Hd 16 8) by lra; nra).
  rewrite (Hd 32 16) by lra. nra.
Qed.

(** At the logit [-32] the probability is below [epsilon]. *)
Lemma sigmoid1_tiny : Util.sigmoid1 (-32) < epsilon.
Proof.
  unfold Util.sigmoid1, epsilon. replace (- -32) with 32 by lra.
  apply Rinv_lt_contravar.
  - apply Rmult_lt_0_compat; [apply pow_lt; lra|]. pose proof (exp_pos 32). lra.
  - pose proof exp_32. lra.
Qed.

(** There the derivative of the loss and [p - 1] are far apart. *)
Lemma logit_gap :
  let p := Util.sigmoid1 (-32) in
  / 4 < - (p * (1 - p) / (p + epsilon)) - (0 + (p - 1)).
Proof.
  intros p. pose proof (sigmoid1_range (-32)) as Hp.
  pose proof sigmoid1_tiny as Ht. pose proof epsilon_pos as He.
  fold p in Hp, Ht.
  assert (Heps : epsilon < / 4).
  { unfold epsilon. apply Rinv_lt_contravar; lra. }
  assert (Hq : p * (1 - p) / (p + epsilon) < / 2).
  { apply (Rmult_lt_reg_r (p + epsilon)); [lra|].
    unfold Rdiv. rewrite Rmult_assoc, Rinv_l by lra. nra. }
  lra.
Qed.

End Analysis.

Section OutputBias.

Context (self : NTM) (targets : list matrix)
        (params : gmap string matrix) (st : stats).

(** What an iteration of [manual_grads] adds to [deltas['by']]:
    [dy = ps[t] - targets[t].T]. *)
Lemma manual_step_by t g g' :
  manual_step self targets params st t g = Some g' →
  ∃ p tgt old,
    st_ps st !! Z.of_nat t = Some p ∧ targets !! t = Some tgt ∧
    deltas g !! "by" = Some old ∧
    deltas g' !! "by" = Some (Np.iadd old (Np.isub p (Np.transpose tgt))).
Proof.
  unfold manual_step. intros H.
  destruct (st_ps st !! _) as [p|]; [simpl in H|done].
  destruct (targets !! t) as [tgt|]; [simpl in H|done].
  destruct (st_os st !! _) as [o|]; [simpl in H|done].
  destruct (accum "oy" _ _) as [d1|] eqn:E1; [simpl in H|done].
  destruct (accum "by" _ _) as [d2|] eqn:E2; [simpl in H|done].
  destruct (manual_future _ _ _ _ _ _) as [[g1 dz]|] eqn:Ef; [simpl in H|done].
  destruct (interface_grad _ _ _ _ _) as [do|] eqn:Ei; [simpl in H|done].
  destruct (st_hs st !! _) as [h|]; [simpl in H|done].
  destruct (accum "ho" _ _) as [d3|] eqn:E3; [simpl in H|done].
  destruct (accum "bo" _ _) as [d4|] eqn:E4; [simpl in H|done].
  destruct (params !! "ho") as [ho|]; [simpl in H|done].
  destruct (st_xs st !! _) as [x|]; [simpl in H|done].
  destruct (accum "xh" _ _) as [d5|] eqn:E5; [simpl in H|done].
  destruct (accum "bh" _ _) as [d6|] eqn:E6; [simpl in H|done].
  destruct (st_rs st !! _) as [r_prev|]; [simpl in H|done].
  destruct (accum "rh" _ _) as [d7|] eqn:E7; [simpl in H|done].
  injection H as <-. simpl.
  destruct (accum_Some _ _ _ _ E2) as (old & Hold & Hd2).
  rewrite (accum_lookup_ne _ _ _ _ _ E1) in Hold by done.
  exists p, tgt, old. split; [done|]. split; [done|]. split; [done|].
  rewrite (accum_lookup_ne _ _ _ _ _ E7), (accum_lookup_ne _ _ _ _ _ E6),
    (accum_lookup_ne _ _ _ _ _ E5), (accum_lookup_ne _ _ _ _ _ E4),
    (accum_lookup_ne _ _ _ _ _ E3) by done.
  assert (deltas g1 !! "by" = d2 !! "by") as ->.
  { destruct (decide (not_last targets t)) as [Hl|Hl].
    - destruct (manual_future_not_last _ _ _ _ _ _ _ _ Hl Ef) as
        (rh & dzh_next & w_r_next & drs_next & w_w_next & e_next & mem0 &
         dmemtilde_next & mem_prev & w_w & e & a & c1 & c2 & c3 & Hfacts).
      simpl in Hfacts. destruct_and!.
      eapply accum4_lookup_ne; [eassumption..|].
      apply (bool_decide_unpack _). vm_compute. exact I.
    - destruct (manual_future_last _ _ _ _ _ _ _ _ Hl Ef) as
        (r0 & mem0 & _ & _ & _ & Hd & _). by rewrite Hd. }
  rewrite Hd2. by rewrite lookup_insert_eq.
Qed.

(** For a single timestep the manual gradient of ['by'] is the zero array
    plus [dy]. *)
Lemma manual_grads_by_single g :
  length targets = 1%nat →
  manual_grads_state (set_stats self st) targets params = Some g →
  ∃ p tgt by0,
    st_ps st !! 0%Z = Some p ∧ targets !! 0%nat = Some tgt ∧
    params !! "by" = Some by0 ∧
    deltas g !! "by" =
      Some (Np.iadd (Np.zeros_like by0) (Np.isub p (Np.transpose tgt))).
Proof.
  intros H1 Hg. unfold manual_grads_state in Hg.
  change (self_stats (set_stats self st)) with (Some st) in Hg.
  rewrite H1 in Hg.
  change (reverse (seq 0 1)) with [0%nat] in Hg.
  cbn [mbind option_bind manual_loop] in Hg.
  destruct (manual_step (set_stats self st) targets params st 0 _)
    as [g'|] eqn:Hstep; [|done].
  cbn [mbind option_bind] in Hg. injection Hg as <-.
  destruct (manual_step_by _ _ _ Hstep) as (p & tgt & old & Hp & Ht & Hold & Hby).
  cbn [deltas] in Hold. unfold zero_deltas in Hold.
  rewrite lookup_fmap in Hold.
  destruct (params !! "by") as [by0|]; [|done].
  cbn in Hold. injection Hold as <-.
  exists p, tgt, by0. by repeat split.
Qed.

End OutputBias.

Section Mismatch.

Lemma shaped_insert self in_size hidden_size params k a v :
  shaped self in_size hidden_size params → params !! k = Some a →
  (∀ r c, Np.has_shape r c a → Np.has_shape r c v) →
  shaped self in_size hidden_size (<[k := v]> params).
Proof.
  intros Hs Ha Hv. unfold shaped in *. eapply Forall_impl; [exact Hs|].
  intros [k' [r c]]. unfold shaped_key. simpl.
  destruct (decide (k = k')) as [<-|Hne].
  - rewrite lookup_insert_eq, Ha. simpl. apply Hv.
  - by rewrite lookup_insert_ne.
Qed.

Lemma cx_shaped : shaped cx_self 1 1 cx_W.
Proof. apply (bool_decide_unpack _). vm_compute. exact I. Qed.

Lemma cx_W_by : cx_W !! "by" = Some [[-32]].
Proof. reflexivity. Qed.

Lemma cx_W_oy : cx_W !! "oy" = Some [[0]].
Proof. reflexivity. Qed.

Lemma cx_well_formed x :
  well_formed cx_self 1 1 cx_inputs cx_targets (<["by" := [[x]]]> cx_W).
Proof.
  split.
  - lia.
  - lia.
  - change (out_size cx_self) with 1%nat. lia.
  - change (N cx_self) with 2%nat || change (N cx_self) with 1%nat. lia.
  - change (M cx_self) with 1%nat. lia.
  - exact cx_shaped.
  - eapply shaped_insert; [exact cx_shaped|exact cx_W_by|].
    intros r c [Hr Hc]. split; [exact Hr|].
    inversion Hc as [|? ? Hl _]. repeat constructor. exact Hl.
  - apply (bool_decide_unpack _). vm_compute. exact I.
  - apply (bool_decide_unpack _). vm_compute. exact I.
  - reflexivity.
Qed.

Lemma shape_1_1 (a : matrix) : Np.has_shape 1 1 a → ∃ v, a = [[v]].
Proof.
  intros [Hr Hc]. destruct a as [|[|v [|]] [|]]; simpl in *; try lia;
    inversion Hc as [|? ? Hl _]; simpl in Hl; try lia. eauto.
Qed.

(** On this model the loss is the cross-entropy of the output bias. *)
Lemma cx_loss x :
  fst <$> fprop cx_self cx_inputs cx_targets (<["by" := [[x]]]> cx_W) =
  Some (- ln (Util.sigmoid1 x + epsilon)).
Proof.
  destruct (fprop_trace _ _ _ _ _ _ (cx_well_formed x)) as
    (st & fs & Hf & Hlen & _ & _ & _ & Hfr & Hloss).
  rewrite Hf. simpl. f_equal.
  destruct fs as [|f [|]]; simpl in Hlen; try lia.
  destruct (Hfr 0%nat f eq_refl) as (Hfp & _ & Hsh).
  rewrite Hloss. simpl. rewrite sum_rsub.
  rewrite (frame_loss _ _ _ _ _ _ (cx_well_formed x) 0 st f [[1]] Hfp Hsh eq_refl).
  destruct (fprop_frame_inv _ _ _ _ _ _ _ Hfp) as
    (inp & tgt' & r_prev & w_w_prev & w_r_prev & mem_prev & rh & xh & bh &
     ho & bo & oadds & badds & oerases & berases & oy & by_ & Hfacts).
  destruct_and!.
  destruct Hsh as (Ho & _).
  destruct (shape_1_1 _ Ho) as [o Eo].
  match goal with E : f_y f = _ |- _ => rewrite E end.
  rewrite Eo.
  match goal with E : _ !! "oy" = Some oy |- _ =>
    rewrite lookup_insert_ne, cx_W_oy in E by done;
    injection E as <- end.
  match goal with E : _ !! "by" = Some by_ |- _ =>
    rewrite lookup_insert_eq in E; injection E as <- end.
  cbn. unfold Np.vdot, bce. cbn.
  replace (0 * o + 0 + x) with x by ring.
  ring.
Qed.

(** The probability that the forward pass records on this model is the
    sigmoid of the output bias. *)
Lemma cx_ps st :
  fprop cx_self cx_inputs cx_targets cx_W = Some (np_sum (st_loss st), st) →
  st_ps st !! 0%Z = Some [[Util.sigmoid1 (-32)]].
Proof.
  intros Hf.
  assert (HW : <["by" := [[-32]]]> cx_W = cx_W)
    by (apply insert_id; exact cx_W_by).
  pose proof (cx_well_formed (-32)) as Hwf. rewrite HW in Hwf.
  destruct (fprop_trace _ _ _ _ _ _ Hwf) as
    (st' & fs & Hf' & Hlen & _ & _ & _ & Hfr & _).
  rewrite Hf in Hf'. injection Hf' as _ <-.
  destruct fs as [|f [|]]; cbn in Hlen; try lia.
  destruct (Hfr 0%nat f eq_refl) as (Hfp & Hrec & Hsh).
  destruct (fprop_frame_inv _ _ _ _ _ _ _ Hfp) as
    (inp & tgt' & r_prev & w_w_prev & w_r_prev & mem_prev & rh & xh & bh &
     ho & bo & oadds & badds & oerases & berases & oy & by_ & Hfacts).
  destruct_and!. unfold recorded in Hrec. destruct_and!.
  destruct Hsh as (Ho & _). destruct (shape_1_1 _ Ho) as [o Eo].
  change (Z.of_nat 0) with 0%Z in *.
  match goal with E : st_ps st !! _ = Some (f_p f) |- _ => rewrite E end.
  match goal with E : f_p f = _ |- _ => rewrite E end.
  match goal with E : f_y f = _ |- _ => rewrite E end.
  rewrite Eo.
  match goal with E : cx_W !! "oy" = Some oy |- _ =>
    rewrite cx_W_oy in E; injection E as <- end.
  match goal with E : cx_W !! "by" = Some by_ |- _ =>
    rewrite cx_W_by in E; injection E as <- end.
  cbn. unfold Np.vdot. cbn. do 3 f_equal.
  apply (f_equal Util.sigmoid1). ring.
Qed.

Lemma cx_has_init_keys : has_keys init_keys (W cx_self).
Proof. apply (bool_decide_unpack _). vm_compute. exact I. Qed.

Lemma cx_has_step_keys : has_keys step_keys (W cx_self).
Proof. apply (bool_decide_unpack _). vm_compute. exact I. Qed.

(** On this model the manual gradient of ['by'] is [p - 1] and the
    oracle's is the derivative of the loss; they differ by more than a
    quarter. *)
Lemma cx_gradients_differ :
  ∃ st d G a b,
    fprop cx_self cx_inputs cx_targets cx_W = Some (np_sum (st_loss st), st) ∧
    manual_grads (set_stats cx_self st) cx_targets cx_W = Some d ∧
    Autograd.grad (λ p, fst <$> fprop cx_self cx_inputs cx_targets p) cx_W =
      Some G ∧
    G !! "by" = Some [[a]] ∧ d !! "by" = Some [[b]] ∧ / 4 < a - b.
Proof.
  destruct (manual_grads_returns cx_self cx_inputs cx_targets cx_W
              cx_has_init_keys cx_has_step_keys cx_has_step_keys eq_refl)
    as (st & g & Hf & _ & Hg & _).
  set (p := Util.sigmoid1 (-32)).
  destruct (autograd_total (λ q, fst <$> fprop cx_self cx_inputs cx_targets q)
              cx_W) as (G & HG & _).
  exists st, (deltas g), G,
    (- (p * (1 - p) / (p + epsilon))), (0 + (p - 1)).
  split; [exact Hf|]. split; [unfold manual_grads; by rewrite Hg|].
  split; [exact HG|]. split; [|split; [|apply logit_gap]].
  - rewrite (autograd_lookup _ _ _ _ _ HG cx_W_by).
    cbn [imap]. do 3 f_equal.
    unfold Autograd.partial. apply derivative_eq.
    eapply derivable_pt_lim_ext; [|apply logit_loss_derivative].
    intros z. change (Autograd.set_entry [[-32]] 0 0 z) with [[z]].
    by rewrite cx_loss.
  - destruct (manual_grads_by_single cx_self cx_targets cx_W st g eq_refl Hg) as
      (ps & tgt & by0 & Hps & Htgt & Hby & ->).
    rewrite (cx_ps _ Hf) in Hps. injection Hps as <-.
    rewrite cx_W_by in Hby. injection Hby as <-.
    change (cx_targets !! 0%nat) with (Some [[1]]) in Htgt.
    injection Htgt as <-.
    cbn. do 3 f_equal.
Qed.

End Mismatch.



(** * Well-formed calls bind every key *)

Section WellFormedKeys.

Context (self : NTM) (in_size hidden_size : nat)
        (inputs targets : list matrix) (params : gmap string matrix).

Lemma shaped_has_keys (P : gmap string matrix) :
  shaped self in_size hidden_size P →
  has_keys step_keys P ∧ has_keys init_keys P.
Proof.
  intros H. open_shaped H.
  unfold has_keys, step_keys, init_keys. rewrite !Forall_cons.
  split_and!; try done; eauto.
Qed.

Lemma well_formed_keys :
  well_formed self in_size hidden_size inputs targets params →
  has_keys init_keys (W self) ∧ has_keys step_keys (W self) ∧
  has_keys step_keys params ∧ length inputs = length targets.
Proof.
  intros [_ _ _ _ _ Hself Hpar _ _ Hlen].
  destruct (shaped_has_keys _ Hself) as [? ?].
  destruct (shaped_has_keys _ Hpar) as [? _].
  by split_and!.
Qed.

End WellFormedKeys.

(** The shape of a parameter of a collection built as by the
    constructor. *)
Lemma shaped_lookup self in_size hidden_size (P : gmap string matrix) k r c a :
  shaped self in_size hidden_size P →
  (k, (r, c)) ∈ init_shapes in_size hidden_size (out_size self) (N self)
                  (M self) →
  P !! k = Some a → Np.has_shape r c a.
Proof.
  intros H Hin Hk. unfold shaped in H. rewrite Forall_forall in H.
  specialize (H _ Hin). unfold shaped_key in H. simpl in H.
  by rewrite Hk in H.
Qed.

Ltac in_shapes := unfold init_shapes; repeat first [by left | right].

(** * The entries of the array operations *)

Section Entries.
Import Np.

Lemma item_at_lookup (a : matrix) i j row x :
  a !! i = Some row → row !! j = Some x → item_at a i j = x.
Proof.
  intros Hi Hj. unfold item_at.
  rewrite (nth_lookup_Some _ _ _ _ Hi). by rewrite (nth_lookup_Some _ _ _ _ Hj).
Qed.

Lemma shape_lookup r c (a : matrix) i j :
  has_shape r c a → (i < r)%nat → (j < c)%nat →
  ∃ row x, a !! i = Some row ∧ length row = c ∧ row !! j = Some x ∧
           item_at a i j = x.
Proof.
  intros [Hr Hc] Hi Hj.
  destruct (lookup_lt_is_Some_2 a i ltac:(lia)) as [row Hrow].
  pose proof (Forall_lookup_1 _ _ _ _ Hc Hrow) as Hlen. simpl in Hlen.
  destruct (lookup_lt_is_Some_2 row j ltac:(lia)) as [x Hx].
  exists row, x. split_and!; try done. by eapply item_at_lookup.
Qed.

Lemma item_at_map1 f r c (a : matrix) i j :
  has_shape r c a → (i < r)%nat → (j < c)%nat →
  item_at (map1 f a) i j = f (item_at a i j).
Proof.
  intros Ha Hi Hj.
  destruct (shape_lookup _ _ _ _ _ Ha Hi Hj) as (row & x & Hrow & _ & Hx & ->).
  apply (item_at_lookup _ _ _ (map f row)); unfold map1.
  - change (map (map f) a) with (map f <$> a).
    by rewrite list_lookup_fmap, Hrow.
  - change (map f row) with (f <$> row). by rewrite list_lookup_fmap, Hx.
Qed.

Lemma item_at_map2 f r c (a b : matrix) i j :
  has_shape r c a → has_shape r c b → (i < r)%nat → (j < c)%nat →
  item_at (map2 f a b) i j = f (item_at a i j) (item_at b i j).
Proof.
  intros Ha Hb Hi Hj.
  destruct (shape_lookup _ _ _ _ _ Ha Hi Hj) as (ra & x & Hra & _ & Hx & ->).
  destruct (shape_lookup _ _ _ _ _ Hb Hi Hj) as (rb & y & Hrb & _ & Hy & ->).
  apply (item_at_lookup _ _ _ (zip_with f ra rb)); unfold map2.
  - by rewrite lookup_zip_with, Hra, Hrb.
  - by rewrite lookup_zip_with, Hx, Hy.
Qed.

Lemma inplace_row_zip f (u v : vector) :
  length u = length v → inplace_row f u v = zip_with f u v.
Proof.
  revert v. induction u as [|x u IH]; intros [|y v] Hlen; simpl in *;
    try done. f_equal. apply IH. lia.
Qed.

(** On operands of one shape the in-place operation is the element-wise
    one. *)
Lemma inplace_map2 f r c (a b : matrix) :
  has_shape r c a → has_shape r c b → inplace f a b = map2 f a b.
Proof.
  intros [Hra Hca] [Hrb Hcb]. unfold map2. subst r.
  revert b Hrb Hcb.
  induction Hca as [|x a Hx Ha IH]; intros [|y b] Hrb Hcb; simpl in *;
    try done.
  inversion Hcb; subst. f_equal; [apply inplace_row_zip; lia|].
  apply IH; [lia|done].
Qed.

Lemma take_drop_concat_column (a : matrix) : ∀ i row,
  Forall (λ row, length row = 1%nat) a → a !! i = Some row →
  take 1 (drop i (concat a)) = row.
Proof.
  induction a as [|r0 a IH]; intros i row Hall Hi; [done|].
  inversion Hall as [|? ? H0 Ha]; subst.
  destruct r0 as [|x0 [|? ?]]; simpl in H0; try lia.
  destruct i as [|i]; simpl in *.
  - by injection Hi as <-.
  - by apply IH.
Qed.

(** Reshaping a column to its own shape changes nothing. *)
Lemma reshape_column n (a : matrix) :
  has_shape n 1 a → reshape n 1 a = a.
Proof.
  intros [Hn Hc]. unfold reshape. apply list_eq. intros i.
  change (map ?f ?l) with (f <$> l). rewrite list_lookup_fmap.
  destruct (decide (i < n)%nat) as [Hi|Hi].
  - rewrite lookup_seq_lt by done. simpl. rewrite Nat.mul_1_r.
    destruct (lookup_lt_is_Some_2 a i ltac:(lia)) as [row Hrow].
    rewrite Hrow. f_equal. by apply take_drop_concat_column.
  - rewrite lookup_seq_ge by lia. simpl. symmetry.
    apply lookup_ge_None_2. lia.
Qed.

Lemma transpose_column m (d : matrix) :
  has_shape m 1 d → (0 < m)%nat → transpose d = [column 0 d].
Proof.
  intros Hd Hm. unfold transpose.
  by rewrite (has_shape_cols _ _ _ Hd Hm).
Qed.

(** The outer product of two columns. *)
Lemma item_at_outer n m (w d : matrix) i j :
  has_shape n 1 w → has_shape m 1 d → (i < n)%nat → (j < m)%nat →
  item_at (dot w (transpose d)) i j = item_at w i 0 * item_at d j 0.
Proof.
  intros Hw Hd Hi Hj.
  destruct (shape_lookup n 1 w i 0 Hw Hi ltac:(lia)) as (rw & x & Hrw & Hlw & Hx & ->).
  destruct (shape_lookup m 1 d j 0 Hd Hj ltac:(lia)) as (rd & y & Hrd & Hld & Hy & ->).
  destruct rw as [|x' [|? ?]]; simpl in Hlw; try lia.
  simpl in Hx. injection Hx as ->.
  rewrite (transpose_column m d Hd ltac:(lia)).
  apply (item_at_lookup _ _ _
           (map (λ col, vdot [x] col) (transpose [column 0 d]))).
  - unfold dot. change (map ?f w) with (f <$> w).
    by rewrite list_lookup_fmap, Hrw.
  - unfold transpose, cols. simpl hd.
    change (map ?f ?l) with (f <$> l).
    rewrite !list_lookup_fmap.
    assert (Hlen : length (column 0 d) = m).
    { unfold column. rewrite length_map. by destruct Hd. }
    rewrite Hlen, lookup_seq_lt by done. simpl.
    unfold column at 1. simpl. unfold vdot. simpl.
    unfold column. change (map ?f d) with (f <$> d).
    rewrite (nth_lookup_Some _ _ _ (nth 0 rd 0)).
    + rewrite (nth_lookup_Some _ _ _ _ Hy). f_equal. lra.
    + by rewrite list_lookup_fmap, Hrd.
Qed.

Lemma has_shape_outer n m (w d : matrix) :
  has_shape n 1 w → has_shape m 1 d → (0 < m)%nat →
  has_shape n m (dot w (transpose d)).
Proof.
  intros Hw Hd Hm.
  eapply (has_shape_dot n 1 m); [by eapply has_shape_rows| |lia].
  by apply has_shape_transpose.
Qed.

End Entries.

(** * Shapes along the backward pass *)

Section BackwardShapes.
Import Np.

Context (self : NTM) (in_size hidden_size : nat)
        (inputs targets : list matrix) (params : gmap string matrix).
Context (Hwf : well_formed self in_size hidden_size inputs targets params).
Context (st : stats) (fs : list frame).
Context (Hlenfs : length fs = length inputs).
Context (Hsh0 : shaped_at self (-1) st).
Context (Hfr : ∀ t f, fs !! t = Some f →
           fprop_frame self inputs targets params t st = Some f ∧
           recorded t f st ∧ frame_shaped self hidden_size f).

Lemma trace_frame t :
  (t < length targets)%nat →
  ∃ f, fs !! t = Some f ∧
       fprop_frame self inputs targets params t st = Some f ∧
       recorded t f st ∧ frame_shaped self hidden_size f.
Proof.
  intros Ht. destruct Hwf as [_ _ _ _ _ _ _ _ _ Hlen].
  destruct (lookup_lt_is_Some_2 fs t ltac:(lia)) as [f Hf].
  exists f. split; [done|]. by apply Hfr.
Qed.

Lemma rs_prev_shape t r :
  (t < length targets)%nat →
  st_rs st !! (Z.of_nat t - 1)%Z = Some r → has_shape (M self) 1 r.
Proof.
  intros Ht Hr. destruct t as [|t].
  - destruct Hsh0 as (H & _). change (Z.of_nat 0 - 1)%Z with (-1)%Z in Hr.
    rewrite Hr in H. exact H.
  - destruct (trace_frame t ltac:(lia)) as (f & _ & _ & Hrec & Hsh).
    unfold recorded in Hrec. destruct_and!.
    replace (Z.of_nat (S t) - 1)%Z with (Z.of_nat t) in Hr by lia.
    destruct Hsh as (_ & _ & _ & _ & _ & Hfr' & _). congruence.
Qed.

Lemma frame_hidden_shape t f :
  (t < length targets)%nat → fs !! t = Some f →
  has_shape hidden_size 1 (f_h f).
Proof.
  intros Ht Hf. destruct (Hfr t f Hf) as (Hfp & _ & _).
  destruct (fprop_frame_inv _ _ _ _ _ _ _ Hfp) as
    (inp & tgt' & r_prev & w_w_prev & w_r_prev & mem_prev & rh & xh & bh &
     ho & bo & oadds & badds & oerases & berases & oy & by_ & Hfacts).
  destruct Hfacts as (Hinp & _ & Hr & _ & _ & _ & Hrh & Hxh & Hbh & _ & _ &
    _ & _ & _ & _ & _ & _ & Hx & Hzh & Hh & _).
  pose proof (rs_prev_shape t r_prev Ht Hr) as Hrs.
  destruct Hwf as [Hi Hhid Ho HN HM Hself Hpar Hin Htg Hlen].
  eapply Forall_lookup_1 in Hin; [|exact Hinp].
  pose proof (shaped_lookup _ _ _ _ "xh" hidden_size in_size _ Hpar
                ltac:(in_shapes) Hxh).
  pose proof (shaped_lookup _ _ _ _ "rh" hidden_size (M self) _ Hpar
                ltac:(in_shapes) Hrh).
  pose proof (shaped_lookup _ _ _ _ "bh" hidden_size 1%nat _ Hpar
                ltac:(in_shapes) Hbh).
  rewrite Hh, Hzh, Hx. apply has_shape_map1. unfold hidden_pre.
  repeat apply has_shape_map2; [| |done].
  - eapply has_shape_dot; [by eapply has_shape_rows| |exact Hi].
    by apply has_shape_reshape_rev.
  - eapply has_shape_dot; [by eapply has_shape_rows| |exact HM].
    by rewrite reshape_column.
Qed.

(** The shapes of what an iteration of [manual_grads] writes into its
    dictionaries. *)
Lemma manual_step_shaped st' t g g' :
  (t < length targets)%nat →
  manual_step (set_stats self st') targets params st t g = Some g' →
  (not_last targets t →
     (∀ a, drs g !! (Z.of_nat t + 1)%Z = Some a → has_shape (M self) 1 a) ∧
     (∀ a, dzh g !! (Z.of_nat t + 1)%Z = Some a → has_shape hidden_size 1 a) ∧
     (∀ a, dmemtilde g !! (Z.of_nat t + 1)%Z = Some a →
        has_shape (N self) (M self) a)) →
  (∀ a, drs g' !! Z.of_nat t = Some a → has_shape (M self) 1 a) ∧
  (∀ a, dzh g' !! Z.of_nat t = Some a → has_shape hidden_size 1 a) ∧
  (∀ a, dmemtilde g' !! Z.of_nat t = Some a → has_shape (N self) (M self) a).
Proof.
  intros Ht H Hnext.
  destruct (trace_frame t Ht) as (f & Hf & _ & Hrec & Hsh).
  pose proof (frame_hidden_shape t f Ht Hf) as Hhs.
  destruct (trace_frame 0 ltac:(lia)) as (f0 & _ & _ & Hrec0 & Hsh0').
  unfold recorded in Hrec, Hrec0.
  destruct Hrec as (_ & Eps & _ & Eos & _ & Ehs & _ & Exs & _).
  destruct Hrec0 as (Em0 & _ & _ & _ & _ & _ & _ & _ & Er0 & _).
  change (Z.of_nat 0) with 0%Z in Em0, Er0.
  destruct Hsh as (Ho_ & Hy_ & _).
  destruct Hsh0' as (_ & _ & _ & _ & _ & Hr0 & _ & _ & Hm0).
  destruct Hwf as [Hi Hhid Hout HN HM Hself Hpar Hin Htg Hlen].
  assert (Hp_ : has_shape (out_size self) 1 (f_p f)).
  { destruct (Hfr t f Hf) as (Hfp & _ & _).
    destruct (fprop_frame_inv _ _ _ _ _ _ _ Hfp) as
      (? & ? & ? & ? & ? & ? & ? & ? & ? & ? & ? & ? & ? & ? & ? & ? & ? &
       Hfacts).
    destruct_and!.
    match goal with E : f_p f = _ |- _ => rewrite E end.
    by apply has_shape_map1. }
  unfold manual_step in H. rewrite Eps in H. cbn [mbind option_bind] in H.
  destruct (targets !! t) as [tgt|]; [cbn [mbind option_bind] in H|done].
  rewrite Eos in H. cbn [mbind option_bind] in H.
  destruct (accum "oy" _ _) as [d1|] eqn:E1; [cbn [mbind option_bind] in H|done].
  destruct (accum "by" _ _) as [d2|] eqn:E2; [cbn [mbind option_bind] in H|done].
  destruct (manual_future _ _ _ _ _ _) as [[g1 dz]|] eqn:Ef;
    [cbn [mbind option_bind] in H|done].
  destruct (interface_grad _ _ _ _ _) as [do|] eqn:Ei;
    [cbn [mbind option_bind] in H|done].
  rewrite Ehs in H. cbn [mbind option_bind] in H.
  destruct (accum "ho" _ _) as [d3|] eqn:E3; [cbn [mbind option_bind] in H|done].
  destruct (accum "bo" _ _) as [d4|] eqn:E4; [cbn [mbind option_bind] in H|done].
  destruct (params !! "ho") as [ho|] eqn:Eho; [cbn [mbind option_bind] in H|done].
  rewrite Exs in H. cbn [mbind option_bind] in H.
  destruct (accum "xh" _ _) as [d5|] eqn:E5; [cbn [mbind option_bind] in H|done].
  destruct (accum "bh" _ _) as [d6|] eqn:E6; [cbn [mbind option_bind] in H|done].
  destruct (st_rs st !! _) as [r_prev|]; [cbn [mbind option_bind] in H|done].
  destruct (accum "rh" _ _) as [d7|] eqn:E7; [cbn [mbind option_bind] in H|done].
  injection H as <-. cbn [drs dzh dmemtilde].
  assert (Hdo : has_shape hidden_size 1 do).
  { unfold interface_grad in Ei.
    destruct (params !! "oy") as [oy|] eqn:Eoy; [cbn [mbind option_bind] in Ei|done].
    assert (Hd0 : has_shape hidden_size 1
                    (dot (transpose oy)
                       (isub (f_p f) (transpose tgt)))).
    { pose proof (shaped_lookup _ _ _ _ "oy" (out_size self) hidden_size _
                    Hpar ltac:(in_shapes) Eoy).
      eapply has_shape_dot; [|by apply has_shape_inplace|exact Hout].
      rewrite length_transpose. by eapply has_shape_cols. }
    destruct (decide (not_last targets t)).
    - destruct dz as [[dzadd dzerase]|]; [cbn in Ei|done].
      destruct (params !! "oadds"); [cbn in Ei|done].
      destruct (params !! "oerases"); [cbn in Ei|done].
      injection Ei as <-. by repeat apply has_shape_inplace.
    - by injection Ei as <-. }
  split_and!.
  - intros a Ha. destruct (decide (not_last targets t)) as [Hl|Hl].
    + destruct (manual_future_not_last _ _ _ _ _ _ _ _ Hl Ef) as
        (rh & dzh_next & w_r_next & drs_next & w_w_next & e_next & mem0 &
         dmemtilde_next & mem_prev & w_w & e & a' & c1 & c2 & c3 & Hfacts).
      cbn [deltas drs dzh dmem dmemtilde] in Hfacts.
      destruct Hfacts as (Erh & Edzh & _ & _ & _ & _ & _ & _ & _ & _ & _ & _ &
        _ & _ & _ & _ & _ & _ & Edrs & _).
      rewrite Edrs, lookup_insert_eq in Ha. injection Ha as <-.
      destruct (Hnext Hl) as (_ & Hz & _).
      change (W (set_stats self st')) with (W self) in Erh.
      pose proof (shaped_lookup _ _ _ _ "rh" hidden_size (M self) _ Hself
                    ltac:(in_shapes) Erh).
      eapply has_shape_dot; [|by apply Hz|exact Hhid].
      rewrite length_transpose. by eapply has_shape_cols.
    + destruct (manual_future_last _ _ _ _ _ _ _ _ Hl Ef) as
        (r0 & mem0 & Hr0' & Hm0' & _ & _ & _ & _ & Hdrs & _).
      rewrite Hdrs, lookup_insert_eq in Ha. injection Ha as <-.
      rewrite Er0 in Hr0'. injection Hr0' as <-. by apply has_shape_map1.
  - intros a Ha. rewrite lookup_insert_eq in Ha. injection Ha as <-.
    apply has_shape_map2.
    + pose proof (shaped_lookup _ _ _ _ "ho" hidden_size hidden_size _ Hpar
                    ltac:(in_shapes) Eho).
      eapply has_shape_dot; [| |exact Hhid].
      * rewrite length_transpose. by eapply has_shape_cols.
      * apply has_shape_map2; [done|].
        by apply has_shape_map1, has_shape_map2.
    + by apply has_shape_map1, has_shape_map2.
  - intros a Ha. destruct (decide (not_last targets t)) as [Hl|Hl].
    + destruct (manual_future_not_last _ _ _ _ _ _ _ _ Hl Ef) as
        (rh & dzh_next & w_r_next & drs_next & w_w_next & e_next & mem0 &
         dmemtilde_next & mem_prev & w_w & e & a' & c1 & c2 & c3 & Hfacts).
      cbn [deltas drs dzh dmem dmemtilde] in Hfacts.
      destruct Hfacts as (_ & _ & Ewr & Edn & _ & _ & _ & _ & _ & _ & _ & _ &
        _ & _ & _ & _ & _ & _ & _ & _ & Edt).
      rewrite Edt, lookup_insert_eq in Ha. injection Ha as <-.
      destruct (Hnext Hl) as (Hd & _ & _).
      destruct (trace_frame (S t) ltac:(unfold not_last in Hl; lia))
        as (f1 & _ & _ & Hrec1 & Hsh1).
      unfold recorded in Hrec1.
      destruct Hrec1 as (_ & _ & _ & _ & _ & _ & _ & _ & _ & Ewr1 & _).
      replace (Z.of_nat (S t)) with (Z.of_nat t + 1)%Z in Ewr1 by lia.
      rewrite Ewr in Ewr1. injection Ewr1 as ->.
      destruct Hsh1 as (_ & _ & _ & _ & _ & _ & _ & (Hwr1 & _) & _).
      unfold dmem_next. apply has_shape_inplace.
      change (M (set_stats self st')) with (M self).
      rewrite reshape_column by by apply Hd.
      apply has_shape_outer; [done|by apply Hd|done].
    + destruct (manual_future_last _ _ _ _ _ _ _ _ Hl Ef) as
        (r0 & mem0 & Hr0' & Hm0' & _ & _ & _ & _ & _ & Hdt).
      rewrite Hdt, lookup_insert_eq in Ha. injection Ha as <-.
      rewrite Em0 in Hm0'. injection Hm0' as <-. by apply has_shape_map1.
Qed.

Lemma manual_loop_shaped st' n : ∀ g g',
  (n <= length targets)%nat →
  manual_loop (set_stats self st') targets params st (reverse (seq 0 n)) g =
    Some g' →
  (∀ k, (n <= k < length targets)%nat → grads_shaped self hidden_size g k) →
  ∀ k, (k < length targets)%nat → grads_shaped self hidden_size g' k.
Proof.
  induction n as [|n IH]; intros g g' Hn Hloop Hg k Hk.
  - simpl in Hloop. injection Hloop as <-. apply Hg. lia.
  - rewrite reverse_seq_S in Hloop. cbn [manual_loop] in Hloop.
    destruct (manual_step (set_stats self st') targets params st n g)
      as [g1|] eqn:Hstep; [|done].
    cbn [mbind option_bind] in Hloop.
    apply (IH g1 g' ltac:(lia) Hloop); [|done].
    intros k' Hk'. destruct (decide (k' = n)) as [->|Hne].
    + apply (manual_step_shaped st' n g g1 ltac:(lia) Hstep).
      intros Hl.
      replace (Z.of_nat n + 1)%Z with (Z.of_nat (S n)) by lia.
      apply Hg. unfold not_last in Hl. lia.
    + destruct (manual_step_inv _ _ _ _ _ _ _ Hstep) as (Hfrm & _).
      destruct (Hfrm (Z.of_nat k') ltac:(lia)) as (E1 & E2 & _ & E4).
      destruct (Hg k' ltac:(lia)) as (H1 & H2 & H3).
      unfold grads_shaped. rewrite E1, E2, E4. done.
Qed.

Lemma manual_grads_shaped g :
  manual_grads_state (set_stats self st) targets params = Some g →
  ∀ k, (k < length targets)%nat → grads_shaped self hidden_size g k.
Proof.
  intros Hg. unfold manual_grads_state in Hg.
  change (self_stats (set_stats self st)) with (Some st) in Hg.
  cbn [mbind option_bind] in Hg.
  apply (manual_loop_shaped st (length targets) _ g (Nat.le_refl _) Hg).
  intros k Hk. lia.
Qed.

End BackwardShapes.

(** * The memory gradient entry by entry *)

Section MemoryGradient.
Import Np.

Lemma dmem_next_entries self (w_r_next drs_next w_w_next e_next mem0
    dmemtilde_next : matrix) :
  (0 < M self)%nat →
  has_shape (N self) 1 w_r_next → has_shape (M self) 1 drs_next →
  has_shape (N self) 1 w_w_next → has_shape (M self) 1 e_next →
  has_shape (N self) (M self) mem0 →
  has_shape (N self) (M self) dmemtilde_next →
  has_shape (N self) (M self)
    (dmem_next self w_r_next drs_next w_w_next e_next mem0 dmemtilde_next) ∧
  ∀ i j, (i < N self)%nat → (j < M self)%nat →
    item_at (dmem_next self w_r_next drs_next w_w_next e_next mem0
               dmemtilde_next) i j =
      item_at w_r_next i 0 * item_at drs_next j 0 +
      item_at dmemtilde_next i j *
        (1 - item_at w_w_next i 0 * item_at e_next j 0).
Proof.
  intros HM Hwr Hd Hww He Hm Hdt. unfold dmem_next, rows.
  rewrite (has_shape_rows _ _ _ Hww), (has_shape_rows _ _ _ He).
  rewrite !reshape_column by done.
  pose proof (has_shape_outer _ _ _ _ Hwr Hd HM) as Ho1.
  pose proof (has_shape_outer _ _ _ _ Hww He HM) as Ho2.
  assert (Hkeep : has_shape (N self) (M self)
            (sub (ones_like mem0) (dot w_w_next (transpose e_next)))).
  { apply has_shape_map2; [by apply has_shape_map1|done]. }
  assert (Hprod : has_shape (N self) (M self)
            (multiply dmemtilde_next
               (sub (ones_like mem0) (dot w_w_next (transpose e_next))))).
  { by apply has_shape_map2. }
  unfold iadd. rewrite (inplace_map2 _ _ _ _ _ Ho1 Hprod).
  split; [by apply has_shape_map2|]. intros i j Hi Hj.
  rewrite (item_at_map2 _ _ _ _ _ _ _ Ho1 Hprod Hi Hj).
  rewrite (item_at_outer _ _ _ _ _ _ Hwr Hd Hi Hj).
  unfold multiply. rewrite (item_at_map2 _ _ _ _ _ _ _ Hdt Hkeep Hi Hj).
  unfold sub, ones_like.
  rewrite (item_at_map2 _ _ _ _ _ _ _
             (has_shape_map1 (λ _, 1) _ _ _ Hm) Ho2 Hi Hj).
  rewrite (item_at_map1 _ _ _ _ _ _ Hm Hi Hj).
  rewrite (item_at_outer _ _ _ _ _ _ Hww He Hi Hj). reflexivity.
Qed.

End MemoryGradient.

(** * The keys that the verifier reports *)

From Stdlib Require Import FunctionalExtensionality.

Section Offending.

Lemma fprop_set_stats_fun self st inputs targets :
  (λ p, fst <$> fprop (set_stats self st) inputs targets p) =
  (λ p, fst <$> fprop self inputs targets p).
Proof.
  apply functional_extensionality. intros p. by rewrite fprop_set_stats.
Qed.

Lemma offending_key (cd : matrix → matrix → bool)
    (deltas G : gmap string matrix) k v c :
  G !! k = Some v → deltas !! k = Some c → cd v c = false →
  (k, v) ∈ List.filter (mismatch cd deltas) (map_to_list G).
Proof.
  intros HG Hd Hcd. apply list_elem_of_In, filter_In. split.
  - by apply list_elem_of_In, elem_of_map_to_list.
  - unfold mismatch. cbn [fst snd]. by rewrite Hd, Hcd.
Qed.

Lemma no_offending_key (deltas : gmap string matrix)
    (kvs : list (string * matrix)) :
  List.filter (mismatch (λ _ _, true) deltas) kvs = [].
Proof.
  induction kvs as [|[k v] kvs IH]; [done|].
  cbn [List.filter]. unfold mismatch at 1. cbn [fst snd].
  by destruct (deltas !! k).
Qed.

Lemma compare_deltas_tol_gap tol a b :
  tol < a - b → compare_deltas_tol tol [[a]] [[b]] = false.
Proof.
  intros Hgap. unfold compare_deltas_tol. cbn [all2]. unfold close.
  destruct (Rle_dec (Rabs (a - b)) tol) as [Hle|Hnle]; [|reflexivity].
  exfalso. destruct (Rle_or_lt 0 (a - b)) as [H0|H0].
  - rewrite Rabs_pos_eq in Hle by lra. lra.
  - rewrite Rabs_left in Hle by lra.
    pose proof (Rabs_pos (a - b)). lra.
Qed.

End Offending.


(** * The claims *)

Lemma ex_well_formed : well_formed ex_self 1 1 ex_inputs ex_targets ex_W.
Proof.
  split; try (simpl; lia);
    apply (bool_decide_unpack _); vm_compute; exact I.
Defined.

(** C5: on a well-formed call, at every timestep from the initial one
    ([-1]) to the last, the read and the write weighting are non-negative
    columns over the [N] locations that sum to one; the initial ones are
    the softmax of [w_rsInit] and of [w_wsInit]. *)
Theorem weightings_on_simplex self in_size hidden_size inputs targets params :
  well_formed self in_size hidden_size inputs targets params →
  ∃ L st, fprop self inputs targets params = Some (L, st) ∧
    st_w_rs st !! (-1)%Z = Util.softmax <$> W self !! "w_rsInit" ∧
    st_w_ws st !! (-1)%Z = Util.softmax <$> W self !! "w_wsInit" ∧
    ∀ t : Z, (-1 <= t < Z.of_nat (length inputs))%Z →
      ∃ w_r w_w, st_w_rs st !! t = Some w_r ∧ st_w_ws st !! t = Some w_w ∧
                 simplex (N self) w_r ∧ simplex (N self) w_w.
Proof.
  intros Hwf.
  destruct (fprop_trace _ _ _ _ _ _ Hwf) as
    (st & fs & Hf & Hlen & Hinit & Hwr & Hww & Hfr & _).
  exists (np_sum (st_loss st)), st. split; [done|].
  split; [done|]. split; [done|].
  intros t Ht. destruct (decide (t = -1)%Z) as [->|Hne].
  - destruct Hinit as (_ & H1 & H2 & _).
    destruct (st_w_ws st !! _) as [w_w|]; [|done].
    destruct (st_w_rs st !! _) as [w_r|]; [|done].
    by exists w_r, w_w.
  - destruct (lookup_lt_is_Some_2 fs (Z.to_nat t) ltac:(lia)) as [f Hfs].
    destruct (Hfr _ _ Hfs) as (_ & Hrec & Hsh).
    unfold recorded in Hrec. rewrite Z2Nat.id in Hrec by lia.
    destruct Hrec as (_ & _ & _ & _ & _ & _ & _ & _ & _ & Er & Ew & _).
    destruct Hsh as (_ & _ & _ & _ & _ & _ & Sw & Sr & _).
    by exists (f_w_r f), (f_w_w f).
Qed.

Lemma weightings_on_simplex_witness :
  well_formed ex_self 1 1 ex_inputs ex_targets ex_W ∧
  ∃ L st, fprop ex_self ex_inputs ex_targets ex_W = Some (L, st) ∧
    st_w_rs st !! (-1)%Z = Util.softmax <$> W ex_self !! "w_rsInit" ∧
    st_w_ws st !! (-1)%Z = Util.softmax <$> W ex_self !! "w_wsInit" ∧
    ∀ t : Z, (-1 <= t < Z.of_nat (length ex_inputs))%Z →
      ∃ w_r w_w, st_w_rs st !! t = Some w_r ∧ st_w_ws st !! t = Some w_w ∧
                 simplex (N ex_self) w_r ∧ simplex (N ex_self) w_w.
Proof.
  split; [exact ex_well_formed|].
  apply (weightings_on_simplex _ _ _ _ _ _ ex_well_formed).
Defined.



Lemma ex_has_init_keys : has_keys init_keys (W ex_self).
Proof. apply (bool_decide_unpack _). vm_compute. exact I. Defined.

Lemma ex_has_step_keys : has_keys step_keys ex_W.
Proof. apply (bool_decide_unpack _). vm_compute. exact I. Defined.

Lemma ex_has_step_keys_self : has_keys step_keys (W ex_self).
Proof. apply (bool_decide_unpack _). vm_compute. exact I. Defined.

(** A single timestep. *)
Lemma ex_single_step : length (take 1 ex_inputs) = length (take 1 ex_targets).
Proof. reflexivity. Defined.

Lemma ex_well_formed_1 :
  well_formed ex_self 1 1 (take 1 ex_inputs) (take 1 ex_targets) ex_W.
Proof.
  split; try (simpl; lia);
    apply (bool_decide_unpack _); vm_compute; exact I.
Defined.

Lemma ex_well_formed_3 : well_formed ex_self 1 1 ex_inputs3 ex_targets3 ex_W.
Proof.
  split; try (simpl; lia);
    apply (bool_decide_unpack _); vm_compute; exact I.
Defined.

(** C4: on a well-formed call, at every timestep [t] of the forward pass
    the write weighting and the read weighting are what
    [addressing.create_weights] returns on the head parameters of the
    step, the previous weighting and the memory [mems[t-1]]; the read
    vector [rs[t]] is read from [mems[t-1]] and the memory [mems[t]] is
    written from [mems[t-1]]; the hidden pre-activation at [t] is
    [xh . xs[t] + rh . reshape(rs[t-1], (M, 1)) + bh], so that [rs[t]]
    enters the hidden layer at [t + 1]; and no iteration other than
    [t + 1] reads [rs[t]]. *)
Theorem fprop_uses_previous_memory
    self in_size hidden_size inputs targets params :
  well_formed self in_size hidden_size inputs targets params →
  ∃ L st, fprop self inputs targets params = Some (L, st) ∧
    ∀ t, (t < length inputs)%nat →
      (∃ mem_prev w_w_prev w_r_prev r_prev o hw hr w_w w_r e a x xh rh bh zh,
        st_mems st !! (Z.of_nat t - 1)%Z = Some mem_prev ∧
        st_w_ws st !! (Z.of_nat t - 1)%Z = Some w_w_prev ∧
        st_w_rs st !! (Z.of_nat t - 1)%Z = Some w_r_prev ∧
        st_rs st !! (Z.of_nat t - 1)%Z = Some r_prev ∧
        st_os st !! Z.of_nat t = Some o ∧
        write_head params o = Some hw ∧ read_head params o = Some hr ∧
        w_w = Addressing.create_weights (h_k hw) (h_beta hw) (h_g hw)
                (h_s hw) (h_gamma hw) w_w_prev mem_prev ∧
        w_r = Addressing.create_weights (h_k hr) (h_beta hr) (h_g hr)
                (h_s hr) (h_gamma hr) w_r_prev mem_prev ∧
        st_w_ws st !! Z.of_nat t = Some w_w ∧
        st_w_rs st !! Z.of_nat t = Some w_r ∧
        st_rs st !! Z.of_nat t = Some (Memory.read mem_prev w_r) ∧
        st_erases st !! Z.of_nat t = Some e ∧
        st_adds st !! Z.of_nat t = Some a ∧
        st_mems st !! Z.of_nat t = Some (Memory.write mem_prev w_w e a) ∧
        st_xs st !! Z.of_nat t = Some x ∧
        params !! "xh" = Some xh ∧ params !! "rh" = Some rh ∧
        params !! "bh" = Some bh ∧
        zh = Np.add (Np.add (Np.dot xh x)
                            (Np.dot rh (Np.reshape (M self) 1 r_prev))) bh ∧
        st_zhs st !! Z.of_nat t = Some zh ∧
        st_hs st !! Z.of_nat t = Some (Np.map1 tanh zh)) ∧
      ∀ s r', s ≠ S t →
        fprop_frame self inputs targets params s
          (with_rs (<[Z.of_nat t := r']> (st_rs st)) st) =
        fprop_frame self inputs targets params s st.
Proof.
  intros Hwf.
  destruct (well_formed_keys _ _ _ _ _ _ Hwf) as (Hi & _ & Hk & Hlen).
  destruct (fprop_returns self inputs targets params Hi Hk ltac:(lia))
    as (st & Hf & Hfr).
  exists (np_sum (st_loss st)), st. split; [done|].
  intros t Ht. split; [|intros; by apply fprop_frame_rs_frame].
  destruct (Hfr t Ht) as (f & Hfp & Hrec).
  destruct (fprop_frame_inv _ _ _ _ _ _ _ Hfp) as
    (inp & tgt' & r_prev & w_w_prev & w_r_prev & mem_prev & rh & xh & bh &
     ho & bo & oadds & badds & oerases & berases & oy & by_ & Hfacts).
  destruct_and!. unfold recorded in Hrec. destruct_and!.
  unfold address, hidden_pre in *.
  exists mem_prev, w_w_prev, w_r_prev, r_prev, (f_o f), (f_write_head f),
    (f_read_head f), (f_w_w f), (f_w_r f), (f_erase f), (f_add f), (f_x f),
    xh, rh, bh, (f_zh f).
  repeat split; try done; congruence.
Qed.

Lemma fprop_uses_previous_memory_witness :
  well_formed ex_self 1 1 ex_inputs ex_targets ex_W ∧
  ∃ L st, fprop ex_self ex_inputs ex_targets ex_W = Some (L, st) ∧
    ∀ t, (t < length ex_inputs)%nat →
      (∃ mem_prev w_w_prev w_r_prev r_prev o hw hr w_w w_r e a x xh rh bh zh,
        st_mems st !! (Z.of_nat t - 1)%Z = Some mem_prev ∧
        st_w_ws st !! (Z.of_nat t - 1)%Z = Some w_w_prev ∧
        st_w_rs st !! (Z.of_nat t - 1)%Z = Some w_r_prev ∧
        st_rs st !! (Z.of_nat t - 1)%Z = Some r_prev ∧
        st_os st !! Z.of_nat t = Some o ∧
        write_head ex_W o = Some hw ∧ read_head ex_W o = Some hr ∧
        w_w = Addressing.create_weights (h_k hw) (h_beta hw) (h_g hw)
                (h_s hw) (h_gamma hw) w_w_prev mem_prev ∧
        w_r = Addressing.create_weights (h_k hr) (h_beta hr) (h_g hr)
                (h_s hr) (h_gamma hr) w_r_prev mem_prev ∧
        st_w_ws st !! Z.of_nat t = Some w_w ∧
        st_w_rs st !! Z.of_nat t = Some w_r ∧
        st_rs st !! Z.of_nat t = Some (Memory.read mem_prev w_r) ∧
        st_erases st !! Z.of_nat t = Some e ∧
        st_adds st !! Z.of_nat t = Some a ∧
        st_mems st !! Z.of_nat t = Some (Memory.write mem_prev w_w e a) ∧
        st_xs st !! Z.of_nat t = Some x ∧
        ex_W !! "xh" = Some xh ∧ ex_W !! "rh" = Some rh ∧
        ex_W !! "bh" = Some bh ∧
        zh = Np.add (Np.add (Np.dot xh x)
                            (Np.dot rh (Np.reshape (M ex_self) 1 r_prev))) bh ∧
        st_zhs st !! Z.of_nat t = Some zh ∧
        st_hs st !! Z.of_nat t = Some (Np.map1 tanh zh)) ∧
      ∀ s r', s ≠ S t →
        fprop_frame ex_self ex_inputs ex_targets ex_W s
          (with_rs (<[Z.of_nat t := r']> (st_rs st)) st) =
        fprop_frame ex_self ex_inputs ex_targets ex_W s st.
Proof.
  split; [exact ex_well_formed|].
  apply (fprop_uses_previous_memory _ _ _ _ _ _ ex_well_formed).
Defined.

(** C7: on a well-formed call over [T >= 1] timesteps, in the manual
    backward pass the entries [drs[T-1]] and [dmemtilde[T-1]] are the
    all-zero arrays of the shapes of [rs[0]] and [mems[0]]; for [T = 1]
    the only iteration yields the same gradient collection whatever the
    dictionaries [drs], [dzh], [dmem] and [dmemtilde] hold, so the
    recurrence terms add nothing to any parameter gradient. *)
Theorem terminal_boundary_is_zero
    self in_size hidden_size inputs targets params :
  well_formed self in_size hidden_size inputs targets params →
  (0 < length targets)%nat →
  ∃ L st g r0 mem0,
    fprop self inputs targets params = Some (L, st) ∧
    manual_grads_state (set_stats self st) targets params = Some g ∧
    st_rs st !! 0%Z = Some r0 ∧ st_mems st !! 0%Z = Some mem0 ∧
    drs g !! (Z.of_nat (length targets) - 1)%Z = Some (Np.zeros_like r0) ∧
    dmemtilde g !! (Z.of_nat (length targets) - 1)%Z =
      Some (Np.zeros_like mem0) ∧
    Forall (Forall (λ x, x = 0)) (Np.zeros_like r0) ∧
    Forall (Forall (λ x, x = 0)) (Np.zeros_like mem0) ∧
    (length targets = 1%nat →
     ∀ g0, deltas g0 = zero_deltas params →
       deltas <$> manual_step (set_stats self st) targets params st 0 g0 =
       Some (deltas g)).
Proof.
  intros Hwf HT.
  destruct (well_formed_keys _ _ _ _ _ _ Hwf) as (Hi & Hs & Hp & Hlen).
  destruct (manual_grads_returns self inputs targets params Hi Hs Hp Hlen) as
    (st & g & Hf & Htr & Hg & _ & _ & _ & Hz & _).
  destruct (Hz (length targets - 1)%nat ltac:(lia)) as
    (r0 & mem0 & Hr0 & Hm0 & Hd & Hm).
  { unfold not_last. lia. }
  replace (Z.of_nat (length targets - 1)) with
    (Z.of_nat (length targets) - 1)%Z in * by lia.
  exists (np_sum (st_loss st)), st, g, r0, mem0.
  repeat (split; [done|]).
  split; [apply zeros_like_zero|]. split; [apply zeros_like_zero|].
  intros H1 g0 Hg0. unfold manual_grads_state in Hg. simpl in Hg.
  rewrite H1 in Hg. simpl in Hg.
  destruct (manual_step _ _ _ _ 0 _) as [g'|] eqn:Hstep; [|done].
  simpl in Hg. injection Hg as <-.
  rewrite (manual_step_last_indep _ _ _ _ _ g0
             {| deltas := zero_deltas params; drs := ∅; dzh := ∅;
                dmem := ∅; dmemtilde := ∅ |}); [by rewrite Hstep| |done].
  unfold not_last. lia.
Qed.

Lemma terminal_boundary_is_zero_witness :
  (well_formed ex_self 1 1 (take 1 ex_inputs) (take 1 ex_targets) ex_W ∧
   (0 < length (take 1 ex_targets))%nat ∧
   length (take 1 ex_targets) = 1%nat ∧
   ∃ L st g r0 mem0,
     fprop ex_self (take 1 ex_inputs) (take 1 ex_targets) ex_W =
       Some (L, st) ∧
     manual_grads_state (set_stats ex_self st) (take 1 ex_targets) ex_W =
       Some g ∧
     st_rs st !! 0%Z = Some r0 ∧ st_mems st !! 0%Z = Some mem0 ∧
     drs g !! (Z.of_nat (length (take 1 ex_targets)) - 1)%Z =
       Some (Np.zeros_like r0) ∧
     dmemtilde g !! (Z.of_nat (length (take 1 ex_targets)) - 1)%Z =
       Some (Np.zeros_like mem0) ∧
     Forall (Forall (λ x, x = 0)) (Np.zeros_like r0) ∧
     Forall (Forall (λ x, x = 0)) (Np.zeros_like mem0) ∧
     (length (take 1 ex_targets) = 1%nat →
      ∀ g0, deltas g0 = zero_deltas ex_W →
        deltas <$> manual_step (set_stats ex_self st) (take 1 ex_targets)
                     ex_W st 0 g0 = Some (deltas g))) ∧
  (well_formed ex_self 1 1 ex_inputs3 ex_targets3 ex_W ∧
   (0 < length ex_targets3)%nat ∧
   ∃ L st g r0 mem0,
     fprop ex_self ex_inputs3 ex_targets3 ex_W = Some (L, st) ∧
     manual_grads_state (set_stats ex_self st) ex_targets3 ex_W = Some g ∧
     st_rs st !! 0%Z = Some r0 ∧ st_mems st !! 0%Z = Some mem0 ∧
     drs g !! (Z.of_nat (length ex_targets3) - 1)%Z =
       Some (Np.zeros_like r0) ∧
     dmemtilde g !! (Z.of_nat (length ex_targets3) - 1)%Z =
       Some (Np.zeros_like mem0) ∧
     Forall (Forall (λ x, x = 0)) (Np.zeros_like r0) ∧
     Forall (Forall (λ x, x = 0)) (Np.zeros_like mem0) ∧
     (length ex_targets3 = 1%nat →
      ∀ g0, deltas g0 = zero_deltas ex_W →
        deltas <$> manual_step (set_stats ex_self st) ex_targets3 ex_W st 0
                     g0 = Some (deltas g))).
Proof.
  assert (H1 : (0 < length (take 1 ex_targets))%nat) by (simpl; lia).
  assert (H3 : (0 < length ex_targets3)%nat) by (simpl; lia).
  split.
  - split; [exact ex_well_formed_1|]. split; [exact H1|].
    split; [reflexivity|].
    apply (terminal_boundary_is_zero _ _ _ _ _ _ ex_well_formed_1 H1).
  - split; [exact ex_well_formed_3|]. split; [exact H3|].
    apply (terminal_boundary_is_zero _ _ _ _ _ _ ex_well_formed_3 H3).
Defined.

(** C8: on a well-formed call, in the manual backward pass, at every
    timestep [t < T - 1] the memory gradient [dmem[t]] is an [N x M]
    array whose entry [(i, j)] is the entry of the outer product of
    [w_rs[t+1]] with [drs[t+1]], [w_rs[t+1][i] * drs[t+1][j]], plus the
    product of the entry of [dmemtilde[t+1]] with that of the keep mask,
    one minus [w_ws[t+1][i] * erases[t+1][j]]. *)
Theorem memory_gradient_recurrence
    self in_size hidden_size inputs targets params :
  well_formed self in_size hidden_size inputs targets params →
  ∃ L st g,
    fprop self inputs targets params = Some (L, st) ∧
    manual_grads_state (set_stats self st) targets params = Some g ∧
    ∀ t : nat, (Z.of_nat t < Z.of_nat (length targets) - 1)%Z →
      ∃ w_r_next drs_next w_w_next e_next dmemtilde_next dmem_t,
        st_w_rs st !! (Z.of_nat t + 1)%Z = Some w_r_next ∧
        drs g !! (Z.of_nat t + 1)%Z = Some drs_next ∧
        st_w_ws st !! (Z.of_nat t + 1)%Z = Some w_w_next ∧
        st_erases st !! (Z.of_nat t + 1)%Z = Some e_next ∧
        dmemtilde g !! (Z.of_nat t + 1)%Z = Some dmemtilde_next ∧
        dmem g !! Z.of_nat t = Some dmem_t ∧
        Np.has_shape (N self) 1 w_r_next ∧
        Np.has_shape (M self) 1 drs_next ∧
        Np.has_shape (N self) 1 w_w_next ∧
        Np.has_shape (M self) 1 e_next ∧
        Np.has_shape (N self) (M self) dmemtilde_next ∧
        Np.has_shape (N self) (M self) dmem_t ∧
        ∀ i j, (i < N self)%nat → (j < M self)%nat →
          item_at dmem_t i j =
            item_at w_r_next i 0 * item_at drs_next j 0 +
            item_at dmemtilde_next i j *
              (1 - item_at w_w_next i 0 * item_at e_next j 0).
Proof.
  intros Hwf.
  destruct (well_formed_keys _ _ _ _ _ _ Hwf) as (Hi & Hs & Hp & Hlen).
  destruct (fprop_trace _ _ _ _ _ _ Hwf) as
    (st & fs & Hf & Hlenfs & Hsh0 & _ & _ & Hfr & _).
  destruct (manual_grads_returns self inputs targets params Hi Hs Hp Hlen) as
    (st' & g & Hf' & _ & Hg & _ & _ & _ & _ & Hr).
  rewrite Hf in Hf'. injection Hf' as _ <-.
  exists (np_sum (st_loss st)), st, g. split; [done|]. split; [done|].
  intros t Ht.
  assert (Ht1 : (S t < length targets)%nat) by lia.
  destruct (Hr t ltac:(lia) Ht) as
    (w_r_next & drs_next & w_w_next & e_next & mem0 & dmt & Ewr & Edrs & Eww &
     Ee & Em0 & Edt & Edmem & _).
  destruct (trace_frame _ _ _ _ _ _ Hwf st fs Hlenfs Hfr (S t) Ht1)
    as (f1 & _ & _ & Hrec1 & Hsh1).
  destruct (trace_frame _ _ _ _ _ _ Hwf st fs Hlenfs Hfr 0 ltac:(lia))
    as (f0 & _ & _ & Hrec0 & Hsh0').
  unfold recorded in Hrec1, Hrec0.
  replace (Z.of_nat (S t)) with (Z.of_nat t + 1)%Z in Hrec1 by lia.
  change (Z.of_nat 0) with 0%Z in Hrec0.
  destruct Hrec1 as (_ & _ & _ & _ & _ & _ & _ & _ & _ & Ewr1 & Eww1 & _ & Ee1).
  destruct Hrec0 as (Em0' & _).
  destruct Hsh1 as (_ & _ & _ & _ & He1 & _ & (Hww1 & _) & (Hwr1 & _) & _).
  destruct Hsh0' as (_ & _ & _ & _ & _ & _ & _ & _ & Hm0).
  rewrite Ewr in Ewr1. injection Ewr1 as ->.
  rewrite Eww in Eww1. injection Eww1 as ->.
  rewrite Ee in Ee1. injection Ee1 as ->.
  rewrite Em0 in Em0'. injection Em0' as ->.
  destruct (manual_grads_shaped _ _ _ _ _ _ Hwf st fs Hlenfs Hsh0 Hfr g Hg
              (S t) Ht1) as (Hdrs & _ & Hdmt).
  replace (Z.of_nat (S t)) with (Z.of_nat t + 1)%Z in Hdrs, Hdmt by lia.
  specialize (Hdrs _ Edrs). specialize (Hdmt _ Edt).
  destruct Hwf as [_ _ _ _ HM _ _ _ _ _].
  destruct (dmem_next_entries self _ _ _ _ _ _ HM Hwr1 Hdrs Hww1 He1 Hm0 Hdmt)
    as [Hshape Hentries].
  eexists _, _, _, _, _, _.
  split; [exact Ewr|]. split; [exact Edrs|]. split; [exact Eww|].
  split; [exact Ee|]. split; [exact Edt|]. split; [exact Edmem|].
  split_and!; done.
Qed.

Lemma memory_gradient_recurrence_witness :
  well_formed ex_self 1 1 ex_inputs3 ex_targets3 ex_W ∧
  ∃ L st g,
    fprop ex_self ex_inputs3 ex_targets3 ex_W = Some (L, st) ∧
    manual_grads_state (set_stats ex_self st) ex_targets3 ex_W = Some g ∧
    ∀ t : nat, (Z.of_nat t < Z.of_nat (length ex_targets3) - 1)%Z →
      ∃ w_r_next drs_next w_w_next e_next dmemtilde_next dmem_t,
        st_w_rs st !! (Z.of_nat t + 1)%Z = Some w_r_next ∧
        drs g !! (Z.of_nat t + 1)%Z = Some drs_next ∧
        st_w_ws st !! (Z.of_nat t + 1)%Z = Some w_w_next ∧
        st_erases st !! (Z.of_nat t + 1)%Z = Some e_next ∧
        dmemtilde g !! (Z.of_nat t + 1)%Z = Some dmemtilde_next ∧
        dmem g !! Z.of_nat t = Some dmem_t ∧
        Np.has_shape (N ex_self) 1 w_r_next ∧
        Np.has_shape (M ex_self) 1 drs_next ∧
        Np.has_shape (N ex_self) 1 w_w_next ∧
        Np.has_shape (M ex_self) 1 e_next ∧
        Np.has_shape (N ex_self) (M ex_self) dmemtilde_next ∧
        Np.has_shape (N ex_self) (M ex_self) dmem_t ∧
        ∀ i j, (i < N ex_self)%nat → (j < M ex_self)%nat →
          item_at dmem_t i j =
            item_at w_r_next i 0 * item_at drs_next j 0 +
            item_at dmemtilde_next i j *
              (1 - item_at w_w_next i 0 * item_at e_next j 0).
Proof.
  split; [exact ex_well_formed_3|].
  apply (memory_gradient_recurrence _ _ _ _ _ _ ex_well_formed_3).
Defined.

(** C10: on a well-formed call the manual backward pass returns; an
    iteration at the terminal timestep (where [t < T - 1] fails) leaves
    the entries of ['oadds'], ['badds'], ['oerases'] and ['berases'] as
    they were; and for a sequence of length one the manual gradients of
    these four parameters are the zero arrays of the initialisation. *)
Theorem erase_add_gradients_skip_terminal
    self in_size hidden_size inputs targets params :
  well_formed self in_size hidden_size inputs targets params →
  ∃ L st d,
    fprop self inputs targets params = Some (L, st) ∧
    manual_grads (set_stats self st) targets params = Some d ∧
    (∀ t g g' k,
       ¬ (Z.of_nat t < Z.of_nat (length targets) - 1)%Z →
       manual_step (set_stats self st) targets params st t g = Some g' →
       k ∈ erase_add_keys → deltas g' !! k = deltas g !! k) ∧
    (length targets = 1%nat →
     ∀ k, k ∈ erase_add_keys →
       d !! k = Np.zeros_like <$> params !! k ∧
       ∀ a, d !! k = Some a → Forall (Forall (λ x, x = 0)) a).
Proof.
  intros Hwf.
  destruct (well_formed_keys _ _ _ _ _ _ Hwf) as (Hi & Hs & Hp & Hlen).
  destruct (manual_grads_returns self inputs targets params Hi Hs Hp Hlen) as
    (st & g & Hf & Htr & Hg & _ & _ & Hun & _ & _).
  exists (np_sum (st_loss st)), st, (deltas g).
  split; [done|]. split; [unfold manual_grads; by rewrite Hg|].
  assert (Hdisj : ∀ k, k ∈ erase_add_keys → k ∉ every_step_keys).
  { intros k Hk. unfold erase_add_keys in Hk.
    rewrite !elem_of_cons, elem_of_nil in Hk.
    destruct Hk as [->|[->|[->|[->|[]]]]];
      apply (bool_decide_unpack _); vm_compute; exact I. }
  split.
  - intros t g1 g2 k Hl Hstep Hk.
    destruct (manual_step_inv _ _ _ _ _ _ _ Hstep) as (_ & _ & _ & _ & Hlast & _).
    destruct (Hlast Hl) as [Hk' _]. by apply Hk', Hdisj.
  - intros H1 k Hk.
    assert (Hz : deltas g !! k = Np.zeros_like <$> params !! k).
    { rewrite Hun; [by unfold zero_deltas; rewrite lookup_fmap| |by apply Hdisj].
      intros t Ht. unfold not_last. lia. }
    split; [exact Hz|]. intros a Ha. rewrite Hz in Ha.
    destruct (params !! k) as [b|]; [|done]. injection Ha as <-.
    apply zeros_like_zero.
Qed.

Lemma erase_add_gradients_skip_terminal_witness :
  well_formed ex_self 1 1 (take 1 ex_inputs) (take 1 ex_targets) ex_W ∧
  ∃ L st d,
    fprop ex_self (take 1 ex_inputs) (take 1 ex_targets) ex_W = Some (L, st) ∧
    manual_grads (set_stats ex_self st) (take 1 ex_targets) ex_W = Some d ∧
    (∀ t g g' k,
       ¬ (Z.of_nat t < Z.of_nat (length (take 1 ex_targets)) - 1)%Z →
       manual_step (set_stats ex_self st) (take 1 ex_targets) ex_W st t g =
         Some g' →
       k ∈ erase_add_keys → deltas g' !! k = deltas g !! k) ∧
    (length (take 1 ex_targets) = 1%nat →
     ∀ k, k ∈ erase_add_keys →
       d !! k = Np.zeros_like <$> ex_W !! k ∧
       ∀ a, d !! k = Some a → Forall (Forall (λ x, x = 0)) a).
Proof.
  split; [exact ex_well_formed_1|].
  apply (erase_add_gradients_skip_terminal _ _ _ _ _ _ ex_well_formed_1).
Defined.
Lemma cx_well_formed_W : well_formed cx_self 1 1 cx_inputs cx_targets cx_W.
Proof.
  pose proof (cx_well_formed (-32)) as H.
  by rewrite (insert_id cx_W "by" [[-32]] cx_W_by) in H.
Qed.

(** C1, at a failing input: on the model [cx_self] (every size one, every
    parameter zero but the output bias [-32]), one timestep with the input
    [0] and the target bit [1], the manual backward pass and the oracle
    both return, and their gradients of ['by'] differ by more than a
    quarter: no tolerance below that accepts them. *)
Theorem manual_gradient_is_not_the_oracle_gradient :
  well_formed cx_self 1 1 cx_inputs cx_targets cx_W ∧
  ∃ L st d G a b,
    fprop cx_self cx_inputs cx_targets cx_W = Some (L, st) ∧
    manual_grads (set_stats cx_self st) cx_targets cx_W = Some d ∧
    Autograd.grad (λ p, fst <$> fprop cx_self cx_inputs cx_targets p) cx_W =
      Some G ∧
    G !! "by" = Some [[a]] ∧ d !! "by" = Some [[b]] ∧ / 4 < a - b ∧
    ∀ tol, tol <= / 4 → compare_deltas_tol tol [[a]] [[b]] = false.
Proof.
  split; [exact cx_well_formed_W|].
  destruct cx_gradients_differ as (st & d & G & a & b & Hf & Hd & HG & Ha & Hb & Hgap).
  exists (np_sum (st_loss st)), st, d, G, a, b.
  split; [exact Hf|]. split; [exact Hd|]. split; [exact HG|].
  split; [exact Ha|]. split; [exact Hb|]. split; [exact Hgap|].
  intros tol Htol. unfold compare_deltas_tol. cbn [all2]. unfold close.
  destruct (Rle_dec (Rabs (a - b)) tol) as [Hle|Hnle]; [|reflexivity].
  exfalso. rewrite Rabs_pos_eq in Hle by lra. lra.
Qed.

(** C2, as the claim has it, fails: on the model [cx_self], one timestep,
    the call with [manual_grad = False] returns a gradient collection
    that is not the one of the manual backward pass; the entries of
    ['by'] are not the same. *)
Lemma returned_gradient_is_not_manual :
  ∃ self' out res st d,
    lossFun Autograd.grad (compare_deltas_tol (/ 100000)) cx_self cx_inputs
      cx_targets false = Some (self', out, Return res) ∧
    fprop cx_self cx_inputs cx_targets cx_W = Some (np_sum (st_loss st), st) ∧
    manual_grads (set_stats cx_self st) cx_targets cx_W = Some d ∧
    r_deltas res ≠ d.
Proof.
  destruct cx_gradients_differ as (st & d & G & a & b & Hf & Hd & HG & Ha & Hb & Hgap).
  destruct (lossFun_auto Autograd.grad (compare_deltas_tol (/ 100000)) cx_self
              cx_inputs cx_targets autograd_total cx_has_init_keys
              cx_has_step_keys ltac:(reflexivity))
    as (st' & G' & Hf' & HG' & Hloss).
  change (W cx_self) with cx_W in *.
  rewrite Hf in Hf'. injection Hf' as _ <-.
  rewrite HG in HG'. injection HG' as <-.
  eexists _, _, _, st, d. split; [exact Hloss|]. split; [exact Hf|].
  split; [exact Hd|]. simpl. intros ->.
  rewrite Ha in Hb. injection Hb as ->. lra.
Qed.

(** C2, amended: on a well-formed call with [manual_grad = False]
    nothing is compared or printed, the call returns, and the gradients
    of the returned tuple are the collection that the oracle computes for
    [fprop] on [self.W]; the manual backward pass is not run. *)
Theorem lossFun_without_verification
    grad compare_deltas self in_size hidden_size inputs targets :
  oracle_total grad →
  well_formed self in_size hidden_size inputs targets (W self) →
  ∃ st auto_deltas,
    fprop self inputs targets (W self) = Some (np_sum (st_loss st), st) ∧
    grad (λ p, fst <$> fprop self inputs targets p) (W self) =
      Some auto_deltas ∧
    lossFun grad compare_deltas self inputs targets false =
      Some (set_stats self st, [],
            Return {| r_loss := st_loss st; r_deltas := auto_deltas;
                      r_ps := st_ps st; r_w_rs := st_w_rs st;
                      r_w_ws := st_w_ws st; r_adds := st_adds st;
                      r_erases := st_erases st |}).
Proof.
  intros Hor Hwf.
  destruct (well_formed_keys _ _ _ _ _ _ Hwf) as (Hi & Hs & _ & Hlen).
  apply lossFun_auto; try done. lia.
Qed.

Lemma lossFun_without_verification_witness :
  oracle_total Autograd.grad ∧
  well_formed ex_self 1 1 ex_inputs ex_targets (W ex_self) ∧
  ∃ st auto_deltas,
    fprop ex_self ex_inputs ex_targets (W ex_self) =
      Some (np_sum (st_loss st), st) ∧
    Autograd.grad (λ p, fst <$> fprop ex_self ex_inputs ex_targets p)
      (W ex_self) = Some auto_deltas ∧
    lossFun Autograd.grad (compare_deltas_tol (/ 100000)) ex_self ex_inputs
      ex_targets false =
      Some (set_stats ex_self st, [],
            Return {| r_loss := st_loss st; r_deltas := auto_deltas;
                      r_ps := st_ps st; r_w_rs := st_w_rs st;
                      r_w_ws := st_w_ws st; r_adds := st_adds st;
                      r_erases := st_erases st |}).
Proof.
  split; [exact autograd_total|]. split; [exact ex_well_formed|].
  apply (lossFun_without_verification Autograd.grad
           (compare_deltas_tol (/ 100000)) ex_self 1 1 ex_inputs ex_targets
           autograd_total ex_well_formed).
Defined.

(** C3: on a well-formed call with [manual_grad = True] the manual and
    the oracle's gradients are compared key by key over the oracle's
    keys.  If the comparison fails for some key, the call leaves through
    [sys.exit(1)] and what it printed holds, for every failing key, the
    report of that key: its name, the baseline (oracle) array and the
    candidate (manual) array.  If it fails for no key, nothing is printed
    and the call returns the manual gradient collection. *)
Theorem verifier_fails_fast
    grad compare_deltas self in_size hidden_size inputs targets :
  oracle_total grad →
  well_formed self in_size hidden_size inputs targets (W self) →
  ∃ st deltas auto_deltas self' out r,
    fprop self inputs targets (W self) = Some (np_sum (st_loss st), st) ∧
    manual_grads (set_stats self st) targets (W self) = Some deltas ∧
    grad (λ p, fst <$> fprop (set_stats self st) inputs targets p) (W self) =
      Some auto_deltas ∧
    lossFun grad compare_deltas self inputs targets true =
      Some (self', out, r) ∧
    let offending :=
      List.filter (mismatch compare_deltas deltas) (map_to_list auto_deltas) in
    (offending ≠ [] →
       r = SysExit 1 ∧ (1 ≠ 0)%Z ∧
       ∀ k baseline, (k, baseline) ∈ offending →
         ∃ candidate pre post,
           auto_deltas !! k = Some baseline ∧ deltas !! k = Some candidate ∧
           compare_deltas baseline candidate = false ∧
           out = pre ++ key_report k baseline candidate ++ post) ∧
    (offending = [] →
       out = [] ∧
       r = Return {| r_loss := st_loss st; r_deltas := deltas;
                     r_ps := st_ps st; r_w_rs := st_w_rs st;
                     r_w_ws := st_w_ws st; r_adds := st_adds st;
                     r_erases := st_erases st |}).
Proof.
  intros Hor Hwf.
  destruct (well_formed_keys _ _ _ _ _ _ Hwf) as (Hi & Hs & _ & Hlen).
  destruct (lossFun_manual grad compare_deltas self inputs targets Hor Hi Hs Hlen)
    as (st & deltas & G & Hf & Hd & _ & HG & _ & r & Hfk & Hloss).
  exists st, deltas, G. eexists _, _, _.
  split; [exact Hf|]. split; [exact Hd|]. split; [exact HG|].
  split; [exact Hloss|]. simpl.
  destruct (decide (0 < length _)%nat) as [Hpos|Hnpos]; split.
  - intros _. split; [done|]. split; [done|]. intros k baseline Hin.
    destruct (report_block compare_deltas deltas _ _ _ Hin)
      as (candidate & pre & post & Hc & Hcmp & Hlines).
    exists candidate, pre, (post ++ summary r).
    split.
    { apply list_elem_of_In, filter_In in Hin as [Hin _].
      by apply list_elem_of_In, elem_of_map_to_list in Hin. }
    split; [done|]. split; [done|].
    rewrite Hlines, <- !app_assoc. done.
  - intros Hnil. rewrite Hnil in Hpos. simpl in Hpos. lia.
  - intros Hne. destruct (List.filter _ _); [done|]. simpl in Hnpos. lia.
  - intros Hnil. split; [|done].
    assert (Hall : ∀ kvs,
      List.filter (mismatch compare_deltas deltas) kvs = [] →
      kvs ≫= report_of compare_deltas deltas = []).
    { induction kvs as [|[k v] kvs IH]; simpl; [done|].
      unfold mismatch at 1, report_of at 1. simpl.
      destruct (deltas !! k) as [c|]; simpl.
      - destruct (compare_deltas v c); simpl; [exact IH|done].
      - exact IH. }
    by apply Hall.
Qed.

Lemma verifier_fails_fast_witness :
  (oracle_total Autograd.grad ∧
   well_formed cx_self 1 1 cx_inputs cx_targets (W cx_self) ∧
   ∃ st deltas auto_deltas self' out r,
     fprop cx_self cx_inputs cx_targets (W cx_self) =
       Some (np_sum (st_loss st), st) ∧
     manual_grads (set_stats cx_self st) cx_targets (W cx_self) =
       Some deltas ∧
     Autograd.grad
       (λ p, fst <$> fprop (set_stats cx_self st) cx_inputs cx_targets p)
       (W cx_self) = Some auto_deltas ∧
     lossFun Autograd.grad (compare_deltas_tol (/ 100000)) cx_self cx_inputs
       cx_targets true = Some (self', out, r) ∧
     List.filter (mismatch (compare_deltas_tol (/ 100000)) deltas)
       (map_to_list auto_deltas) ≠ [] ∧
     r = SysExit 1 ∧
     ∃ baseline candidate pre post,
       auto_deltas !! "by" = Some baseline ∧
       deltas !! "by" = Some candidate ∧
       compare_deltas_tol (/ 100000) baseline candidate = false ∧
       out = pre ++ key_report "by" baseline candidate ++ post) ∧
  (oracle_total Autograd.grad ∧
   well_formed ex_self 1 1 ex_inputs ex_targets (W ex_self) ∧
   ∃ st deltas auto_deltas self' out r,
     fprop ex_self ex_inputs ex_targets (W ex_self) =
       Some (np_sum (st_loss st), st) ∧
     manual_grads (set_stats ex_self st) ex_targets (W ex_self) =
       Some deltas ∧
     Autograd.grad
       (λ p, fst <$> fprop (set_stats ex_self st) ex_inputs ex_targets p)
       (W ex_self) = Some auto_deltas ∧
     lossFun Autograd.grad (λ _ _, true) ex_self ex_inputs ex_targets true =
       Some (self', out, r) ∧
     List.filter (mismatch (λ _ _, true) deltas) (map_to_list auto_deltas) =
       [] ∧
     out = [] ∧
     r = Return {| r_loss := st_loss st; r_deltas := deltas;
                   r_ps := st_ps st; r_w_rs := st_w_rs st;
                   r_w_ws := st_w_ws st; r_adds := st_adds st;
                   r_erases := st_erases st |}).
Proof.
  split.
  - split; [exact autograd_total|]. split; [exact cx_well_formed_W|].
    destruct (verifier_fails_fast Autograd.grad (compare_deltas_tol (/ 100000))
                cx_self 1 1 cx_inputs cx_targets autograd_total
                cx_well_formed_W)
      as (st & deltas & G & self' & out & r & Hf & Hd & HG & Hloss & Hexit & _).
    destruct cx_gradients_differ as
      (st' & d' & G' & a & b & Hf' & Hd' & HG' & Ha & Hb & Hgap).
    change (W cx_self) with cx_W in Hf, Hd, HG.
    rewrite Hf' in Hf. injection Hf as _ <-.
    rewrite Hd' in Hd. injection Hd as <-.
    rewrite fprop_set_stats_fun, HG' in HG. injection HG as <-.
    assert (Hcmp : compare_deltas_tol (/ 100000) [[a]] [[b]] = false).
    { apply compare_deltas_tol_gap. lra. }
    pose proof (offending_key (compare_deltas_tol (/ 100000)) d' G' "by"
                  [[a]] [[b]] Ha Hb Hcmp) as Hin.
    assert (Hne : List.filter (mismatch (compare_deltas_tol (/ 100000)) d')
                    (map_to_list G') ≠ []).
    { intros Hnil. rewrite Hnil in Hin. by apply elem_of_nil in Hin. }
    destruct (Hexit Hne) as (Hr & _ & Hrep).
    destruct (Hrep "by" [[a]] Hin) as (c & pre & post & _ & Hc & _ & Hout).
    rewrite Hb in Hc. injection Hc as <-.
    exists st', d', G', self', out, r.
    split; [exact Hf'|]. split; [exact Hd'|].
    split; [by rewrite fprop_set_stats_fun|]. split; [exact Hloss|].
    split; [exact Hne|]. split; [exact Hr|].
    exists [[a]], [[b]], pre, post.
    split; [exact Ha|]. split; [exact Hb|]. split; [exact Hcmp|exact Hout].
  - split; [exact autograd_total|]. split; [exact ex_well_formed|].
    destruct (verifier_fails_fast Autograd.grad (λ _ _, true)
                ex_self 1 1 ex_inputs ex_targets autograd_total
                ex_well_formed)
      as (st & deltas & G & self' & out & r & Hf & Hd & HG & Hloss & _ & Hret).
    destruct (Hret (no_offending_key deltas (map_to_list G))) as [Hout Hr].
    exists st, deltas, G, self', out, r.
    split; [exact Hf|]. split; [exact Hd|]. split; [exact HG|].
    split; [exact Hloss|]. split; [apply no_offending_key|].
    split; [exact Hout|exact Hr].
Defined.



(** * The keys of the trace *)

Section TraceKeys.

Context (self : NTM) (inputs targets : list matrix)
        (params : gmap string matrix).

Lemma keys_between_insert lo t m v :
  (lo <= Z.of_nat t)%Z → keys_between lo t m →
  keys_between lo (S t) (<[Z.of_nat t := v]> m).
Proof.
  intros Hlo H z. destruct (decide (z = Z.of_nat t)) as [->|Hne].
  - rewrite lookup_insert_eq. split; [lia | eauto].
  - rewrite lookup_insert_ne by done. specialize (H z). rewrite H. lia.
Qed.

Lemma keys_between_empty : keys_between 0 0 ∅.
Proof.
  intros z. rewrite lookup_empty. split; [by intros [? ?] | simpl; lia].
Qed.

Lemma keys_between_singleton v : keys_between (-1) 0 {[ (-1)%Z := v ]}.
Proof.
  intros z. destruct (decide (z = (-1)%Z)) as [->|Hne].
  - rewrite lookup_singleton_eq. split; [simpl; lia | eauto].
  - rewrite lookup_singleton_ne by done. split; [by intros [? ?] | simpl; lia].
Qed.

Lemma record_frame_keys t f st :
  trace_keys t st → trace_keys (S t) (record_frame t f st).
Proof.
  unfold trace_keys, record_frame; simpl. intros H. destruct_and!.
  split_and!; apply keys_between_insert; (lia || done).
Qed.

Lemma fprop_init_keys st0 : fprop_init self = Some st0 → trace_keys 0 st0.
Proof.
  unfold fprop_init. intros H.
  destruct (W self !! "rsInit"); [simpl in H|done].
  destruct (W self !! "w_wsInit"); [simpl in H|done].
  destruct (W self !! "w_rsInit"); [simpl in H|done].
  destruct (W self !! "memsInit"); [simpl in H|done].
  injection H as <-. unfold trace_keys; simpl.
  split_and!; (apply keys_between_empty || apply keys_between_singleton).
Qed.

Lemma fprop_loop_keys n : ∀ a st st',
  fprop_loop self inputs targets params (seq a n) st = Some st' →
  trace_keys a st → trace_keys (a + n) st'.
Proof.
  induction n as [|n IH]; intros a st st' Hloop Hk; simpl in Hloop.
  - injection Hloop as <-. by rewrite Nat.add_0_r.
  - unfold fprop_step in Hloop.
    destruct (fprop_frame self inputs targets params a st) as [f|];
      [simpl in Hloop | discriminate].
    replace (a + S n)%nat with (S a + n)%nat by lia.
    eapply IH; [exact Hloop|]. by apply record_frame_keys.
Qed.

Lemma fprop_keys L st :
  fprop self inputs targets params = Some (L, st) →
  trace_keys (length inputs) st.
Proof.
  unfold fprop. intros H.
  destruct (fprop_init self) as [st0|] eqn:Hinit; [simpl in H|done].
  destruct (fprop_loop _ _ _ _ _ _) as [st1|] eqn:Hloop; [simpl in H|done].
  injection H as _ <-.
  apply (fprop_loop_keys _ _ _ _ Hloop). by apply fprop_init_keys.
Qed.

(** An iteration without a target fails: [targets[t]] of line 178. *)
Lemma fprop_frame_no_target t st :
  targets !! t = None → fprop_frame self inputs targets params t st = None.
Proof.
  intros Ht.
  destruct (fprop_frame self inputs targets params t st) as [f|] eqn:Hf;
    [|done].
  destruct (fprop_frame_inv _ _ _ _ _ _ _ Hf) as
    (inp & tgt & ? & ? & ? & ? & ? & ? & ? & ? & ? & ? & ? & ? & ? & ? & ? &
     _ & Htgt & _).
  congruence.
Qed.

Lemma fprop_loop_short n : ∀ a st,
  (a <= length targets < a + n)%nat →
  fprop_loop self inputs targets params (seq a n) st = None.
Proof.
  induction n as [|n IH]; intros a st Hlen; [lia|]. simpl.
  unfold fprop_step.
  destruct (fprop_frame self inputs targets params a st) as [f|] eqn:Hf;
    [simpl|done].
  destruct (decide (a = length targets)) as [->|Hne].
  - rewrite fprop_frame_no_target in Hf; [done|].
    apply lookup_ge_None_2. lia.
  - apply IH. lia.
Qed.

Lemma fprop_short_targets :
  (length targets < length inputs)%nat →
  fprop self inputs targets params = None.
Proof.
  intros Hlen. unfold fprop.
  destruct (fprop_init self) as [st0|]; [simpl|done].
  rewrite fprop_loop_short; [done|lia].
Qed.

(** With more targets than inputs the first iteration of [manual_grads]
    fails on [ps[t]] (line 211). *)
Lemma manual_grads_long_targets L st :
  fprop self inputs targets params = Some (L, st) →
  (length inputs < length targets)%nat →
  manual_grads (set_stats self st) targets params = None.
Proof.
  intros Hf Hlen. apply fprop_keys in Hf.
  destruct Hf as (_ & _ & _ & _ & Hps & _).
  unfold manual_grads, manual_grads_state.
  change (self_stats (set_stats self st)) with (Some st).
  cbn [mbind option_bind].
  destruct (length targets) as [|n] eqn:En; [lia|].
  rewrite reverse_seq_S. cbn [manual_loop].
  assert (Hnone : st_ps st !! Z.of_nat n = None).
  { apply eq_None_not_Some. rewrite (Hps (Z.of_nat n)). lia. }
  unfold manual_step. rewrite Hnone. reflexivity.
Qed.

End TraceKeys.

(** * The keys that the forward pass reads *)

Ltac in_keys := apply (bool_decide_unpack _); vm_compute; exact I.

Section ReadKeys.

Context (self : NTM) (inputs targets : list matrix).

(** An iteration that returns has found every key of [step_keys]. *)
Lemma fprop_frame_has_keys params t st f :
  fprop_frame self inputs targets params t st = Some f →
  has_keys step_keys params.
Proof.
  intros H. unfold fprop_frame, read_head, write_head in H.
  repeat match type of H with
  | context [@lookup ?K ?A ?M ?L ?k ?m] =>
      let E := fresh "E" in
      destruct (@lookup K A M L k m) eqn:E; [simpl in H | discriminate]
  end.
  unfold has_keys, step_keys. rewrite !Forall_cons.
  split_and!; try done; eauto.
Qed.

Lemma fprop_init_has_keys st0 :
  fprop_init self = Some st0 → has_keys init_keys (W self).
Proof.
  intros H. unfold fprop_init in H.
  destruct (W self !! "rsInit") eqn:E1; [simpl in H|done].
  destruct (W self !! "w_wsInit") eqn:E2; [simpl in H|done].
  destruct (W self !! "w_rsInit") eqn:E3; [simpl in H|done].
  destruct (W self !! "memsInit") eqn:E4; [simpl in H|done].
  unfold has_keys, init_keys. rewrite !Forall_cons.
  split_and!; try done; eauto.
Qed.

Lemma fprop_missing_key params k :
  (k ∈ init_keys ∧ W self !! k = None) ∨
  (k ∈ step_keys ∧ params !! k = None ∧ inputs ≠ []) →
  fprop self inputs targets params = None.
Proof.
  intros Hk. unfold fprop.
  destruct (fprop_init self) as [st0|] eqn:Hinit; [simpl|done].
  destruct Hk as [[Hin Hnone]|(Hin & Hnone & Hne)].
  - apply fprop_init_has_keys in Hinit.
    destruct (has_keys_lookup _ _ _ Hinit Hin) as [? ?]. congruence.
  - destruct inputs as [|inp rest] eqn:Ei; [done|].
    change (length (inp :: rest)) with (S (length rest)).
    cbn [seq fprop_loop]. unfold fprop_step.
    destruct (fprop_frame self (inp :: rest) targets params 0 st0)
      as [f|] eqn:Hf; [|done].
    rewrite <- Ei in Hf. apply fprop_frame_has_keys in Hf.
    destruct (has_keys_lookup _ _ _ Hf Hin) as [? ?]. congruence.
Qed.

(** The forward pass reads its argument at the keys of [step_keys]
    only. *)
Lemma fprop_frame_ext params params' t st :
  (∀ k, k ∈ step_keys → params !! k = params' !! k) →
  fprop_frame self inputs targets params t st =
  fprop_frame self inputs targets params' t st.
Proof.
  intros H. unfold fprop_frame, read_head, write_head.
  repeat match goal with
  | |- context [params !! ?k] => rewrite (H k) by in_keys
  end.
  reflexivity.
Qed.

Lemma fprop_loop_ext params params' steps : ∀ st,
  (∀ k, k ∈ step_keys → params !! k = params' !! k) →
  fprop_loop self inputs targets params steps st =
  fprop_loop self inputs targets params' steps st.
Proof.
  induction steps as [|t steps IH]; intros st H; simpl; [done|].
  unfold fprop_step. rewrite (fprop_frame_ext params params' t st H).
  destruct (fprop_frame self inputs targets params' t st); simpl; [|done].
  by apply IH.
Qed.

Lemma fprop_ext params params' :
  (∀ k, k ∈ step_keys → params !! k = params' !! k) →
  fprop self inputs targets params = fprop self inputs targets params'.
Proof.
  intros H. unfold fprop.
  destruct (fprop_init self) as [st0|]; [simpl|done].
  by rewrite (fprop_loop_ext params params' _ st0 H).
Qed.

End ReadKeys.

(** * Calls on a model that already holds a trace *)

Section StaleTrace.

Context (grad : (gmap string matrix → option R) →
                gmap string matrix → option (gmap string matrix))
        (compare_deltas : matrix → matrix → bool).

Lemma bprop_set_stats self st inputs targets params manual_grad :
  bprop grad compare_deltas (set_stats self st) inputs targets params
    manual_grad =
  bprop grad compare_deltas self inputs targets params manual_grad.
Proof.
  unfold bprop, auto_grads.
  rewrite !fprop_set_stats, fprop_set_stats_fun.
  destruct manual_grad; [|reflexivity].
  destruct (fprop self inputs targets params) as [[L st1]|]; [|reflexivity].
  cbn [mbind option_bind].
  change (set_stats (set_stats self st) st1) with (set_stats self st1).
  rewrite !fprop_set_stats, !fprop_set_stats_fun.
  change (set_stats (set_stats self st1) st1) with (set_stats self st1).
  reflexivity.
Qed.

Lemma set_stats_idem self st st1 :
  set_stats (set_stats self st) st1 = set_stats self st1.
Proof. reflexivity. Qed.

End StaleTrace.

(** * Targets, inputs and the trace *)

Section Dependence.

Context (self : NTM) (params : gmap string matrix).

(** An iteration uses its target for the loss only. *)
Lemma fprop_frame_targets inputs targets targets' t s1 s2 f1 f2 :
  same_dictionaries s1 s2 →
  fprop_frame self inputs targets params t s1 = Some f1 →
  fprop_frame self inputs targets' params t s2 = Some f2 →
  same_dictionaries (record_frame t f1 s1) (record_frame t f2 s2).
Proof.
  intros Hs. unfold same_dictionaries in *. destruct_and!.
  unfold fprop_frame, read_head, write_head.
  repeat match goal with E : _ s1 = _ s2 |- _ => rewrite E; revert E end.
  repeat match goal with
  | |- context [@lookup ?K ?A ?M ?L ?k ?m] =>
      destruct (@lookup K A M L k m); simpl; [|intros; discriminate]
  end.
  intros. simplify_eq. simpl. split_and!; congruence.
Qed.

Lemma fprop_loop_targets inputs targets targets' steps : ∀ s1 s2 s1' s2',
  same_dictionaries s1 s2 →
  fprop_loop self inputs targets params steps s1 = Some s1' →
  fprop_loop self inputs targets' params steps s2 = Some s2' →
  same_dictionaries s1' s2'.
Proof.
  induction steps as [|t steps IH]; intros s1 s2 s1' s2' Hs H1 H2;
    simpl in H1, H2.
  - by simplify_eq.
  - unfold fprop_step in H1, H2.
    destruct (fprop_frame self inputs targets params t s1) as [f1|] eqn:E1;
      [simpl in H1|discriminate].
    destruct (fprop_frame self inputs targets' params t s2) as [f2|] eqn:E2;
      [simpl in H2|discriminate].
    eapply IH; [|exact H1|exact H2].
    exact (fprop_frame_targets inputs targets targets' t s1 s2 f1 f2 Hs E1 E2).
Qed.

Lemma same_dictionaries_refl s : same_dictionaries s s.
Proof. unfold same_dictionaries. by split_and!. Qed.

Lemma fprop_targets inputs targets targets' L1 st1 L2 st2 :
  fprop self inputs targets params = Some (L1, st1) →
  fprop self inputs targets' params = Some (L2, st2) →
  same_dictionaries st1 st2.
Proof.
  unfold fprop. intros H1 H2.
  destruct (fprop_init self) as [st0|]; [simpl in H1, H2|done].
  destruct (fprop_loop self inputs targets _ _ _) as [s1|] eqn:E1;
    [simpl in H1|done].
  destruct (fprop_loop self inputs targets' _ _ _) as [s2|] eqn:E2;
    [simpl in H2|done].
  simplify_eq.
  eapply fprop_loop_targets; [apply same_dictionaries_refl|exact E1|exact E2].
Qed.

(** The loop over two sequences with the same inputs at the timesteps
    run. *)
Lemma fprop_loop_inputs inputs inputs' targets steps : ∀ st,
  (∀ t, t ∈ steps → inputs !! t = inputs' !! t) →
  fprop_loop self inputs targets params steps st =
  fprop_loop self inputs' targets params steps st.
Proof.
  induction steps as [|t steps IH]; intros st H; simpl; [done|].
  unfold fprop_step.
  assert (fprop_frame self inputs targets params t st =
          fprop_frame self inputs' targets params t st) as ->.
  { unfold fprop_frame. by rewrite (H t) by (by left). }
  destruct (fprop_frame self inputs' targets params t st); simpl; [|done].
  apply IH. intros t' Ht'. apply H. by right.
Qed.

Lemma fprop_loop_app inputs targets l1 l2 : ∀ st,
  fprop_loop self inputs targets params (l1 ++ l2) st =
  fprop_loop self inputs targets params l1 st ≫=
    fprop_loop self inputs targets params l2.
Proof.
  induction l1 as [|t l1 IH]; intros st; simpl; [done|].
  destruct (fprop_step self inputs targets params t st); simpl; [apply IH|done].
Qed.

Lemma agree_below_sym z s1 s2 : agree_below z s1 s2 → agree_below z s2 s1.
Proof.
  intros H k Hk. specialize (H k Hk). destruct_and!. by split_and!.
Qed.

(** The entries of the trace below [n] after a loop over the whole
    sequence are those after the first [n] iterations. *)
Lemma fprop_loop_prefix inputs targets n st0 st :
  (n <= length inputs)%nat →
  fprop_loop self inputs targets params (seq 0 (length inputs)) st0 = Some st →
  ∃ stn, fprop_loop self inputs targets params (seq 0 n) st0 = Some stn ∧
         agree_below (Z.of_nat n) stn st.
Proof.
  intros Hn H.
  replace (length inputs) with (n + (length inputs - n))%nat in H by lia.
  rewrite seq_app, fprop_loop_app in H.
  destruct (fprop_loop self inputs targets params (seq 0 n) st0) as [stn|];
    [simpl in H|done].
  exists stn. split; [done|].
  by destruct (fprop_loop_frames self inputs targets params _ _ _ _ H).
Qed.

Lemma fprop_prefix inputs inputs' targets n L st L' st' :
  (n <= length inputs)%nat → (n <= length inputs')%nat →
  take n inputs = take n inputs' →
  fprop self inputs targets params = Some (L, st) →
  fprop self inputs' targets params = Some (L', st') →
  agree_below (Z.of_nat n) st st'.
Proof.
  intros Hn Hn' Htake. unfold fprop. intros H1 H2.
  destruct (fprop_init self) as [st0|]; [simpl in H1, H2|done].
  destruct (fprop_loop self inputs _ _ _ _) as [s1|] eqn:E1;
    [simpl in H1|done].
  destruct (fprop_loop self inputs' _ _ _ _) as [s2|] eqn:E2;
    [simpl in H2|done].
  simplify_eq.
  destruct (fprop_loop_prefix _ _ n _ _ Hn E1) as (a1 & Ha1 & Hag1).
  destruct (fprop_loop_prefix _ _ n _ _ Hn' E2) as (a2 & Ha2 & Hag2).
  rewrite (fprop_loop_inputs inputs inputs') in Ha1.
  - rewrite Ha1 in Ha2. simplify_eq.
    eapply agree_below_trans; [|apply agree_below_sym; exact Hag1|exact Hag2].
    lia.
  - intros t Ht. apply elem_of_seq in Ht.
    rewrite <- (lookup_take_lt inputs n t), <- (lookup_take_lt inputs' n t) by lia.
    by rewrite Htake.
Qed.

End Dependence.

(** * The ranges of the activations *)

Section Ranges.



End Ranges.

(** * The dictionaries of the backward pass *)

Section BackwardDictionaries.

Context (self : NTM) (targets : list matrix)
        (params : gmap string matrix) (st : stats).

(** What an iteration of [manual_grads] writes into its four
    dictionaries. *)
Lemma manual_step_dicts t g g' :
  manual_step self targets params st t g = Some g' →
  (∃ dzh_t, dzh g' = <[Z.of_nat t := dzh_t]> (dzh g)) ∧
  (not_last targets t →
     ∃ rh dzh_next dmem_t,
       W self !! "rh" = Some rh ∧
       dzh g !! (Z.of_nat t + 1)%Z = Some dzh_next ∧
       drs g' = <[Z.of_nat t := Np.dot (Np.transpose rh) dzh_next]> (drs g) ∧
       dmem g' = <[Z.of_nat t := dmem_t]> (dmem g) ∧
       dmemtilde g' = <[Z.of_nat t := dmem_t]> (dmemtilde g)) ∧
  (¬ not_last targets t →
     ∃ r0 mem0,
       st_rs st !! 0%Z = Some r0 ∧ st_mems st !! 0%Z = Some mem0 ∧
       drs g' = <[Z.of_nat t := Np.zeros_like r0]> (drs g) ∧
       dmem g' = dmem g ∧
       dmemtilde g' = <[Z.of_nat t := Np.zeros_like mem0]> (dmemtilde g)).
Proof.
  unfold manual_step. intros H.
  destruct (st_ps st !! _) as [p|]; [simpl in H|done].
  destruct (targets !! t) as [tgt|]; [simpl in H|done].
  destruct (st_os st !! _) as [o|]; [simpl in H|done].
  destruct (accum "oy" _ _) as [d1|] eqn:E1; [simpl in H|done].
  destruct (accum "by" _ _) as [d2|] eqn:E2; [simpl in H|done].
  destruct (manual_future _ _ _ _ _ _) as [[g1 dz]|] eqn:Ef; [simpl in H|done].
  destruct (interface_grad _ _ _ _ _) as [do|] eqn:Ei; [simpl in H|done].
  destruct (st_hs st !! _) as [h|]; [simpl in H|done].
  destruct (accum "ho" _ _) as [d3|] eqn:E3; [simpl in H|done].
  destruct (accum "bo" _ _) as [d4|] eqn:E4; [simpl in H|done].
  destruct (params !! "ho") as [ho|]; [simpl in H|done].
  destruct (st_xs st !! _) as [x|]; [simpl in H|done].
  destruct (accum "xh" _ _) as [d5|] eqn:E5; [simpl in H|done].
  destruct (accum "bh" _ _) as [d6|] eqn:E6; [simpl in H|done].
  destruct (st_rs st !! _) as [r_prev|]; [simpl in H|done].
  destruct (accum "rh" _ _) as [d7|] eqn:E7; [simpl in H|done].
  injection H as <-. simpl.
  destruct (decide (not_last targets t)) as [Hl|Hl].
  - destruct (manual_future_not_last _ _ _ _ _ _ _ _ Hl Ef) as
      (rh & dzh_next & w_r_next & drs_next & w_w_next & e_next & mem0 &
       dmemtilde_next & mem_prev & w_w & e & a & c1 & c2 & c3 & Hfacts).
    simpl in Hfacts. destruct_and!.
    split; [eexists; f_equal; eassumption|].
    split; [|done]. intros _. eauto 10.
  - destruct (manual_future_last _ _ _ _ _ _ _ _ Hl Ef) as
      (r0 & mem0 & Hr0 & Hm0 & -> & Hd & Hz & Hm & Hdrs & Hdt).
    simpl in Hz. split; [eexists; f_equal; eassumption|].
    split; [done|]. intros _. exists r0, mem0. by split_and!.
Qed.

Lemma keys_from_insert n T m v :
  (n < T)%nat → keys_from (S n) T m →
  keys_from n T (<[Z.of_nat n := v]> m).
Proof.
  intros Hn H z. destruct (decide (z = Z.of_nat n)) as [->|Hne].
  - rewrite lookup_insert_eq. split; [lia | eauto].
  - rewrite lookup_insert_ne by done. specialize (H z). rewrite H. lia.
Qed.

Lemma keys_from_empty_range lo lo' hi m :
  (hi <= lo)%nat → (hi <= lo')%nat → keys_from lo hi m → keys_from lo' hi m.
Proof. intros H1 H2 H z. specialize (H z). rewrite H. lia. Qed.

(** The keys of the four dictionaries after the loop over the timesteps
    [n - 1 .. 0]. *)
Lemma manual_loop_dicts n : ∀ g g',
  (n <= length targets)%nat →
  manual_loop self targets params st (reverse (seq 0 n)) g = Some g' →
  keys_from n (length targets) (drs g) →
  keys_from n (length targets) (dzh g) →
  keys_from n (length targets) (dmemtilde g) →
  keys_from n (length targets - 1) (dmem g) →
  keys_from 0 (length targets) (drs g') ∧
  keys_from 0 (length targets) (dzh g') ∧
  keys_from 0 (length targets) (dmemtilde g') ∧
  keys_from 0 (length targets - 1) (dmem g').
Proof.
  induction n as [|n IH]; intros g g' Hn Hloop Hr Hz Ht Hm.
  - simpl in Hloop. by simplify_eq.
  - rewrite reverse_seq_S in Hloop. cbn [manual_loop] in Hloop.
    destruct (manual_step self targets params st n g) as [g1|] eqn:Hstep;
      [|done].
    cbn [mbind option_bind] in Hloop.
    destruct (manual_step_dicts _ _ _ Hstep) as ([dzh_t Hdzh] & Hnl & Hl).
    apply (IH g1 g' ltac:(lia) Hloop).
    + destruct (decide (not_last targets n)) as [Hd|Hd].
      * destruct (Hnl Hd) as (rh & dn & dm & _ & _ & -> & _).
        apply keys_from_insert; [lia|done].
      * destruct (Hl Hd) as (r0 & mem0 & _ & _ & -> & _).
        apply keys_from_insert; [lia|done].
    + rewrite Hdzh. apply keys_from_insert; [lia|done].
    + destruct (decide (not_last targets n)) as [Hd|Hd].
      * destruct (Hnl Hd) as (rh & dn & dm & _ & _ & _ & _ & ->).
        apply keys_from_insert; [lia|done].
      * destruct (Hl Hd) as (r0 & mem0 & _ & _ & _ & _ & ->).
        apply keys_from_insert; [lia|done].
    + destruct (decide (not_last targets n)) as [Hd|Hd].
      * destruct (Hnl Hd) as (rh & dn & dm & _ & _ & _ & -> & _).
        apply keys_from_insert; [unfold not_last in Hd; lia|done].
      * destruct (Hl Hd) as (r0 & mem0 & _ & _ & _ & -> & _).
        eapply keys_from_empty_range; [| |exact Hm];
          unfold not_last in Hd; lia.
Qed.

Lemma keys_from_empty n T : (T <= n)%nat → keys_from n T ∅.
Proof.
  intros H z. rewrite lookup_empty. split; [by intros [? ?] | lia].
Qed.




End BackwardDictionaries.

(** * The constructor *)

Section ConstructorProofs.

Context (rando : nat → nat → nat → matrix) (uniform : nat → nat → matrix)
        (randn : nat → nat → nat → matrix).
Context (in_size out_size' hidden_size N' M' vec_size' : nat).

Lemma assign_lookup_ne (l : list (string * matrix)) : ∀ m k,
  k ∉ l.*1 → foldl assign m l !! k = m !! k.
Proof.
  induction l as [|[k' v'] l IH]; intros m k Hk; simpl; [done|].
  rewrite fmap_cons, not_elem_of_cons in Hk. destruct Hk as [Hne Hk].
  rewrite IH by done. unfold assign. simpl. by rewrite lookup_insert_ne.
Qed.

Lemma assign_lookup (l : list (string * matrix)) : ∀ m k v,
  NoDup l.*1 → (k, v) ∈ l → foldl assign m l !! k = Some v.
Proof.
  induction l as [|[k' v'] l IH]; intros m k v Hnd Hin; simpl.
  - by apply elem_of_nil in Hin.
  - rewrite fmap_cons in Hnd. apply NoDup_cons in Hnd as [Hk' Hnd].
    apply elem_of_cons in Hin as [Heq|Hin].
    + injection Heq as -> ->. rewrite assign_lookup_ne by done.
      unfold assign. simpl. by rewrite lookup_insert_eq.
    + by apply IH.
Qed.

Lemma assign_keys (l : list (string * matrix)) k :
  is_Some (foldl assign ∅ l !! k) → k ∈ l.*1.
Proof.
  intros H. destruct (decide (k ∈ l.*1)) as [|Hk]; [done|].
  rewrite assign_lookup_ne, lookup_empty in H by done. by destruct H.
Qed.

Lemma init_assignments_keys :
  (init_assignments rando uniform randn in_size out_size' hidden_size N' M').*1
  = step_keys_of_init.
Proof. reflexivity. Qed.

Lemma init_keys_NoDup : NoDup step_keys_of_init.
Proof. apply (bool_decide_unpack _). vm_compute. exact I. Qed.

Lemma init_lookup k v :
  (k, v) ∈ init_assignments rando uniform randn in_size out_size' hidden_size
             N' M' →
  W (init rando uniform randn in_size out_size' hidden_size N' M' vec_size')
    !! k = Some v.
Proof.
  intros Hin. unfold init. cbn [W]. apply assign_lookup; [|exact Hin].
  rewrite init_assignments_keys. apply init_keys_NoDup.
Qed.

Ltac init_entry :=
  unfold shaped_key; cbn [fst snd];
  erewrite init_lookup;
    [|unfold init_assignments; cbv zeta; repeat first [left | right]];
  cbn [from_option].

Lemma init_shaped :
  draws_shaped rando uniform randn →
  shaped (init rando uniform randn in_size out_size' hidden_size N' M'
            vec_size') in_size hidden_size
    (W (init rando uniform randn in_size out_size' hidden_size N' M' vec_size')).
Proof.
  intros (Hr & Hu & Hn). unfold shaped, init_shapes.
  change (N (init rando uniform randn in_size out_size' hidden_size N' M'
               vec_size')) with N'.
  change (M (init rando uniform randn in_size out_size' hidden_size N' M'
               vec_size')) with M'.
  change (out_size (init rando uniform randn in_size out_size' hidden_size N'
                      M' vec_size')) with out_size'.
  repeat (apply Forall_cons; split); [..|apply Forall_nil];
    try (init_entry;
         first [apply Hr | apply Hu | apply has_shape_map1, Hn]);
    lazymatch goal with |- True => exact I end.
Qed.

Lemma init_binds k :
  is_Some (W (init rando uniform randn in_size out_size' hidden_size N' M'
                vec_size') !! k) ↔
  k ∈ step_keys ++ init_keys.
Proof.
  assert (Hkeys : ∀ k' : string,
            k' ∈ step_keys_of_init ↔ k' ∈ step_keys ++ init_keys).
  { intros k'. split; revert k'; apply Forall_forall;
      apply (bool_decide_unpack _); vm_compute; exact I. }
  rewrite <- Hkeys, <- init_assignments_keys. split.
  - unfold init. cbn [W]. apply assign_keys.
  - intros Hk. apply list_elem_of_fmap in Hk as ([k' v] & Heq & Hin).
    cbn [fst] in Heq. subst k'. rewrite (init_lookup _ _ Hin). eauto.
Qed.

End ConstructorProofs.


(** * Further properties of [lossFun] *)

Lemma ex_well_formed_targets :
  well_formed ex_self 1 1 ex_inputs [ [[0]]; [[1]] ] ex_W.
Proof.
  split; try (simpl; lia);
    apply (bool_decide_unpack _); vm_compute; exact I.
Defined.

Lemma ex_well_formed_inputs :
  well_formed ex_self 1 1 [ [[1]]; [[1]] ] ex_targets ex_W.
Proof.
  split; try (simpl; lia);
    apply (bool_decide_unpack _); vm_compute; exact I.
Defined.

Lemma zero_draw_shaped :
  draws_shaped (λ _, zero_draw) zero_draw (λ _, zero_draw).
Proof.
  assert (H : ∀ r c, Np.has_shape r c (zero_draw r c)).
  { intros r c. unfold zero_draw. split; [apply length_replicate|].
    apply Forall_replicate, length_replicate. }
  split; [intros _; exact H|]. split; [exact H|intros _; exact H].
Defined.


Lemma ex_short_targets : (length (take 1 ex_targets) < length ex_inputs)%nat.
Proof. cbn. lia. Defined.

Lemma ex_surplus_targets : (length (take 1 ex_inputs) < length ex_targets)%nat.
Proof. cbn. lia. Defined.

Lemma ex_missing_by :
  (("by" : string) ∈ init_keys ∧ W ex_self !! "by" = None) ∨
  (("by" : string) ∈ step_keys ∧ delete "by" ex_W !! "by" = None ∧
   ex_inputs ≠ []).
Proof.
  right. split; [in_keys|]. split; [apply lookup_delete_eq | discriminate].
Defined.

Lemma ex_other_memsInit :
  ∀ k, k ∈ step_keys → ex_W !! k = <["memsInit" := [[5]; [7]]]> ex_W !! k.
Proof.
  intros k Hk. rewrite lookup_insert_ne; [reflexivity|]. intros <-.
  revert Hk. in_keys.
Defined.

Lemma ex_prefix_length : (1 <= length ex_inputs)%nat.
Proof. cbn. lia. Defined.

Lemma ex_prefix : take 1 ex_inputs = take 1 [ [[1]]; [[1]] ].
Proof. reflexivity. Defined.

Lemma ctor_pos : (0 < 1)%nat.
Proof. lia. Defined.

Lemma ctor_pos2 : (0 < 2)%nat.
Proof. lia. Defined.

Lemma ctor_inputs : Forall (Np.has_shape 1 1) ex_inputs.
Proof. apply (bool_decide_unpack _). vm_compute. exact I. Defined.

Lemma ctor_targets : Forall (Np.has_shape 1 1) ex_targets.
Proof. apply (bool_decide_unpack _). vm_compute. exact I. Defined.

Lemma ctor_length : length ex_inputs = length ex_targets.
Proof. reflexivity. Defined.

(** The manual backward pass accumulates into eleven keys only.  On a
    well-formed call, for every other key of [params], and so for every
    parameter of the two addressing heads and for the four initial
    conditions, the gradient it returns is the zero array of the
    initialisation, whatever the inputs, the targets and the parameters
    are. *)
Theorem manual_gradient_of_heads_is_zero
    self in_size hidden_size inputs targets params :
  well_formed self in_size hidden_size inputs targets params →
  ∃ L st d,
    fprop self inputs targets params = Some (L, st) ∧
    manual_grads (set_stats self st) targets params = Some d ∧
    (∀ k, k ∉ every_step_keys ++ erase_add_keys →
       d !! k = Np.zeros_like <$> params !! k) ∧
    (∀ k, k ∈ head_keys ++ init_keys →
       d !! k = Np.zeros_like <$> params !! k).
Proof.
  intros Hwf.
  destruct (well_formed_keys _ _ _ _ _ _ Hwf) as (Hi & Hs & Hp & Hlen).
  destruct (manual_grads_returns self inputs targets params Hi Hs Hp Hlen) as
    (st & g & Hf & _ & Hg & _ & Hun & _).
  exists (np_sum (st_loss st)), st, (deltas g).
  split; [exact Hf|]. split; [unfold manual_grads; by rewrite Hg|].
  assert (Hz : ∀ k, k ∉ every_step_keys ++ erase_add_keys →
                deltas g !! k = Np.zeros_like <$> params !! k).
  { intros k Hk. rewrite Hun by exact Hk. unfold zero_deltas.
    by rewrite lookup_fmap. }
  split; [exact Hz|]. intros k Hk. apply Hz. intros Hk'.
  revert Hk'. apply (bool_decide_unpack _).
  revert k Hk. apply Forall_forall.
  apply (bool_decide_unpack _). vm_compute. exact I.
Qed.

Lemma manual_gradient_of_heads_is_zero_witness :
  well_formed ex_self 1%nat 1%nat ex_inputs ex_targets ex_W ∧
  ∃ L st d,
    fprop ex_self ex_inputs ex_targets ex_W = Some (L, st) ∧
    manual_grads (set_stats ex_self st) ex_targets ex_W = Some d ∧
    (∀ k, k ∉ every_step_keys ++ erase_add_keys →
       d !! k = Np.zeros_like <$> ex_W !! k) ∧
    (∀ k, k ∈ head_keys ++ init_keys →
       d !! k = Np.zeros_like <$> ex_W !! k).
Proof.
  split; [exact ex_well_formed|].
  exact (manual_gradient_of_heads_is_zero ex_self 1%nat 1%nat ex_inputs ex_targets ex_W ex_well_formed).
Defined.

(** On a well-formed call the gradient collection of the manual backward
    pass binds exactly the keys of [params], each to an array of the
    shape of the parameter. *)
Theorem manual_gradient_keys_and_shapes
    self in_size hidden_size inputs targets params :
  well_formed self in_size hidden_size inputs targets params →
  ∃ L st d,
    fprop self inputs targets params = Some (L, st) ∧
    manual_grads (set_stats self st) targets params = Some d ∧
    dom d = dom params ∧
    ∀ k a, params !! k = Some a →
      ∃ a', d !! k = Some a' ∧
            ∀ r c, Np.has_shape r c a → Np.has_shape r c a' .
Proof.
  intros Hwf.
  destruct (well_formed_keys _ _ _ _ _ _ Hwf) as (Hi & Hs & Hp & Hlen).
  destruct (manual_grads_returns self inputs targets params Hi Hs Hp Hlen) as
    (st & g & Hf & _ & Hg & Hsh & _).
  exists (np_sum (st_loss st)), st, (deltas g).
  split; [exact Hf|]. split; [unfold manual_grads; by rewrite Hg|].
  split.
  - rewrite (same_shapes_dom _ _ Hsh). unfold zero_deltas.
    by rewrite dom_fmap_L.
  - intros k a Ha. specialize (Hsh k). unfold zero_deltas in Hsh.
    rewrite lookup_fmap, Ha in Hsh. cbn in Hsh.
    destruct (deltas g !! k) as [a'|]; [|destruct Hsh].
    exists a'. split; [reflexivity|]. intros r c Hrc. apply Hsh.
    by apply has_shape_map1.
Qed.

Lemma manual_gradient_keys_and_shapes_witness :
  well_formed ex_self 1%nat 1%nat ex_inputs ex_targets ex_W ∧
  ∃ L st d,
    fprop ex_self ex_inputs ex_targets ex_W = Some (L, st) ∧
    manual_grads (set_stats ex_self st) ex_targets ex_W = Some d ∧
    dom d = dom ex_W ∧
    ∀ k a, ex_W !! k = Some a →
      ∃ a', d !! k = Some a' ∧
            ∀ r c, Np.has_shape r c a → Np.has_shape r c a' .
Proof.
  split; [exact ex_well_formed|].
  exact (manual_gradient_keys_and_shapes ex_self 1%nat 1%nat ex_inputs ex_targets ex_W ex_well_formed).
Defined.

(** * Sequences and their lengths *)

(** On a well-formed call the trace of the forward pass binds exactly one
    entry per timestep: the memories, the read vectors and the two
    weightings at the keys [-1 .. T - 1] (the initial condition is kept
    at [-1]), the other nine dictionaries at [0 .. T - 1], for
    [T = len(inputs)]; no other key is bound. *)
Theorem trace_binds_one_entry_per_timestep
    self in_size hidden_size inputs targets params :
  well_formed self in_size hidden_size inputs targets params →
  ∃ L st, fprop self inputs targets params = Some (L, st) ∧
          trace_keys (length inputs) st.
Proof.
  intros Hwf.
  destruct (well_formed_keys _ _ _ _ _ _ Hwf) as (Hi & _ & Hk & Hlen).
  destruct (fprop_returns self inputs targets params Hi Hk ltac:(lia))
    as (st & Hf & _).
  exists (np_sum (st_loss st)), st. split; [exact Hf|].
  exact (fprop_keys self inputs targets params _ st Hf).
Qed.

Lemma trace_binds_one_entry_per_timestep_witness :
  well_formed ex_self 1%nat 1%nat ex_inputs ex_targets ex_W ∧
  ∃ L st, fprop ex_self ex_inputs ex_targets ex_W = Some (L, st) ∧
          trace_keys (length ex_inputs) st.
Proof.
  split; [exact ex_well_formed|].
  exact (trace_binds_one_entry_per_timestep ex_self 1%nat 1%nat ex_inputs ex_targets ex_W ex_well_formed).
Defined.

(** With fewer targets than inputs the forward pass fails, at the latest
    on [targets[t]] of the first timestep without a target, and so does
    [lossFun], whatever [manual_grad] is: no loss, no gradient and no
    trace come back. *)
Theorem lossFun_fails_on_missing_targets
    grad compare_deltas self inputs targets params manual_grad :
  (length targets < length inputs)%nat →
  fprop self inputs targets params = None ∧
  lossFun grad compare_deltas self inputs targets manual_grad = None.
Proof.
  intros Hlen. split; [by apply fprop_short_targets|].
  unfold lossFun, bprop, auto_grads.
  rewrite (fprop_short_targets self inputs targets (W self) Hlen).
  by destruct manual_grad.
Qed.

Lemma lossFun_fails_on_missing_targets_witness :
  (length (take 1 ex_targets) < length ex_inputs)%nat ∧
  fprop ex_self ex_inputs (take 1 ex_targets) ex_W = None ∧
  lossFun Autograd.grad (compare_deltas_tol (/ 100000)) ex_self ex_inputs (take 1 ex_targets) true = None.
Proof.
  split; [exact ex_short_targets|].
  exact (lossFun_fails_on_missing_targets Autograd.grad (compare_deltas_tol (/ 100000)) ex_self ex_inputs (take 1 ex_targets) ex_W true ex_short_targets).
Defined.

(** With more targets than inputs, on shapes that conform, the two modes
    differ: the call with [manual_grad = True] fails, since the backward
    loop runs over [len(targets)] and reads [ps] at a timestep that the
    forward pass did not reach, while the call with [manual_grad = False]
    returns, having ignored the surplus targets. *)
Theorem manual_mode_fails_on_surplus_targets
    grad compare_deltas self in_size hidden_size inputs targets :
  oracle_total grad →
  well_formed self in_size hidden_size inputs (take (length inputs) targets) (W self) →
  (length inputs < length targets)%nat →
  lossFun grad compare_deltas self inputs targets true = None ∧
  ∃ self' res,
    lossFun grad compare_deltas self inputs targets false =
      Some (self', [], Return res).
Proof.
  intros Hor Hwf Hlen.
  destruct (well_formed_keys _ _ _ _ _ _ Hwf) as (Hi & Hs & _ & _).
  split.
  - destruct (fprop_returns self inputs targets (W self) Hi Hs ltac:(lia))
      as (st & Hf & _).
    unfold lossFun, bprop. rewrite Hf. cbn [mbind option_bind].
    by rewrite (manual_grads_long_targets self inputs targets (W self) _ st
                  Hf Hlen).
  - destruct (lossFun_auto grad compare_deltas self inputs targets Hor Hi Hs
                ltac:(lia)) as (st & G & _ & _ & Hloss).
    eauto.
Qed.

Lemma manual_mode_fails_on_surplus_targets_witness :
  oracle_total Autograd.grad ∧
  well_formed ex_self 1%nat 1%nat (take 1 ex_inputs) (take (length (take 1 ex_inputs)) ex_targets) (W ex_self) ∧
  (length (take 1 ex_inputs) < length ex_targets)%nat ∧
  lossFun Autograd.grad (compare_deltas_tol (/ 100000)) ex_self (take 1 ex_inputs) ex_targets true = None ∧
  ∃ self' res,
    lossFun Autograd.grad (compare_deltas_tol (/ 100000)) ex_self (take 1 ex_inputs) ex_targets false =
      Some (self', [], Return res).
Proof.
  split; [exact autograd_total|].
  split; [exact ex_well_formed_1|].
  split; [exact ex_surplus_targets|].
  exact (manual_mode_fails_on_surplus_targets Autograd.grad (compare_deltas_tol (/ 100000)) ex_self 1%nat 1%nat (take 1 ex_inputs) ex_targets autograd_total ex_well_formed_1 ex_surplus_targets).
Defined.

(** * What the forward pass reads *)

(** The forward pass fails when a key is missing: one of the four
    initial conditions in [self.W], even for an empty sequence, or, for a
    sequence with at least one timestep, one of the thirty-one keys that
    an iteration reads from its argument. *)
Theorem fprop_fails_on_missing_key
    self inputs targets params k :
  ((k ∈ init_keys ∧ W self !! k = None) ∨
   (k ∈ step_keys ∧ params !! k = None ∧ inputs ≠ [])) →
  fprop self inputs targets params = None.
Proof.
  apply fprop_missing_key.
Qed.

Lemma fprop_fails_on_missing_key_witness :
  (("by" ∈ init_keys ∧ W ex_self !! "by" = None) ∨
   ("by" ∈ step_keys ∧ (delete "by" ex_W) !! "by" = None ∧ ex_inputs ≠ [])) ∧
  fprop ex_self ex_inputs ex_targets (delete "by" ex_W) = None.
Proof.
  split; [exact ex_missing_by|].
  exact (fprop_fails_on_missing_key ex_self ex_inputs ex_targets (delete "by" ex_W) "by" ex_missing_by).
Defined.

(** The forward pass reads its argument [params] at the thirty-one keys
    of the loop only: two collections that agree on them give the same
    loss and the same trace.  In particular the entries of [params] for
    the initial conditions are never read; those come from [self.W]. *)
Theorem fprop_reads_only_step_keys
    self inputs targets params params' :
  (∀ k, k ∈ step_keys → params !! k = params' !! k) →
  fprop self inputs targets params = fprop self inputs targets params' .
Proof.
  apply fprop_ext.
Qed.

Lemma fprop_reads_only_step_keys_witness :
  (∀ k, k ∈ step_keys → ex_W !! k = (<["memsInit" := [[5]; [7]]]> ex_W) !! k) ∧
  fprop ex_self ex_inputs ex_targets ex_W = fprop ex_self ex_inputs ex_targets (<["memsInit" := [[5]; [7]]]> ex_W) .
Proof.
  split; [exact ex_other_memsInit|].
  exact (fprop_reads_only_step_keys ex_self ex_inputs ex_targets ex_W (<["memsInit" := [[5]; [7]]]> ex_W) ex_other_memsInit).
Defined.

(** On the empty sequence the loop does not run: the forward pass returns
    the loss [0], still the integer it was initialised to, its trace
    holds the initial conditions only, and the manual backward pass
    returns the zero array for every key of [params]. *)
Theorem empty_sequence_gives_zero
    self targets params :
  has_keys init_keys (W self) →
  ∃ st0,
    fprop_init self = Some st0 ∧
    fprop self [] targets params = Some (0, st0) ∧
    st_loss st0 = Scalar 0 ∧ trace_keys 0 st0 ∧
    manual_grads (set_stats self st0) [] params = Some (zero_deltas params).
Proof.
  intros Hi. destruct (fprop_init_bound self Hi) as (st0 & Hinit & _).
  exists st0. split; [exact Hinit|].
  assert (Hl : st_loss st0 = Scalar 0).
  { unfold fprop_init in Hinit.
    destruct (W self !! "rsInit"); [cbn in Hinit|discriminate].
    destruct (W self !! "w_wsInit"); [cbn in Hinit|discriminate].
    destruct (W self !! "w_rsInit"); [cbn in Hinit|discriminate].
    destruct (W self !! "memsInit"); [cbn in Hinit|discriminate].
    by injection Hinit as <-. }
  split.
  { unfold fprop. rewrite Hinit. cbn. by rewrite Hl. }
  split; [exact Hl|]. split; [by apply (fprop_init_keys self)|]. reflexivity.
Qed.

Lemma empty_sequence_gives_zero_witness :
  has_keys init_keys (W ex_self) ∧
  ∃ st0,
    fprop_init ex_self = Some st0 ∧
    fprop ex_self [] ex_targets ex_W = Some (0, st0) ∧
    st_loss st0 = Scalar 0 ∧ trace_keys 0 st0 ∧
    manual_grads (set_stats ex_self st0) [] ex_W = Some (zero_deltas ex_W).
Proof.
  split; [exact ex_has_init_keys|].
  exact (empty_sequence_gives_zero ex_self ex_targets ex_W ex_has_init_keys).
Defined.

(** * Repeated calls *)

(** A call does not depend on the trace that an earlier call left in
    [self.stats]: on a model that holds any trace, [lossFun] prints and
    returns what it does on the model without it, and leaves the same
    model behind. *)
Theorem lossFun_ignores_stale_trace
    grad compare_deltas self st inputs targets manual_grad :
  lossFun grad compare_deltas (set_stats self st) inputs targets manual_grad =
  lossFun grad compare_deltas self inputs targets manual_grad.
Proof.
  unfold lossFun. change (W (set_stats self st)) with (W self).
  by rewrite bprop_set_stats.
Qed.



(** * What the trace depends on *)

(** The targets enter the loss only: for two target sequences, each
    making the call well-formed, the forward pass leaves the same thirteen
    dictionaries (predictions, memories, weightings, read vectors and the
    rest); the traces can differ in the accumulated loss alone. *)
Theorem predictions_do_not_depend_on_targets
    self in_size hidden_size inputs targets targets' params :
  well_formed self in_size hidden_size inputs targets params →
  well_formed self in_size hidden_size inputs targets' params →
  ∃ L st L' st',
    fprop self inputs targets params = Some (L, st) ∧
    fprop self inputs targets' params = Some (L', st') ∧
    same_dictionaries st st' .
Proof.
  intros Hwf Hwf'.
  destruct (well_formed_keys _ _ _ _ _ _ Hwf) as (Hi & _ & Hk & Hlen).
  destruct (well_formed_keys _ _ _ _ _ _ Hwf') as (_ & _ & _ & Hlen').
  destruct (fprop_returns self inputs targets params Hi Hk ltac:(lia))
    as (st & Hf & _).
  destruct (fprop_returns self inputs targets' params Hi Hk ltac:(lia))
    as (st' & Hf' & _).
  eexists _, st, _, st'. split; [exact Hf|]. split; [exact Hf'|].
  exact (fprop_targets self params inputs targets targets' _ st _ st' Hf Hf').
Qed.

Lemma predictions_do_not_depend_on_targets_witness :
  well_formed ex_self 1%nat 1%nat ex_inputs ex_targets ex_W ∧
  well_formed ex_self 1%nat 1%nat ex_inputs [ [[0]]; [[1]] ] ex_W ∧
  ∃ L st L' st',
    fprop ex_self ex_inputs ex_targets ex_W = Some (L, st) ∧
    fprop ex_self ex_inputs [ [[0]]; [[1]] ] ex_W = Some (L', st') ∧
    same_dictionaries st st' .
Proof.
  split; [exact ex_well_formed|].
  split; [exact ex_well_formed_targets|].
  exact (predictions_do_not_depend_on_targets ex_self 1%nat 1%nat ex_inputs ex_targets [ [[0]]; [[1]] ] ex_W ex_well_formed ex_well_formed_targets).
Defined.

(** The forward pass is causal: for two input sequences with the same
    first [n] inputs, every dictionary of the trace has the same entries
    at the keys below [n]; what the model computes at a timestep does not
    depend on later inputs. *)
Theorem forward_pass_is_causal
    self in_size hidden_size inputs inputs' targets params n :
  well_formed self in_size hidden_size inputs targets params →
  well_formed self in_size hidden_size inputs' targets params →
  (n <= length inputs)%nat →
  take n inputs = take n inputs' →
  ∃ L st L' st',
    fprop self inputs targets params = Some (L, st) ∧
    fprop self inputs' targets params = Some (L', st') ∧
    agree_below (Z.of_nat n) st st' .
Proof.
  intros Hwf Hwf' Hn Htake.
  destruct (well_formed_keys _ _ _ _ _ _ Hwf) as (Hi & _ & Hk & Hlen).
  destruct (well_formed_keys _ _ _ _ _ _ Hwf') as (_ & _ & _ & Hlen').
  destruct (fprop_returns self inputs targets params Hi Hk ltac:(lia))
    as (st & Hf & _).
  destruct (fprop_returns self inputs' targets params Hi Hk ltac:(lia))
    as (st' & Hf' & _).
  eexists _, st, _, st'. split; [exact Hf|]. split; [exact Hf'|].
  assert (Hn' : (n <= length inputs')%nat) by lia.
  exact (fprop_prefix self params inputs inputs' targets n _ st _ st'
           Hn Hn' Htake Hf Hf').
Qed.

Lemma forward_pass_is_causal_witness :
  well_formed ex_self 1%nat 1%nat ex_inputs ex_targets ex_W ∧
  well_formed ex_self 1%nat 1%nat [ [[1]]; [[1]] ] ex_targets ex_W ∧
  (1%nat <= length ex_inputs)%nat ∧
  take 1%nat ex_inputs = take 1%nat [ [[1]]; [[1]] ] ∧
  ∃ L st L' st',
    fprop ex_self ex_inputs ex_targets ex_W = Some (L, st) ∧
    fprop ex_self [ [[1]]; [[1]] ] ex_targets ex_W = Some (L', st') ∧
    agree_below (Z.of_nat 1%nat) st st' .
Proof.
  split; [exact ex_well_formed|].
  split; [exact ex_well_formed_inputs|].
  split; [exact ex_prefix_length|].
  split; [exact ex_prefix|].
  exact (forward_pass_is_causal ex_self 1%nat 1%nat ex_inputs [ [[1]]; [[1]] ] ex_targets ex_W 1%nat ex_well_formed ex_well_formed_inputs ex_prefix_length ex_prefix).
Defined.

(** * The ranges of the activations *)



(** * The dictionaries of the manual backward pass *)

(** On a well-formed call, after the backward loop over
    [T = len(targets)] timesteps the dictionaries [drs], [dzh] and
    [dmemtilde] bind exactly the keys [0 .. T - 1], and [dmem] binds
    exactly [0 .. T - 2]: the terminal timestep writes no [dmem]
    entry. *)
Theorem backward_dictionaries_keys
    self in_size hidden_size inputs targets params :
  well_formed self in_size hidden_size inputs targets params →
  ∃ L st g,
    fprop self inputs targets params = Some (L, st) ∧
    manual_grads_state (set_stats self st) targets params = Some g ∧
    keys_from 0 (length targets) (drs g) ∧
    keys_from 0 (length targets) (dzh g) ∧
    keys_from 0 (length targets) (dmemtilde g) ∧
    keys_from 0 (length targets - 1) (dmem g).
Proof.
  intros Hwf.
  destruct (well_formed_keys _ _ _ _ _ _ Hwf) as (Hi & Hs & Hp & Hlen).
  destruct (manual_grads_returns self inputs targets params Hi Hs Hp Hlen) as
    (st & g & Hf & _ & Hg & _).
  eexists _, st, g. split; [exact Hf|]. split; [exact Hg|].
  unfold manual_grads_state in Hg.
  change (self_stats (set_stats self st)) with (Some st) in Hg.
  cbn [mbind option_bind] in Hg.
  apply (manual_loop_dicts (set_stats self st) targets params st
           (length targets) _ g (Nat.le_refl _) Hg);
    cbn [drs dzh dmem dmemtilde]; apply keys_from_empty; lia.
Qed.

Lemma backward_dictionaries_keys_witness :
  well_formed ex_self 1%nat 1%nat ex_inputs ex_targets ex_W ∧
  ∃ L st g,
    fprop ex_self ex_inputs ex_targets ex_W = Some (L, st) ∧
    manual_grads_state (set_stats ex_self st) ex_targets ex_W = Some g ∧
    keys_from 0 (length ex_targets) (drs g) ∧
    keys_from 0 (length ex_targets) (dzh g) ∧
    keys_from 0 (length ex_targets) (dmemtilde g) ∧
    keys_from 0 (length ex_targets - 1) (dmem g).
Proof.
  split; [exact ex_well_formed|].
  exact (backward_dictionaries_keys ex_self 1%nat 1%nat ex_inputs ex_targets ex_W ex_well_formed).
Defined.





(** * The constructor *)

(** The constructor stores the sizes, leaves [self.stats] at [None], and
    binds in [self.W] exactly the thirty-one keys that the forward loop
    reads and the four initial conditions, each to an array of the shape
    listed in [init_shapes]: the shift kernels have [min(3, N)] rows. *)
Theorem constructor_builds_every_parameter
    rando uniform randn in_size out hidden_size n m vec :
  draws_shaped rando uniform randn →
  let self := init rando uniform randn in_size out hidden_size n m vec in
  N self = n ∧ M self = m ∧ out_size self = out ∧
  vec_size self = vec ∧ self_stats self = None ∧
  shaped self in_size hidden_size (W self) ∧
  (∀ k, is_Some (W self !! k) ↔ k ∈ step_keys ++ init_keys).
Proof.
  intros Hd. cbv zeta. split_and!; try reflexivity.
  - by apply init_shaped.
  - apply init_binds.
Qed.

Lemma constructor_builds_every_parameter_witness :
  draws_shaped (λ _, zero_draw) zero_draw (λ _, zero_draw) ∧
  let self := init (λ _, zero_draw) zero_draw (λ _, zero_draw) 1%nat 1%nat 1%nat 2%nat 1%nat 1%nat in
  N self = 2%nat ∧ M self = 1%nat ∧ out_size self = 1%nat ∧
  vec_size self = 1%nat ∧ self_stats self = None ∧
  shaped self 1%nat 1%nat (W self) ∧
  (∀ k, is_Some (W self !! k) ↔ k ∈ step_keys ++ init_keys).
Proof.
  split; [exact zero_draw_shaped|].
  exact (constructor_builds_every_parameter (λ _, zero_draw) zero_draw (λ _, zero_draw) 1%nat 1%nat 1%nat 2%nat 1%nat 1%nat zero_draw_shaped).
Defined.

(** A model fresh from the constructor, with positive sizes, makes every
    call on sequences of conformant rows well-formed: the forward pass
    on its own parameters returns, and its trace binds one entry per
    timestep. *)
Theorem constructed_model_runs
    rando uniform randn in_size out hidden_size n m vec inputs targets :
  draws_shaped rando uniform randn →
  (0 < in_size)%nat →
  (0 < hidden_size)%nat →
  (0 < out)%nat →
  (0 < n)%nat →
  (0 < m)%nat →
  Forall (Np.has_shape 1 in_size) inputs →
  Forall (Np.has_shape 1 out) targets →
  length inputs = length targets →
  let self := init rando uniform randn in_size out hidden_size n m vec in
  well_formed self in_size hidden_size inputs targets (W self) ∧
  ∃ L st, fprop self inputs targets (W self) = Some (L, st) ∧
          trace_keys (length inputs) st.
Proof.
  intros Hd Hi Hh Ho Hn Hm Hin Htg Hlen. cbv zeta.
  assert (Hwf : well_formed
            (init rando uniform randn in_size out hidden_size n m vec)
            in_size hidden_size inputs targets
            (W (init rando uniform randn in_size out hidden_size n m vec))).
  { split; try assumption; by apply init_shaped. }
  split; [exact Hwf|].
  destruct (well_formed_keys _ _ _ _ _ _ Hwf) as (Hi' & _ & Hk & _).
  destruct (fprop_returns _ inputs targets _ Hi' Hk ltac:(lia))
    as (st & Hf & _).
  exists (np_sum (st_loss st)), st. split; [exact Hf|].
  exact (fprop_keys _ inputs targets _ _ st Hf).
Qed.

Lemma constructed_model_runs_witness :
  draws_shaped (λ _, zero_draw) zero_draw (λ _, zero_draw) ∧
  (0 < 1%nat)%nat ∧
  (0 < 1%nat)%nat ∧
  (0 < 1%nat)%nat ∧
  (0 < 2%nat)%nat ∧
  (0 < 1%nat)%nat ∧
  Forall (Np.has_shape 1 1%nat) ex_inputs ∧
  Forall (Np.has_shape 1 1%nat) ex_targets ∧
  length ex_inputs = length ex_targets ∧
  let self := init (λ _, zero_draw) zero_draw (λ _, zero_draw) 1%nat 1%nat 1%nat 2%nat 1%nat 1%nat in
  well_formed self 1%nat 1%nat ex_inputs ex_targets (W self) ∧
  ∃ L st, fprop self ex_inputs ex_targets (W self) = Some (L, st) ∧
          trace_keys (length ex_inputs) st.
Proof.
  split; [exact zero_draw_shaped|].
  split; [exact ctor_pos|].
  split; [exact ctor_pos|].
  split; [exact ctor_pos|].
  split; [exact ctor_pos2|].
  split; [exact ctor_pos|].
  split; [exact ctor_inputs|].
  split; [exact ctor_targets|].
  split; [exact ctor_length|].
  exact (constructed_model_runs (λ _, zero_draw) zero_draw (λ _, zero_draw) 1%nat 1%nat 1%nat 2%nat 1%nat 1%nat ex_inputs ex_targets zero_draw_shaped ctor_pos ctor_pos ctor_pos ctor_pos2 ctor_pos ctor_inputs ctor_targets ctor_length).
Defined.
